(** * chemdemo: molecule correspondence, rigid alignment and morph controller

    A shallow embedding of the JavaScript sources

    - [pubchemtest/index.js]: [adjacency], [computeAtomMapping], [centroid],
      [computeAlignment], [svd3x3], [eigenSymmetric], the matrix helpers and
      [getMoleculePoints] (parser, alignment step, normaliser);
    - [src/components/MolecularViewer.jsx] (sprite viewer) and the instanced
      mesh viewer: [loadMoleculesOnce], [transition], [animate].

    Conventions of the embedding.

    - A JavaScript number is an element of a [Number] structure.  The
      instance [Binary64] is IEEE 754 double precision as the Standard
      Library's [SpecFloat] defines it (what the engine computes with); the
      instance [Exact] is the field of real numbers, used where a statement
      is about the arithmetic the formulas denote.
    - An array of three numbers is a triple [Vec3], a 3x3 array of arrays a
      triple of rows [Mat3]; the loop indices 0, 1, 2 are the type [Ix].
    - A thrown exception is the [inl] of a sum, or comes next to the state
      the code had reached when it was thrown; [Math.random] is a stream
      [nat -> num] of draws handed to the code that consumes it. *)

From Stdlib Require Import String Ascii.
From Stdlib Require Import ZArith List Bool Arith Lia Permutation.
From Stdlib Require Import SpecFloat Reals Lra.
Import ListNotations.

Set Implicit Arguments.

(** ** Numbers *)

Class Number : Type := {
  num : Type;
  (** an integer literal, or an array length used as a number *)
  of_Z : Z -> num;
  (** the decimal literal [m / 10^k] *)
  dec : Z -> nat -> num;
  nadd : num -> num -> num;
  nsub : num -> num -> num;
  nmul : num -> num -> num;
  ndiv : num -> num -> num;
  nneg : num -> num;
  (** [Math.sqrt] *)
  nsqrt : num -> num;
  (** [a < b] *)
  nltb : num -> num -> bool;
  (** [a <= b] *)
  nleb : num -> num -> bool;
  (** [ToBoolean], as [||] and [if] apply it *)
  truthy : num -> bool;
  (** [Math.min] and [Math.max] of two arguments *)
  nmin : num -> num -> num;
  nmax : num -> num -> num;
  (** [Math.hypot] of three arguments *)
  nhypot : num -> num -> num -> num;
  (** what an element of a [Float32Array] gives back for the number stored
      in it ([Math.fround]) *)
  fround : num -> num
}.

Declare Scope num_scope.
Delimit Scope num_scope with num.
Infix "+" := nadd : num_scope.
Infix "-" := nsub : num_scope.
Infix "*" := nmul : num_scope.
Infix "/" := ndiv : num_scope.
Notation "- x" := (nneg x) : num_scope.
Infix "<?" := nltb : num_scope.
Infix "<=?" := nleb : num_scope.

(** *** IEEE 754 binary64 *)

Module F64.

Definition prec : Z := 53.
Definition emax : Z := 1024.

Definition t : Type := spec_float.

Definition nan : t := S754_nan.
Definition zero : t := S754_zero false.

Definition of_Z (z : Z) : t := binary_normalize prec emax z 0 false.

Definition add : t -> t -> t := SFadd prec emax.
Definition sub : t -> t -> t := SFsub prec emax.
Definition mul : t -> t -> t := SFmul prec emax.
Definition div : t -> t -> t := SFdiv prec emax.
Definition sqrt : t -> t := SFsqrt prec emax.

(** Correctly rounded whenever [m] and [10^k] are below [2^53]: the
    quotient of two doubles is rounded once. *)
Definition dec (m : Z) (k : nat) : t := div (of_Z m) (of_Z (10 ^ Z.of_nat k)).

Definition is_nan (x : t) : bool :=
  match x with S754_nan => true | _ => false end.

Definition truthy (x : t) : bool :=
  match x with S754_zero _ | S754_nan => false | _ => true end.

(** Zero of either sign, or NaN. *)
Definition zn (x : t) : Prop :=
  match x with S754_zero _ | S754_nan => True | _ => False end.

(** [Math.min]: NaN when an argument is NaN, and -0 below +0. *)
Definition min (a b : t) : t :=
  if is_nan a || is_nan b then nan
  else if SFltb a b then a
  else if SFltb b a then b
  else match a with S754_zero true => a | _ => b end.

Definition max (a b : t) : t :=
  if is_nan a || is_nan b then nan
  else if SFltb a b then b
  else if SFltb b a then a
  else match a with S754_zero false => a | _ => b end.

(** [Math.hypot] of three arguments as V8 (Node, Chrome) computes it:
    infinity when an argument is infinite, else NaN when one is NaN, else
    0 when all are zero; otherwise the arguments are divided by the largest
    absolute value, their squares are added with Kahan's compensated
    summation, and the square root of the sum is multiplied by the largest
    absolute value. *)
Definition hypot3 (a b c : t) : t :=
  let vals := [a; b; c] in
  let oneArgIsNaN := existsb is_nan vals in
  let max :=
    fold_left (fun mx v => if is_nan v then mx
                           else if SFltb mx (SFabs v) then SFabs v else mx)
              vals zero in
  if SFeqb max (S754_infinity false) then S754_infinity false
  else if oneArgIsNaN then nan
  else if SFeqb max zero then zero
  else
    let '(sum, _) :=
      fold_left
        (fun (acc : t * t) v =>
           let '(sum, compensation) := acc in
           let n := div (SFabs v) max in
           let summand := sub (mul n n) compensation in
           let preliminary := add sum summand in
           (preliminary, sub (sub preliminary sum) summand))
        vals (zero, zero) in
    mul (sqrt sum) max.

(** [Math.fround]: the nearest binary32 number (ties to even, infinity
    beyond the binary32 range), as a double. *)
Definition fround (x : t) : t :=
  match x with
  | S754_finite s m e =>
      match binary_round 24 128 s m e with
      | S754_finite s' m' e' => binary_round prec emax s' m' e'
      | y => y
      end
  | _ => x
  end.

End F64.

#[export] Instance Binary64 : Number := {|
  num := F64.t;
  of_Z := F64.of_Z;
  dec := F64.dec;
  nadd := F64.add;
  nsub := F64.sub;
  nmul := F64.mul;
  ndiv := F64.div;
  nneg := SFopp;
  nsqrt := F64.sqrt;
  nltb := SFltb;
  nleb := SFleb;
  truthy := F64.truthy;
  nmin := F64.min;
  nmax := F64.max;
  nhypot := F64.hypot3;
  fround := F64.fround
|}.

(** *** Real numbers

    The square root of the sum of squares is what [Math.hypot] approximates;
    a real number is stored as it is. *)

#[export] Instance Exact : Number := {|
  num := R;
  of_Z := IZR;
  dec := fun m k => (IZR m / 10 ^ k)%R;
  nadd := Rplus;
  nsub := Rminus;
  nmul := Rmult;
  ndiv := Rdiv;
  nneg := Ropp;
  nsqrt := sqrt;
  nltb := fun a b => if Rlt_dec a b then true else false;
  nleb := fun a b => if Rle_dec a b then true else false;
  truthy := fun a => if Req_dec_T a 0%R then false else true;
  nmin := Rmin;
  nmax := Rmax;
  nhypot := fun x y z => sqrt (x * x + y * y + z * z)%R;
  fround := fun x => x
|}.

(** ** Vectors and matrices *)

Inductive Ix : Type := I0 | I1 | I2.

Definition indices : list Ix := [I0; I1; I2].

Section Linear.

Context {N : Number}.
Local Open Scope num_scope.

Definition Vec3 : Type := (num * num * num)%type.
Definition Mat3 : Type := (Vec3 * Vec3 * Vec3)%type.

Definition tri {A : Type} (p : A * A * A) (i : Ix) : A :=
  let '(a, b, c) := p in
  match i with I0 => a | I1 => b | I2 => c end.

Definition build {A : Type} (f : Ix -> A) : A * A * A := (f I0, f I1, f I2).

Definition at2 (M : Mat3) (i j : Ix) : num := tri (tri M i) j.

Definition vmap (f : num -> num) (v : Vec3) : Vec3 :=
  build (fun i => f (tri v i)).

Definition zero : num := of_Z 0.
Definition one : num := of_Z 1.

(** [multiplyMatrices]: [res[i][j]] starts at 0 and accumulates
    [A[i][k] * B[k][j]] for k = 0, 1, 2. *)
Definition multiplyMatrices (A B : Mat3) : Mat3 :=
  build (fun i => build (fun j =>
    fold_left (fun acc k => acc + at2 A i k * at2 B k j) indices zero)).

(** [transpose]: [A[0].map((_, c) => A.map(r => r[c]))]. *)
Definition transpose (A : Mat3) : Mat3 :=
  build (fun c => build (fun r => at2 A r c)).

Definition multiplyMatrixVec (M : Mat3) (v : Vec3) : Vec3 :=
  build (fun i =>
    at2 M i I0 * tri v I0 + at2 M i I1 * tri v I1 + at2 M i I2 * tri v I2).

Definition dot (a b : Vec3) : num :=
  tri a I0 * tri b I0 + tri a I1 * tri b I1 + tri a I2 * tri b I2.

(** [Math.hypot(...v)] on three components. *)
Definition hypot (v : Vec3) : num :=
  nhypot (tri v I0) (tri v I1) (tri v I2).

Definition det3 (R : Mat3) : num :=
  at2 R I0 I0 * (at2 R I1 I1 * at2 R I2 I2 - at2 R I1 I2 * at2 R I2 I1)
  - at2 R I0 I1 * (at2 R I1 I0 * at2 R I2 I2 - at2 R I1 I2 * at2 R I2 I0)
  + at2 R I0 I2 * (at2 R I1 I0 * at2 R I2 I1 - at2 R I1 I1 * at2 R I2 I0).

Definition identity : Mat3 :=
  ((one, zero, zero), (zero, one, zero), (zero, zero, one)).

Definition origin : Vec3 := (zero, zero, zero).

(** *** [centroid] *)
Definition centroid (points : list Vec3) : Vec3 :=
  let n := of_Z (Z.of_nat (length points)) in
  let sum := fold_left
    (fun s p => (tri s I0 + tri p I0, tri s I1 + tri p I1, tri s I2 + tri p I2))
    points origin in
  vmap (fun s => s / n) sum.

(** *** [eigenSymmetric] *)

(** The body of the inner loop: [v = A v], then [v] divided by its norm. *)
Definition powerStep (A : Mat3) (v : Vec3) : Vec3 :=
  let v' := multiplyMatrixVec A v in
  let norm := hypot v' in
  vmap (fun x => x / norm) v'.

Definition deflate (A : Mat3) (lam : num) (v : Vec3) : Mat3 :=
  build (fun i => build (fun j => at2 A i j - lam * tri v i * tri v j)).

(** One round of the [for (k ...)] loop: fifteen normalised products from
    the start vector, the Rayleigh quotient, and the deflated matrix. *)
Definition eigenRound (A : Mat3) (v0 : Vec3) : num * Vec3 * Mat3 :=
  let v := Nat.iter 15 (powerStep A) v0 in
  let Av := multiplyMatrixVec A v in
  let lam := dot v Av in
  (lam, v, deflate A lam v).

Definition draw3 (rnd : nat -> num) (k : nat) : Vec3 :=
  (rnd (3 * k)%nat, rnd (3 * k + 1)%nat, rnd (3 * k + 2)%nat).

(** Returns [(eigenvectors, eigenvalues)]; [rnd] supplies the nine calls
    of [Math.random] in order. *)
Definition eigenSymmetric (M : Mat3) (rnd : nat -> num) : Mat3 * Vec3 :=
  let '(l0, e0, A1) := eigenRound M (draw3 rnd 0) in
  let '(l1, e1, A2) := eigenRound A1 (draw3 rnd 1) in
  let '(l2, e2, _) := eigenRound A2 (draw3 rnd 2) in
  ((e0, e1, e2), (l0, l1, l2)).

(** *** [Array.prototype.sort] on [[0,1,2]]

    A stable insertion sort; the comparator result [v] orders [a] after
    [b] when [v > 0], and a NaN result counts as 0. *)
Fixpoint sortInsert (after : Ix -> Ix -> bool) (x : Ix) (l : list Ix)
  : list Ix :=
  match l with
  | [] => [x]
  | y :: r => if after y x then x :: y :: r else y :: sortInsert after x r
  end.

Definition sortBy (after : Ix -> Ix -> bool) (l : list Ix) : list Ix :=
  fold_left (fun acc x => sortInsert after x acc) l [].

(** *** [svd3x3] *)
Definition tiny : num := dec 1 12.

Definition orJS (a b : num) : num := if truthy a then a else b.

Definition sortOrder (Svals : Vec3) : Ix * Ix * Ix :=
  match sortBy (fun a b => zero <? (tri Svals b - tri Svals a)) indices with
  | [a; b; c] => (a, b, c)
  | _ => (I0, I1, I2)
  end.

Definition svd3x3 (M : Mat3) (rnd : nat -> num) : Mat3 * Vec3 * Mat3 :=
  let MtM := multiplyMatrices (transpose M) M in
  let '(V, Svals) := eigenSymmetric MtM rnd in
  let order := sortOrder Svals in
  let Sg : Vec3 := build (fun i => nsqrt (tri Svals (tri order i))) in
  let Vt : Mat3 := build (fun i => tri V (tri order i)) in
  let VinvS : Mat3 :=
    build (fun i => vmap (fun x => x / orJS (tri Sg i) tiny) (tri Vt i)) in
  let U := multiplyMatrices M (transpose VinvS) in
  (U, Sg, Vt).

(** *** [computeAlignment] *)
Record Transform : Type := mkTransform { rot : Mat3; trans : Vec3 }.

Definition vsub (p c : Vec3) : Vec3 :=
  (tri p I0 - tri c I0, tri p I1 - tri c I1, tri p I2 - tri c I2).

Definition covariance (A B : list Vec3) : Mat3 :=
  fold_left
    (fun H ab => build (fun r => build (fun c =>
       at2 H r c + tri (fst ab) r * tri (snd ab) c)))
    (combine A B) (origin, origin, origin).

Definition negateLast (Vt : Mat3) : Mat3 :=
  let '(r0, r1, r2) := Vt in (r0, r1, vmap (fun v => - v) r2).

Inductive Thrown : Type :=
| TypeError
| ErrorMsg (msg : string).

(** [B[i][c]] is read for every index of [pointsA]: a TypeError when
    [pointsB] is the shorter list. *)
Definition computeAlignment (pointsA pointsB : list Vec3) (rnd : nat -> num)
  : Thrown + Transform :=
  match pointsA with
  | [] => inr (mkTransform identity origin)
  | _ =>
    if Nat.ltb (length pointsB) (length pointsA) then inl TypeError else
    let cA := centroid pointsA in
    let cB := centroid pointsB in
    let A := map (fun p => vsub p cA) pointsA in
    let B := map (fun p => vsub p cB) pointsB in
    let H := covariance A B in
    let '(U, _, Vt) := svd3x3 H rnd in
    let R := multiplyMatrices Vt (transpose U) in
    let det := det3 R in
    let R' := if det <? zero
              then multiplyMatrices (negateLast Vt) (transpose U)
              else R in
    let RcA := multiplyMatrixVec R' cA in
    inr (mkTransform R' (vsub cB RcA))
  end.

End Linear.

(** ** Molecules and the correspondence resolver *)

(** [ELEMENTS] *)
Definition ELEMENTS : list string :=
  ["H"; "C"; "N"; "O"; "F"; "P"; "S"; "Cl"; "Br"; "I"; "Unknown"]%string.

(** An integer-valued JavaScript number as [parseInt] produces it:
    [None] is NaN. *)
Definition JsInt : Type := option Z.

Record Bond : Type := mkBond { from : JsInt; to : JsInt; type : JsInt }.

Section Molecules.

Context {N : Number}.
Local Open Scope num_scope.

(** The object [{ atoms, elementIndexes, bonds, atomMapping }];
    [atomMapping] is [null] for a molecule built without predecessor. *)
Record Molecule : Type := mkMolecule {
  atoms : list Vec3;
  elementIndexes : list nat;
  bonds : list Bond;
  atomMapping : option (list Z)
}.

(** [adj[v]] is defined when [v] is an integer index below [n]. *)
Definition validIndex (n : nat) (v : JsInt) : option nat :=
  match v with
  | Some z =>
      if ((0 <=? z)%Z && (z <? Z.of_nat n)%Z)%bool then Some (Z.to_nat z)
      else None
  | None => None
  end.

(** [Set.prototype.add]: insertion order, no duplicates. *)
Definition setAdd (x : nat) (s : list nat) : list nat :=
  if existsb (Nat.eqb x) s then s else s ++ [x].

Fixpoint update {A : Type} (l : list A) (i : nat) (f : A -> A) : list A :=
  match l, i with
  | [], _ => []
  | x :: r, O => f x :: r
  | x :: r, S i' => x :: update r i' f
  end.

(** [adjacency]: [adj[b.from].add(b.to); adj[b.to].add(b.from)] for
    every bond; indexing [adj] outside [0..n-1] gives [undefined], whose
    [.add] throws a TypeError. *)
Definition adjacencyStep (n : nat) (acc : Thrown + list (list nat)) (b : Bond)
  : Thrown + list (list nat) :=
  match acc with
  | inl e => inl e
  | inr adj =>
      match validIndex n (from b), validIndex n (to b) with
      | Some f, Some t => inr (update (update adj f (setAdd t)) t (setAdd f))
      | _, _ => inl TypeError
      end
  end.

Definition adjacency (bs : list Bond) (n : nat) : Thrown + list (list nat) :=
  fold_left (adjacencyStep n) bs (inr (repeat [] n)).

Definition sameTag (ea eb : list nat) (i j : nat) : bool :=
  match nth_error ea i, nth_error eb j with
  | Some a, Some b => Nat.eqb a b
  | None, None => true
  | _, _ => false
  end.

(** The body of [for (let nei of adjA[i])]: one more when [nei < i],
    [mapping[nei] !== -1] and [adjB[j].has(mapping[nei])]. *)
Definition scoreOf (adjAi : list nat) (i : nat) (mapping : list Z)
           (adjBj : list nat) : Z :=
  fold_left
    (fun score nei =>
       let m := nth nei mapping (-1)%Z in
       if ((nei <? i)%nat && negb (m =? -1)%Z
           && existsb (fun x => (Z.of_nat x =? m)%Z) adjBj)%bool
       then (score + 1)%Z else score)
    adjAi 0%Z.

(** The inner loop over [j], threading [(bestJ, bestScore)]. *)
Definition innerStep (ea eb : list nat) (adjAi : list nat)
           (adjB : list (list nat)) (i : nat) (mapping : list Z)
           (usedB : list bool) (best : Z * Z) (j : nat) : Z * Z :=
  if nth j usedB false then best
  else if negb (sameTag ea eb i j) then best
  else
    let score := scoreOf adjAi i mapping (nth j adjB []) in
    if (snd best <? score)%Z then (Z.of_nat j, score) else best.

(** The outer loop over [i], threading [(mapping, usedB)]. *)
Definition outerStep (ea eb : list nat) (adjA adjB : list (list nat))
           (nB : nat) (st : list Z * list bool) (i : nat)
  : list Z * list bool :=
  let '(mapping, usedB) := st in
  let best := fold_left
    (innerStep ea eb (nth i adjA []) adjB i mapping usedB)
    (seq 0 nB) ((-1)%Z, (-1)%Z) in
  let bestJ := fst best in
  if (bestJ =? -1)%Z then (mapping, usedB)
  else (update mapping i (fun _ => bestJ),
        update usedB (Z.to_nat bestJ) (fun _ => true)).

Definition mappingLoop (ea eb : list nat) (adjA adjB : list (list nat))
           (nA nB : nat) (upto : nat) : list Z * list bool :=
  fold_left (outerStep ea eb adjA adjB nB) (seq 0 upto)
            (repeat (-1)%Z nA, repeat false nB).

Definition computeAtomMapping (molA molB : Molecule) : Thrown + list Z :=
  let nA := length (atoms molA) in
  let nB := length (atoms molB) in
  match adjacency (bonds molA) nA with
  | inl e => inl e
  | inr adjA =>
      match adjacency (bonds molB) nB with
      | inl e => inl e
      | inr adjB =>
          inr (fst (mappingLoop (elementIndexes molA) (elementIndexes molB)
                                adjA adjB nA nB nA))
      end
  end.

End Molecules.

(** ** The alignment step and the normaliser of [getMoleculePoints] *)

Section Pipeline.

Context {N : Number}.
Local Open Scope num_scope.

(** [atomMapping.map((j, i) => j !== -1 ? [atoms[i], previousMol.atoms[j]]
    : null).filter(Boolean)].  Entries of a mapping are -1 or indices of
    the previous molecule (lemma [mappingLoop_range]), so the defaults of
    [nth] are never read. *)
Definition matchedPairs (ats prevAtoms : list Vec3) (mapping : list Z)
  : list (Vec3 * Vec3) :=
  flat_map
    (fun ij : nat * Z =>
       let '(i, j) := ij in
       if (j =? -1)%Z then []
       else [(nth i ats origin, nth (Z.to_nat j) prevAtoms origin)])
    (combine (seq 0 (length mapping)) mapping).

Definition applyTransform (T : Transform) (a : Vec3) : Vec3 :=
  let rotated := multiplyMatrixVec (rot T) a in
  (tri rotated I0 + tri (trans T) I0,
   tri rotated I1 + tri (trans T) I1,
   tri rotated I2 + tri (trans T) I2).

(** [if (pairs.length >= 3) { ... }] *)
Definition alignStep (ats : list Vec3) (pairs : list (Vec3 * Vec3))
           (rnd : nat -> num) : Thrown + list Vec3 :=
  if (3 <=? length pairs)%nat then
    match computeAlignment (map fst pairs) (map snd pairs) rnd with
    | inl e => inl e
    | inr T => inr (map (applyTransform T) ats)
    end
  else inr ats.

(** [Math.min(...xs)] and [Math.max(...xs)] for a spread of at least one
    argument. *)
Definition spreadMin (x : num) (xs : list num) : num := fold_left nmin xs x.
Definition spreadMax (x : num) (xs : list num) : num := fold_left nmax xs x.

Definition boxMin (a : Vec3) (rest : list Vec3) : Vec3 :=
  build (fun k => spreadMin (tri a k) (map (fun p => tri p k) rest)).
Definition boxMax (a : Vec3) (rest : list Vec3) : Vec3 :=
  build (fun k => spreadMax (tri a k) (map (fun p => tri p k) rest)).

Definition boxCenter (mn mx : Vec3) : Vec3 :=
  build (fun k => (tri mn k + tri mx k) / of_Z 2).
Definition boxSize (mn mx : Vec3) : Vec3 :=
  build (fun k => tri mx k - tri mn k).

(** [Math.max(size[0], size[1], size[2])] *)
Definition maxDimOf (size : Vec3) : num :=
  spreadMax (tri size I0) [tri size I1; tri size I2].

(** [maxDim > 1.0 ? 1.0 / maxDim : 1.0] *)
Definition scaleOf (maxDim : num) : num :=
  if one <? maxDim then one / maxDim else one.

(** The block "Normalize and center".  On an empty array the final
    [atoms.map] returns the empty array whatever the bounds are. *)
Definition normalize (ats : list Vec3) : list Vec3 :=
  match ats with
  | [] => []
  | a :: rest =>
      let mn := boxMin a rest in
      let mx := boxMax a rest in
      let center := boxCenter mn mx in
      let scale := scaleOf (maxDimOf (boxSize mn mx)) in
      map (fun p => build (fun k => (tri p k - tri center k) * scale)) ats
  end.

(** ** The ease function of [animate] *)
Definition ease (progress : num) : num :=
  if progress <? dec 5 1
  then of_Z 2 * progress * progress
  else - one + (of_Z 4 - of_Z 2 * progress) * progress.

(** [progress = Math.min(progress + 0.02, 1)] *)
Definition advance (progress : num) : num := nmin (progress + dec 2 2) one.

(** three.js [Vector3.lerpVectors(v1, v2, alpha)] and [Vector3.lerp]:
    [v1 + (v2 - v1) * alpha] on each component. *)
Definition lerpVectors (v1 v2 : Vec3) (alpha : num) : Vec3 :=
  build (fun k => tri v1 k + (tri v2 k - tri v1 k) * alpha).

(** three.js [MathUtils.lerp(x, y, t)]: [(1 - t) * x + t * y]. *)
Definition lerp (x y t : num) : num := (one - t) * x + t * y.

End Pipeline.

(** ** The structure parser and [getMoleculePoints] *)

(** Strings are sequences of bytes; the white space of [trim], [/\s+/],
    [parseInt] and [parseFloat] is taken to be the ASCII white space. *)
Module Text.

Definition isSpace (c : ascii) : bool :=
  let n := nat_of_ascii c in
  ((9 <=? n) && (n <=? 13) || (n =? 32))%nat%bool.

Definition isDigit (c : ascii) : bool :=
  let n := nat_of_ascii c in ((48 <=? n) && (n <=? 57))%nat%bool.

Definition digit (c : ascii) : Z := Z.of_nat (nat_of_ascii c - 48).

Fixpoint trimStart (s : string) : string :=
  match s with
  | String c r => if isSpace c then trimStart r else s
  | EmptyString => EmptyString
  end.

Fixpoint rev_string (s acc : string) : string :=
  match s with
  | String c r => rev_string r (String c acc)
  | EmptyString => acc
  end.

Definition trimEnd (s : string) : string :=
  rev_string (trimStart (rev_string s EmptyString)) EmptyString.

Definition trim (s : string) : string := trimEnd (trimStart s).

(** [s.split(sep)] for a one-character separator: always at least one
    piece. *)
Fixpoint splitOn (sep : ascii) (s : string) (cur : string) : list string :=
  match s with
  | EmptyString => [rev_string cur EmptyString]
  | String c r =>
      if Ascii.eqb c sep then rev_string cur EmptyString :: splitOn sep r EmptyString
      else splitOn sep r (String c cur)
  end.

Definition lines (s : string) : list string :=
  splitOn (ascii_of_nat 10) s EmptyString.

(** [s.split(/\s+/)]: the pieces between maximal runs of white space. *)
Fixpoint splitWs (s : string) (cur : string) (inRun : bool) : list string :=
  match s with
  | EmptyString => [rev_string cur EmptyString]
  | String c r =>
      if isSpace c then
        if inRun then splitWs r cur true
        else rev_string cur EmptyString :: splitWs r EmptyString true
      else splitWs r (String c cur) false
  end.

Definition words (s : string) : list string := splitWs s EmptyString false.

(** [s.substr(start, len)] *)
Definition substr (s : string) (start len : nat) : string :=
  substring start len s.

(** The longest prefix of decimal digits, as [(value, count, rest)]. *)
Fixpoint digitsPrefix (s : string) (acc : Z) (n : nat) : Z * nat * string :=
  match s with
  | String c r =>
      if isDigit c then digitsPrefix r (10 * acc + digit c)%Z (S n)
      else (acc, n, s)
  | EmptyString => (acc, n, s)
  end.

(** The optional sign: [true] for a minus. *)
Definition signPrefix (s : string) : bool * string :=
  match s with
  | String "-"%char r => (true, r)
  | String "+"%char r => (false, r)
  | _ => (false, s)
  end.

(** [parseInt(s, 10)]; [parseInt(undefined, 10)] is NaN as well. *)
Definition parseInt (s : string) : JsInt :=
  let '(neg, r) := signPrefix (trimStart s) in
  let '(v, n, _) := digitsPrefix r 0%Z 0 in
  match n with
  | O => None
  | _ => Some (if neg then (- v)%Z else v)
  end.

Definition parseIntOpt (s : option string) : JsInt :=
  match s with Some s => parseInt s | None => None end.

Definition startsWith (p s : string) : bool :=
  String.eqb (substring 0 (String.length p) s) p.

(** The exponent part [e], [e+] or [e-] followed by digits, when there is
    one. *)
Definition exponentPrefix (s : string) : Z :=
  match s with
  | String c r =>
      if (Ascii.eqb c "e" || Ascii.eqb c "E")%bool then
        let '(neg, r') := signPrefix r in
        let '(v, n, _) := digitsPrefix r' 0%Z 0 in
        match n with O => 0%Z | _ => if neg then (- v)%Z else v end
      else 0%Z
  | EmptyString => 0%Z
  end.

(** The double nearest to [m * 10^e] for [m >= 0], rounded once: for
    [e >= 0] the integer [m * 10^e] is rounded, for [e < 0] the quotient of
    the two integers [m] and [10^-e]. *)
Definition decimalToDouble (m e : Z) : F64.t :=
  if (0 <=? e)%Z then F64.of_Z (m * 10 ^ e)
  else
    match m with
    | Zpos p =>
        SFdiv F64.prec F64.emax (S754_finite false p 0)
              (S754_finite false (Z.to_pos (10 ^ (- e))) 0)
    | _ => F64.zero
    end.

(** [parseFloat(s)]: leading white space, a sign, then [Infinity] or the
    longest decimal literal; NaN when there is none. *)
Definition parseFloat (s : string) : F64.t :=
  let '(neg, r) := signPrefix (trimStart s) in
  let signed (x : F64.t) := if neg then SFopp x else x in
  if startsWith "Infinity" r then signed (S754_infinity false)
  else
    let '(ip, ni, r1) := digitsPrefix r 0%Z 0 in
    let '(m, nf, r2) :=
      match r1 with
      | String "."%char r' => digitsPrefix r' ip 0
      | _ => (ip, O, r1)
      end in
    match (ni + nf)%nat with
    | O => S754_nan
    | _ => signed (decimalToDouble m (exponentPrefix r2 - Z.of_nat nf))
    end.

(** [arr.slice(start, end)] with both arguments given: NaN counts as 0, a
    negative argument counts from the end. *)
Definition relIndex (len : nat) (v : JsInt) : nat :=
  match v with
  | None => O
  | Some z =>
      if (z <? 0)%Z then Z.to_nat (Z.max (Z.of_nat len + z) 0)
      else Nat.min (Z.to_nat z) len
  end.

Definition slice {A : Type} (l : list A) (start stop : JsInt) : list A :=
  let k := relIndex (length l) start in
  let final := relIndex (length l) stop in
  firstn (final - k) (skipn k l).

Definition addInt (a b : JsInt) : JsInt :=
  match a, b with Some x, Some y => Some (x + y)%Z | _, _ => None end.

(** [arr.indexOf(x)]: -1 when absent. *)
Fixpoint indexOf (x : string) (l : list string) (i : nat) : option nat :=
  match l with
  | [] => None
  | y :: r => if String.eqb y x then Some i else indexOf x r (S i)
  end.

End Text.

Module Parser.

Import Text.

#[local] Existing Instance Binary64.

Record AtomRaw : Type := mkAtomRaw {
  element : string; ax : F64.t; ay : F64.t; az : F64.t
}.

Definition atomOfLine (line : string) : AtomRaw :=
  {| element := trim (substr line 31 3);
     ax := parseFloat (substr line 0 10);
     ay := parseFloat (substr line 10 10);
     az := parseFloat (substr line 20 10) |}.

Definition coordsOk (a : AtomRaw) : bool :=
  (negb (F64.is_nan (ax a)) && negb (F64.is_nan (ay a))
   && negb (F64.is_nan (az a)))%bool.

Definition bondOfLine (line : string) : Bond :=
  {| from := addInt (parseInt (substr line 0 3)) (Some (-1)%Z);
     to := addInt (parseInt (substr line 3 3)) (Some (-1)%Z);
     type := parseInt (substr line 6 3) |}.

(** [ELEMENTS.indexOf(e) >= 0 ? ELEMENTS.indexOf(e) : ELEMENTS.length - 1] *)
Definition elementIndex (e : string) : nat :=
  match indexOf e ELEMENTS 0 with
  | Some i => i
  | None => length ELEMENTS - 1
  end.

Record Parsed : Type := mkParsed {
  pAtoms : list (@Vec3 Binary64);
  pElementIndexes : list nat;
  pBonds : list Bond
}.

(** From [const lines = sdf.split('\n')] to [const elementIndexes]. *)
Definition parseSdf (sdf : string) : Thrown + Parsed :=
  let ls := lines sdf in
  if (length ls <? 4)%nat then inl (ErrorMsg "SDF too short") else
  let countLine := words (trim (nth 3 ls EmptyString)) in
  let atomCount := parseIntOpt (nth_error countLine 0) in
  let bondCount := parseIntOpt (nth_error countLine 1) in
  let atomLines := slice ls (Some 4%Z) (addInt (Some 4%Z) atomCount) in
  let bondLines := slice ls (addInt (Some 4%Z) atomCount)
                            (addInt (addInt (Some 4%Z) atomCount) bondCount) in
  let atomsRaw := filter coordsOk (map atomOfLine atomLines) in
  match atomsRaw with
  | [] => inl (ErrorMsg "Parsed zero atoms")
  | _ =>
      inr {| pAtoms := map (fun a => (ax a, ay a, az a)) atomsRaw;
             pElementIndexes := map (fun a => elementIndex (element a)) atomsRaw;
             pBonds := map bondOfLine bondLines |}
  end.

(** The data source: [Compound.fromName] and [fetch], which reject
    ([inl]) or deliver the text of the record. *)
Definition Source : Type := string -> Thrown + string.

(** [getMoleculePoints(name, 0.45, previousMol)]; [rnd] holds the draws
    of [Math.random] made during this call. *)
Definition getMoleculePoints (source : Source) (rnd : nat -> F64.t)
           (name : string) (previousMol : option (@Molecule Binary64))
  : Thrown + @Molecule Binary64 :=
  match source name with
  | inl e => inl e
  | inr sdf =>
    match parseSdf sdf with
    | inl e => inl e
    | inr p =>
      let finish (ats : list Vec3) (mapping : option (list Z)) :=
        mkMolecule (normalize ats) (pElementIndexes p) (pBonds p) mapping in
      match previousMol with
      | None => inr (finish (pAtoms p) None)
      | Some prev =>
        match computeAtomMapping
                (mkMolecule (pAtoms p) (pElementIndexes p) (pBonds p) None)
                prev with
        | inl e => inl e
        | inr mapping =>
          match alignStep (pAtoms p)
                  (matchedPairs (pAtoms p) (atoms prev) mapping) rnd with
          | inl e => inl e
          | inr ats => inr (finish ats (Some mapping))
          end
        end
      end
    end
  end.

(** ** [loadMoleculesOnce] *)

(** The [for (const name of compoundsToLoad)] loop: [k] counts the
    elements built so far, [rnd k] are the draws of the k-th call.  A
    rejection of [getMoleculePoints] leaves the loop; what was pushed
    stays in [POSITION_SETS]. *)
Fixpoint loadLoop (source : Source) (rnd : nat -> nat -> F64.t)
         (names : list string) (k : nat) (prev : option Molecule)
         (sets : list Molecule) : list Molecule * option Thrown :=
  match names with
  | [] => (sets, None)
  | name :: rest =>
      match getMoleculePoints source (rnd k) name prev with
      | inl e => (sets, Some e)
      | inr mol => loadLoop source rnd rest (S k) (Some mol) (sets ++ [mol])
      end
  end.

(** Returns the new [POSITION_SETS] and the rejection, if any. *)
Definition loadMoleculesOnce (source : Source) (rnd : nat -> nat -> F64.t)
           (POSITION_SETS : list Molecule) (compoundsToLoad : list string)
  : list Molecule * option Thrown :=
  match POSITION_SETS with
  | _ :: _ => (POSITION_SETS, None)
  | [] => loadLoop source rnd compoundsToLoad 0 None []
  end.

End Parser.

(** ** The sprite viewer ([MolecularViewer.jsx]) *)

Module SpriteViewer.
Section Controller.

Context {N : Number}.
Local Open Scope num_scope.

(** A sprite with its [userData]. *)
Record Sprite : Type := mkSprite {
  position : Vec3;
  opacity : num;
  start : Vec3;
  target : Vec3;
  fadeStart : num;
  fadeEnd : num
}.

(** A bond line with its [userData] and the two points of its geometry. *)
Record BondLine : Type := mkBondLine {
  startStart : Vec3;
  startEnd : Vec3;
  targetStart : Vec3;
  targetEnd : Vec3;
  geometry : Vec3 * Vec3
}.

(** The module-level variables the two functions read and write. *)
Record Viewer : Type := mkViewer {
  sharedSprites : list Sprite;
  sharedBondLines : list BondLine;
  POSITION_SETS : list Molecule;
  progress : num;
  animating : bool
}.

(** [atoms[v]] spread into [Vector3.set]: a TypeError when [atoms[v]] is
    [undefined]. *)
Definition atomAt (ats : list Vec3) (v : Z) : option Vec3 :=
  if (v <? 0)%Z then None else nth_error ats (Z.to_nat v).

(** The callback of [sharedSprites.forEach] for sprite [i]: the sprite
    after the call and the exception that ended it, if any. *)
Definition retarget (mol : Molecule) (i : nat) (s : Sprite)
  : Sprite * option Thrown :=
  let s1 := mkSprite (position s) (opacity s) (position s) (target s)
                     (opacity s) (fadeEnd s) in
  let n := Z.of_nat (length (atoms mol)) in
  let viaMapping :=
    match atomMapping mol with
    | Some m =>
        match nth_error m i with
        | Some v => if (negb (v =? -1) && (v <? n))%Z%bool then Some v else None
        | None => None
        end
    | None => None
    end in
  match viaMapping with
  | Some v =>
      match atomAt (atoms mol) v with
      | Some p => (mkSprite (position s1) (opacity s1) (start s1) p
                            (fadeStart s1) one, None)
      | None => (s1, Some TypeError)
      end
  | None =>
      match nth_error (atoms mol) i with
      | Some p => (mkSprite (position s1) (opacity s1) (start s1) p
                            (fadeStart s1) one, None)
      | None => (mkSprite (position s1) (opacity s1) (start s1)
                          (position s1) (fadeStart s1) zero, None)
      end
  end.

(** [forEach] with a callback that may throw: the elements visited up to
    the exception keep what the callback did to them. *)
Fixpoint forEachFrom {A : Type} (f : nat -> A -> A * option Thrown) (i : nat)
         (l : list A) : list A * option Thrown :=
  match l with
  | [] => ([], None)
  | x :: r =>
      match f i x with
      | (y, Some e) => (y :: r, Some e)
      | (y, None) => let '(r', e) := forEachFrom f (S i) r in (y :: r', e)
      end
  end.

Definition below (v : JsInt) (n : nat) : bool :=
  match v with Some z => (z <? Z.of_nat n)%Z | None => false end.

Definition endpoint (ats : list Vec3) (v : JsInt) : option Vec3 :=
  match v with Some z => atomAt ats z | None => None end.

(** The callback of [sharedBondLines.forEach] for line [i]. *)
Definition retargetLine (mol : Molecule) (i : nat) (l : BondLine)
  : BondLine * option Thrown :=
  match nth_error (bonds mol) i with
  | None => (l, None)
  | Some b =>
      if (below (from b) (length (atoms mol))
          && below (to b) (length (atoms mol)))%bool then
        match endpoint (atoms mol) (from b) with
        | None => (l, Some TypeError)
        | Some p =>
            let l1 := mkBondLine (startStart l) (startEnd l) p (targetEnd l)
                                 (geometry l) in
            match endpoint (atoms mol) (to b) with
            | None => (l1, Some TypeError)
            | Some q =>
                (mkBondLine (startStart l1) (startEnd l1) (targetStart l1) q
                            (geometry l1), None)
            end
        end
      else (l, None)
  end.

(** [transition(idx)]: the state after the call and the exception that
    ended it, if any. *)
Definition transition (idx : nat) (st : Viewer) : Viewer * option Thrown :=
  match nth_error (POSITION_SETS st) idx with
  | None => (st, Some TypeError)
  | Some mol =>
      match forEachFrom (retarget mol) 0 (sharedSprites st) with
      | (sprites, Some e) =>
          (mkViewer sprites (sharedBondLines st) (POSITION_SETS st)
                    (progress st) (animating st), Some e)
      | (sprites, None) =>
          match forEachFrom (retargetLine mol) 0 (sharedBondLines st) with
          | (ls, Some e) =>
              (mkViewer sprites ls (POSITION_SETS st)
                        (progress st) (animating st), Some e)
          | (ls, None) =>
              (mkViewer sprites ls (POSITION_SETS st) zero true, None)
          end
      end
  end.

(** The animation part of [animate], one frame. *)
Definition animate (st : Viewer) : Viewer :=
  if animating st then
    let p := advance (progress st) in
    let t := ease p in
    mkViewer
      (map (fun s =>
              mkSprite (lerpVectors (start s) (target s) t)
                       (lerp (fadeStart s) (fadeEnd s) t)
                       (start s) (target s) (fadeStart s) (fadeEnd s))
           (sharedSprites st))
      (map (fun l =>
              mkBondLine (startStart l) (startEnd l) (targetStart l)
                (targetEnd l)
                (lerpVectors (startStart l) (targetStart l) t,
                 lerpVectors (startEnd l) (targetEnd l) t))
           (sharedBondLines st))
      (POSITION_SETS st) p
      (if one <=? p then false else animating st)
  else st.

(** *** The one-time set-up of [init] *)

Definition maxPoints : nat := 150.

(** The sprites: one per index below [maxPoints], at [first.atoms[i]] or
    at [[0, 0, 0]] when the first molecule has no such atom, with opacity
    0 and [userData = { start: pos, target: pos, fadeStart: 0, fadeEnd: 1 }].
    (Texture and scale are the renderer's.) *)
Definition initSprites (first : Molecule) : list Sprite :=
  map (fun i =>
         let pos := match nth_error (atoms first) i with
                    | Some p => p
                    | None => origin
                    end in
         mkSprite pos zero pos pos zero one)
      (seq 0 maxPoints).

(** [v >= n] for a bond end: false for NaN. *)
Definition atLeast (v : JsInt) (n : nat) : bool :=
  match v with Some z => (Z.of_nat n <=? z)%Z | None => false end.

(** The callback of [first.bonds.forEach]: a bond with an end at or beyond
    the atom count is passed over; otherwise both ends are spread into a
    [Vector3], a TypeError when [first.atoms[...]] is [undefined]. *)
Definition initBondLine (first : Molecule) (b : Bond)
  : option BondLine * option Thrown :=
  if (atLeast (from b) (length (atoms first))
      || atLeast (to b) (length (atoms first)))%bool then (None, None)
  else
    match endpoint (atoms first) (from b), endpoint (atoms first) (to b) with
    | Some p, Some q => (Some (mkBondLine p q p q (p, q)), None)
    | _, _ => (None, Some TypeError)
    end.

Fixpoint initBondLines (first : Molecule) (bs : list Bond)
  : list BondLine * option Thrown :=
  match bs with
  | [] => ([], None)
  | b :: rest =>
      match initBondLine first b with
      | (_, Some e) => ([], Some e)
      | (made, None) =>
          let '(ls, e) := initBondLines first rest in
          (match made with Some l => l :: ls | None => ls end, e)
      end
  end.

(** Step 2 of [init], run once: [first = POSITION_SETS[0]], the sprites,
    the bond lines.  [progress] and [animating] have their initial values
    0 and [false]. *)
Definition setup (sets : list Molecule) : Viewer * option Thrown :=
  match nth_error sets 0 with
  | None => (mkViewer [] [] sets zero false, Some TypeError)
  | Some first =>
      let '(ls, e) := initBondLines first (bonds first) in
      (mkViewer (initSprites first) ls sets zero false, e)
  end.

(** [init] after the molecules are loaded: the set-up, the first call of
    [animate], then step 5, [transition(0)].  (Steps 3 and 4 touch the
    page and the renderer only.) *)
Definition init (sets : list Molecule) : Viewer * option Thrown :=
  match setup sets with
  | (st, Some e) => (st, Some e)
  | (st, None) => transition 0 (animate st)
  end.

End Controller.
End SpriteViewer.

(** ** The instanced-mesh viewer *)

Module MeshViewer.
Section Controller.

Context {N : Number}.
Local Open Scope num_scope.

Definition maxPoints : nat := 150.
Definition maxBonds : nat := 500.

(** What the three objects [sharedAtomMeshes], [atomStart] and
    [atomTarget] hold under one key [el] (they receive their keys
    together, when the meshes are created).  [capacity] is the number of
    instances the mesh was created for,
    [new THREE.InstancedMesh(sphereGeo, material, atomCount)]: its
    [instanceMatrix] is a [Float32Array] of [16 * capacity] elements, and
    [instancePosition] holds elements 12 to 14 of every slot below
    [capacity].  [count] is [mesh.count], which the code sets freely.
    [atomStart] and [atomTarget] are the sparse arrays, [None] for
    [undefined]. *)
Record Slots : Type := mkSlots {
  el : string;
  capacity : nat;
  count : nat;
  instancePosition : nat -> Vec3;
  atomStart : nat -> option Vec3;
  atomTarget : nat -> option Vec3
}.

Record Viewer : Type := mkViewer {
  sharedAtomMeshes : list Slots;
  POSITION_SETS : list Molecule;
  currentSet : nat;
  progress : num;
  animating : bool
}.

Definition setAt {A : Type} (f : nat -> A) (i : nat) (x : A) : nat -> A :=
  fun k => if (k =? i)%nat then x else f k.

(** [mesh.setMatrixAt(i, dummy.matrix)] with [dummy.position] at [pos]:
    the elements of the typed array take the numbers in single precision,
    and an assignment beyond the end of a typed array is lost. *)
Definition setMatrixAt (m : Slots) (i : nat) (pos : Vec3) : nat -> Vec3 :=
  if (i <? capacity m)%nat
  then setAt (instancePosition m) i (vmap fround pos)
  else instancePosition m.

(** [mesh.getMatrixAt(i, mat); mat.decompose(pos, ...); pos.clone()]:
    beyond the end of the typed array the elements read are [undefined],
    and [clone] passes them to the constructor of [Vector3], whose
    parameters default to 0. *)
Definition getPosition (m : Slots) (i : nat) : Vec3 :=
  if (i <? capacity m)%nat then instancePosition m i else origin.

(** "Save current positions": [atomStart[el][i] = pos.clone()] for
    [i < mesh.count]. *)
Definition saveStarts (m : Slots) : Slots :=
  fold_left
    (fun m i => mkSlots (el m) (capacity m) (count m) (instancePosition m)
                        (setAt (atomStart m) i (Some (getPosition m i)))
                        (atomTarget m))
    (seq 0 (count m)) m.

(** [(atomMapping && atomMapping[i] !== -1) ? atomMapping[i] : i]; [None]
    is [undefined]. *)
Definition mappedIndex (mol : Molecule) (i : nat) : option Z :=
  match atomMapping mol with
  | Some am =>
      match nth_error am i with
      | Some v => if (v =? -1)%Z then Some (Z.of_nat i) else Some v
      | None => None
      end
  | None => Some (Z.of_nat i)
  end.

(** [mapped < atoms.length && elementIndexes[mapped] === elIdx], giving
    the atom to show when it holds. *)
Definition shownAtom (mol : Molecule) (elIdx : option nat) (i : nat)
  : option Vec3 :=
  match mappedIndex mol i with
  | Some v =>
      if ((0 <=? v) && (v <? Z.of_nat (length (atoms mol))))%Z%bool then
        match nth_error (elementIndexes mol) (Z.to_nat v), elIdx with
        | Some e, Some e' =>
            if (e =? e')%nat then nth_error (atoms mol) (Z.to_nat v) else None
        | _, _ => None
        end
      else None
  | None => None
  end.

(** "Set target atoms" for one mesh: the loop over [i < maxPoints]
    threads the mesh and [instanceId]. *)
Definition setTargets (mol : Molecule) (m : Slots) : Slots :=
  let elIdx := Text.indexOf (el m) ELEMENTS 0 in
  let '(m', instanceId) :=
    fold_left
      (fun (acc : Slots * nat) i =>
         let '(m, instanceId) := acc in
         match shownAtom mol elIdx i with
         | Some pos =>
             (mkSlots (el m) (capacity m) (count m)
                      (setMatrixAt m instanceId pos)
                      (atomStart m)
                      (setAt (atomTarget m) instanceId (Some pos)),
              S instanceId)
         | None => acc
         end)
      (seq 0 maxPoints) (m, O) in
  mkSlots (el m') (capacity m') instanceId (instancePosition m')
          (atomStart m') (atomTarget m').

Definition definedAt (ats : list Vec3) (v : JsInt) : bool :=
  match v with
  | Some z => if (z <? 0)%Z then false
              else match nth_error ats (Z.to_nat z) with
                   | Some _ => true | None => false end
  | None => false
  end.

(** The bond loop of [transition] spreads [atoms[b.from]] and
    [atoms[b.to]] for the first [maxBonds] bonds: a TypeError when one is
    [undefined].  The cylinder transforms it writes are the renderer's. *)
Definition bondsDrawable (mol : Molecule) : bool :=
  forallb (fun b => definedAt (atoms mol) (from b)
                    && definedAt (atoms mol) (to b))%bool
          (firstn maxBonds (bonds mol)).

Definition transition (idx : nat) (st : Viewer) : Viewer * option Thrown :=
  match nth_error (POSITION_SETS st) idx with
  | None => (st, Some TypeError)
  | Some mol =>
      let meshes :=
        map (setTargets mol) (map saveStarts (sharedAtomMeshes st)) in
      if bondsDrawable mol then
        (mkViewer meshes (POSITION_SETS st) idx zero true, None)
      else
        (mkViewer meshes (POSITION_SETS st) (currentSet st) (progress st)
                  (animating st), Some TypeError)
  end.

(** The vector of slot [i] in a frame: [start.lerp(target, t)] with
    [start = atomStart[el][i] || new THREE.Vector3()] and
    [target = atomTarget[el][i] || start]. *)
Definition framePosition (t : num) (m : Slots) (i : nat) : Vec3 :=
  let start := match atomStart m i with Some s => s | None => origin end in
  let target := match atomTarget m i with Some g => g | None => start end in
  lerpVectors start target t.

(** "ATOMS - INTERPOLATE" for one mesh: [start.lerp(target, t)] changes
    the vector stored in [atomStart[el][i]] when there is one, and
    [setMatrixAt] copies it to the instance buffer. *)
Definition interpolate (t : num) (m : Slots) : Slots :=
  fold_left
    (fun m i =>
       let pos := framePosition t m i in
       mkSlots (el m) (capacity m) (count m) (setMatrixAt m i pos)
               (match atomStart m i with
                | Some _ => setAt (atomStart m) i (Some pos)
                | None => atomStart m
                end)
               (atomTarget m))
    (seq 0 (count m)) m.

(** The bond loop of [animate] spreads the end points of
    [prev.bonds[i] || { from: 0, to: 0 }] and of the same for [curr]. *)
Definition bondOr0 (bs : list Bond) (i : nat) : Bond :=
  match nth_error bs i with
  | Some b => b
  | None => mkBond (Some 0%Z) (Some 0%Z) None
  end.

Definition framesDrawable (prev curr : Molecule) : bool :=
  forallb
    (fun i =>
       let b1 := bondOr0 (bonds prev) i in
       let b2 := bondOr0 (bonds curr) i in
       definedAt (atoms prev) (from b1) && definedAt (atoms prev) (to b1)
       && definedAt (atoms curr) (from b2) && definedAt (atoms curr) (to b2))%bool
    (seq 0 (Nat.max (length (bonds prev)) (length (bonds curr)))).

(** The animation part of [animate], one frame. *)
Definition animate (st : Viewer) : Viewer * option Thrown :=
  if animating st then
    let p := advance (progress st) in
    let t := ease p in
    let meshes := map (interpolate t) (sharedAtomMeshes st) in
    let n := length (POSITION_SETS st) in
    let thrown := mkViewer meshes (POSITION_SETS st) (currentSet st) p
                           (animating st) in
    match n with
    | O => (thrown, Some TypeError)
    | _ =>
      match nth_error (POSITION_SETS st) ((currentSet st + n - 1) mod n),
            nth_error (POSITION_SETS st) (currentSet st) with
      | Some prev, Some curr =>
          if framesDrawable prev curr then
            (mkViewer meshes (POSITION_SETS st) (currentSet st) p
                      (if one <=? p then false else animating st), None)
          else (thrown, Some TypeError)
      | _, _ => (thrown, Some TypeError)
      end
    end
  else (st, None).

End Controller.
End MeshViewer.

(** * Specification vocabulary *)

Section ResolverSpec.

Context {N : Number}.

(** An undirected bond between atoms [a] and [b]. *)
Definition bonded (bs : list Bond) (a b : nat) : bool :=
  existsb
    (fun bd =>
       match from bd, to bd with
       | Some f, Some t =>
           ((f =? Z.of_nat a) && (t =? Z.of_nat b)
            || (f =? Z.of_nat b) && (t =? Z.of_nat a))%Z%bool
       | _, _ => false
       end)
    bs.

(** The data-model invariant on bonds: both end points are indices of
    atoms. *)
Definition validBonds (mol : Molecule) : Prop :=
  Forall (fun b => validIndex (length (atoms mol)) (from b) <> None
                   /\ validIndex (length (atoms mol)) (to b) <> None)
         (bonds mol).

(** [j] was given to an atom of A with an index below [i]. *)
Definition taken (mapping : list Z) (i j : nat) : Prop :=
  exists k, (k < i)%nat /\ nth k mapping (-1)%Z = Z.of_nat j.

(** The candidates of atom [i]: the B atoms not yet used that carry the
    element tag of [i]. *)
Definition candidate (molA molB : Molecule) (mapping : list Z) (i j : nat)
  : Prop :=
  (j < length (atoms molB))%nat
  /\ ~ taken mapping i j
  /\ nth_error (elementIndexes molA) i = nth_error (elementIndexes molB) j.

(** The score of candidate [j]: how many neighbours of [i] with a lower
    index are mapped to a B atom that is a neighbour of [j]. *)
Definition agreement (molA molB : Molecule) (mapping : list Z) (i j : nat)
  : nat :=
  length
    (filter
       (fun nei =>
          let m := nth nei mapping (-1)%Z in
          (bonded (bonds molA) i nei && negb (m =? -1)%Z
           && bonded (bonds molB) j (Z.to_nat m))%bool)
       (seq 0 i)).

(** The greedy rule for atom [i], read on the finished map: the entry is
    decided by the entries below [i] alone. *)
Definition greedyChoice (molA molB : Molecule) (mapping : list Z) (i : nat)
  : Prop :=
  (nth i mapping (-1)%Z = (-1)%Z <->
     forall j, ~ candidate molA molB mapping i j)
  /\ (forall j, nth i mapping (-1)%Z = Z.of_nat j ->
        candidate molA molB mapping i j
        /\ forall j', candidate molA molB mapping i j' ->
             (agreement molA molB mapping i j'
                <= agreement molA molB mapping i j)%nat
             /\ (agreement molA molB mapping i j'
                   = agreement molA molB mapping i j -> (j <= j')%nat)).

(** Defined entries are pairwise different. *)
Definition injectiveOnDefined (mapping : list Z) : Prop :=
  forall i k, (i < length mapping)%nat -> (k < length mapping)%nat ->
    i <> k ->
    nth i mapping (-1)%Z <> (-1)%Z -> nth k mapping (-1)%Z <> (-1)%Z ->
    nth i mapping (-1)%Z <> nth k mapping (-1)%Z.

(** A bond whose end points are two different atoms of the molecule. *)
Definition properBond (n : nat) (b : Bond) : Prop :=
  exists f t, validIndex n (from b) = Some f
              /\ validIndex n (to b) = Some t /\ f <> t.

(** *** Invariants of the two loops of [computeAtomMapping] *)

(** The two [continue] tests of the inner loop. *)
Definition innerCand (ea eb : list nat) (i : nat) (usedB : list bool) (j : nat)
  : bool :=
  (negb (nth j usedB false) && sameTag ea eb i j)%bool.

(** The test in the body of [for (let nei of adjA[i])]. *)
Definition scoreTest (i : nat) (mapping : list Z) (adjBj : list nat) (nei : nat)
  : bool :=
  let m := nth nei mapping (-1)%Z in
  ((nei <? i)%nat && negb (m =? -1)%Z
   && existsb (fun x => (Z.of_nat x =? m)%Z) adjBj)%bool.

(** [(bestJ, bestScore)] after the inner loop has gone through the B atoms
    below [m]. *)
Definition bestUpTo (cand : nat -> bool) (score : nat -> Z) (m : nat)
           (best : Z * Z) : Prop :=
  (best = ((-1)%Z, (-1)%Z) /\ forall j, (j < m)%nat -> cand j = false)
  \/ (exists j0, (j0 < m)%nat /\ cand j0 = true
                 /\ best = (Z.of_nat j0, score j0)
                 /\ forall j, (j < m)%nat -> cand j = true ->
                      (score j <= score j0)%Z
                      /\ (score j = score j0 -> (j0 <= j)%nat)).

(** [(mapping, usedB)] when the outer loop has gone through the A atoms
    below [k]. *)
Definition loopInv (nA nB k : nat) (st : list Z * list bool) : Prop :=
  length (fst st) = nA /\ length (snd st) = nB
  /\ (forall i, (k <= i)%nat -> nth i (fst st) (-1)%Z = (-1)%Z)
  /\ (forall i, (-1 <= nth i (fst st) (-1) < Z.of_nat nB)%Z)
  /\ (forall j, (j < nB)%nat ->
        (nth j (snd st) false = true
         <-> exists i, (i < k)%nat /\ nth i (fst st) (-1)%Z = Z.of_nat j))
  /\ (forall i i', (i < k)%nat -> (i' < k)%nat -> i <> i' ->
        nth i (fst st) (-1)%Z <> (-1)%Z ->
        nth i (fst st) (-1)%Z <> nth i' (fst st) (-1)%Z).

End ResolverSpec.

Section AlignmentSpec.

Context {N : Number}.
Local Open Scope num_scope.

(** "Approximately +1": within the tolerance 0.001 of the end-to-end
    scenario. *)
Definition nearOne (d : num) : bool :=
  ((one - dec 1 3 <=? d) && (d <=? one + dec 1 3))%bool.

Definition cross (u v : Vec3) : Vec3 :=
  (tri u I1 * tri v I2 - tri u I2 * tri v I1,
   tri u I2 * tri v I0 - tri u I0 * tri v I2,
   tri u I0 * tri v I1 - tri u I1 * tri v I0).

(** Three of the points span a triangle: the cross product of two edge
    vectors has a non-zero component. *)
Definition nonCollinear (pts : list Vec3) : Prop :=
  exists p q r k, In p pts /\ In q pts /\ In r pts
                  /\ truthy (tri (cross (vsub q p) (vsub r p)) k) = true.

(** Moving a point by [d]. *)
Definition vadd (p d : Vec3) : Vec3 :=
  (tri p I0 + tri d I0, tri p I1 + tri d I1, tri p I2 + tri d I2).

(** The fifteen norms by which one round of [eigenSymmetric] divides. *)
Definition roundNorms (A : Mat3) (v0 : Vec3) : list num :=
  map (fun i => hypot (multiplyMatrixVec A (Nat.iter i (powerStep A) v0)))
      (seq 0 15).

(** A call of [computeAlignment] in which the power iteration never
    divides by a norm that is zero (or NaN): the division that makes
    JavaScript compute NaN, and on which real arithmetic with its total
    division says nothing about the code. *)
Definition alignmentDefined (pointsA pointsB : list Vec3) (rnd : nat -> num)
  : Prop :=
  let H := covariance (map (fun p => vsub p (centroid pointsA)) pointsA)
                      (map (fun p => vsub p (centroid pointsB)) pointsB) in
  let M := multiplyMatrices (transpose H) H in
  let A1 := snd (eigenRound M (draw3 rnd 0)) in
  let A2 := snd (eigenRound A1 (draw3 rnd 1)) in
  Forall (fun x => truthy x = true)
         (roundNorms M (draw3 rnd 0) ++ roundNorms A1 (draw3 rnd 1)
          ++ roundNorms A2 (draw3 rnd 2)).

(** The progress value after [n] frames of a transition. *)
Definition progressAfter (n : nat) : num := Nat.iter n advance zero.

End AlignmentSpec.

Section ControllerSpec.

Context {N : Number}.

(** A target molecule the two [transition] functions can go through without
    a TypeError: the entries of its map are -1 or not negative, and its
    bonds join atoms it has. *)
Definition drawable (mol : Molecule) : Prop :=
  (forall m, atomMapping mol = Some m -> Forall (fun v => (-1 <= v)%Z) m)
  /\ validBonds mol.

(** What the browser does to the sprite viewer once [init] has run: a
    frame of [animate], or the cycle timer calling [transition].  A call
    that throws leaves what it had written. *)
Inductive Event : Type :=
| Frame
| Cycle (idx : nat).

Definition spriteStep (st : SpriteViewer.Viewer) (ev : Event)
  : SpriteViewer.Viewer :=
  match ev with
  | Frame => SpriteViewer.animate st
  | Cycle idx => fst (SpriteViewer.transition idx st)
  end.

Definition spriteRun (evs : list Event) (st : SpriteViewer.Viewer)
  : SpriteViewer.Viewer :=
  fold_left spriteStep evs st.

(** The two points a bond line starts its interpolation from. *)
Definition lineStarts (l : SpriteViewer.BondLine) : Vec3 * Vec3 :=
  (SpriteViewer.startStart l, SpriteViewer.startEnd l).

End ControllerSpec.

Section NormalizerSpec.

Context {N : Number}.
Local Open Scope num_scope.

(** [lo] is the least value that coordinate [k] takes over the atoms: an
    atom has it and no atom is below it.  [hi] is the greatest likewise.
    Together they are the extent of the axis-aligned bounding box along
    [k]. *)
Definition isLeast (k : Ix) (ats : list Vec3) (lo : num) : Prop :=
  (exists p, In p ats /\ tri p k = lo)
  /\ forall p, In p ats -> (lo <=? tri p k) = true.

Definition isGreatest (k : Ix) (ats : list Vec3) (hi : num) : Prop :=
  (exists p, In p ats /\ tri p k = hi)
  /\ forall p, In p ats -> (tri p k <=? hi) = true.

End NormalizerSpec.

(** The entry [prev] of the loader: the last molecule pushed, if any. *)
Definition lastPushed (sets : list (@Molecule Binary64))
  : option (@Molecule Binary64) :=
  last (map Some sets) None.

(** * Example inputs *)

Module Examples.

Import Text Parser.
#[local] Existing Instance Binary64.

Definition pt (a b c : Z) : @Vec3 Binary64 :=
  (F64.of_Z a, F64.of_Z b, F64.of_Z c).

Definition nanV : @Vec3 Binary64 := (F64.nan, F64.nan, F64.nan).
Definition nanM : @Mat3 Binary64 := (nanV, nanV, nanV).

(** A vector or matrix whose entries are zeros or NaN. *)
Definition znV (v : @Vec3 Binary64) : Prop :=
  F64.zn (tri v I0) /\ F64.zn (tri v I1) /\ F64.zn (tri v I2).
Definition znM (M : @Mat3 Binary64) : Prop :=
  znV (tri M I0) /\ znV (tri M I1) /\ znV (tri M I2).

(** Draws of [Math.random]: 0.03, 0.10, 0.17, ... *)
Definition draws : nat -> F64.t :=
  fun k => F64.dec (Z.of_nat (3 + 7 * k)) 2.

(** Three matched pairs whose points coincide on each side. *)
Definition coincidentA : list (@Vec3 Binary64) := [pt 1 2 3; pt 1 2 3; pt 1 2 3].
Definition coincidentB : list (@Vec3 Binary64) := [pt 4 5 6; pt 4 5 6; pt 4 5 6].

(** The triangle of the end-to-end scenario, and the same turned by a
    quarter about the z axis and moved by (5, 5, 0). *)
Definition triangleA : list (@Vec3 Binary64) := [pt 0 0 0; pt 1 0 0; pt 0 1 0].
Definition triangleB : list (@Vec3 Binary64) := [pt 5 5 0; pt 5 6 0; pt 4 5 0].

(** Four points that are not in one plane, and their mirror image in the
    plane z = 0. *)
Definition tetrahedron : list (@Vec3 Binary64) :=
  [pt 0 0 0; pt 1 0 0; pt 0 2 0; pt 0 0 3].
Definition tetrahedronMirrored : list (@Vec3 Binary64) :=
  [pt 0 0 0; pt 1 0 0; pt 0 2 0; pt 0 0 (-3)].

(** A molecule on the triangle: three carbon atoms, bonds 0-1 and 1-2. *)
Definition triangleMol (ats : list (@Vec3 Binary64)) : @Molecule Binary64 :=
  mkMolecule ats [1; 1; 1]%nat
             [mkBond (Some 0%Z) (Some 1%Z) (Some 1%Z);
              mkBond (Some 1%Z) (Some 2%Z) (Some 1%Z)]
             None.

Definition joinLines (ls : list string) : string :=
  fold_right (fun l acc => (l ++ String (ascii_of_nat 10) acc)%string)
             EmptyString ls.

(** A record of three atoms and two bonds. *)
Definition sdfThreeAtoms : string :=
  joinLines
    ["2244"; "  -OEChem-"; "";
     "  3  2  0     0  0  0  0  0  0999 V2000";
     "    1.2333    0.5540    0.7792 O   0  0  0  0  0  0  0  0  0  0  0  0";
     "   -0.6952   -2.7148   -0.7502 C   0  0  0  0  0  0  0  0  0  0  0  0";
     "    0.7958   -2.1843    0.8685 Cl  0  0  0  0  0  0  0  0  0  0  0  0";
     "  1  2  1  0  0  0  0";
     "  2  3  2  0  0  0  0";
     "M  END"]%string.

(** A record that declares no atom. *)
Definition sdfNoAtoms : string :=
  joinLines
    ["0"; "  -OEChem-"; "";
     "  0  0  0     0  0  0  0  0  0999 V2000";
     "M  END"]%string.

(** A record of two atoms whose bond lines name atom 1 twice and an atom
    5 that does not exist. *)
Definition sdfOddBonds : string :=
  joinLines
    ["1"; "  -OEChem-"; "";
     "  2  2  0     0  0  0  0  0  0999 V2000";
     "    0.0000    0.0000    0.0000 C   0  0  0  0  0  0  0  0  0  0  0  0";
     "    1.0000    0.0000    0.0000 O   0  0  0  0  0  0  0  0  0  0  0  0";
     "  1  1  1  0  0  0  0";
     "  1  5  1  0  0  0  0";
     "M  END"]%string.

(** A data source that knows three compounds. *)
Definition library : Source :=
  fun name =>
    if String.eqb name "water" then inr sdfThreeAtoms
    else if String.eqb name "void" then inr sdfNoAtoms
    else if String.eqb name "odd" then inr sdfOddBonds
    else inl (ErrorMsg "not found").

Definition noDraws : nat -> nat -> F64.t := fun _ _ => F64.dec 5 1.

(** A sprite viewer two fifths into a transition of one sprite from the
    origin towards (1, 0, 0). *)
Definition spriteInFlight : @SpriteViewer.Viewer Binary64 :=
  SpriteViewer.mkViewer
    [SpriteViewer.mkSprite (pt 0 0 0) (F64.of_Z 1) (pt 0 0 0) (pt 1 0 0)
                           (F64.of_Z 1) (F64.of_Z 1)]
    []
    [triangleMol triangleA; triangleMol triangleB]
    (F64.dec 4 1) true.

(** A mesh viewer in the same situation, with one carbon mesh created
    for one instance and one slot in use. *)
Definition meshInFlight : @MeshViewer.Viewer Binary64 :=
  MeshViewer.mkViewer
    [MeshViewer.mkSlots "C" 1 1 (fun _ => pt 0 0 0)
                        (fun i => if (i =? 0)%nat then Some (pt 0 0 0) else None)
                        (fun i => if (i =? 0)%nat then Some (pt 1 0 0) else None)]
    [triangleMol triangleA; triangleMol triangleB]
    0 (F64.dec 4 1) true.

(** The two triangles and the molecule on them in real arithmetic. *)
Definition triangleAR : list (@Vec3 Exact) :=
  [(0, 0, 0); (1, 0, 0); (0, 1, 0)]%R.
Definition triangleBR : list (@Vec3 Exact) :=
  [(5, 5, 0); (5, 6, 0); (4, 5, 0)]%R.

Definition triangleMolR (ats : list (@Vec3 Exact)) : @Molecule Exact :=
  mkMolecule ats [1; 1; 1]%nat
             [mkBond (Some 0%Z) (Some 1%Z) (Some 1%Z);
              mkBond (Some 1%Z) (Some 2%Z) (Some 1%Z)]
             None.

(** Six points on the three axes, at distances 1, 2 and 3 from the
    origin, and draws of [Math.random] that start the three rounds of the
    power iteration on the three axes. *)
Definition octahedron : list (@Vec3 Exact) :=
  [(1, 0, 0); (-1, 0, 0); (0, 2, 0); (0, -2, 0); (0, 0, 3); (0, 0, -3)]%R.

Definition axisDraws : nat -> R :=
  fun k => match k with
           | 0%nat | 4%nat | 8%nat => (1 / 2)%R
           | _ => 0%R
           end.

(** A sprite viewer at the start of a transition from the first triangle
    to the second, with one sprite and one bond line. *)
Definition spriteAtStart : @SpriteViewer.Viewer Exact :=
  @SpriteViewer.mkViewer Exact
    [@SpriteViewer.mkSprite Exact (0, 0, 0)%R 1%R (0, 0, 0)%R (5, 5, 0)%R 1%R 1%R]
    [@SpriteViewer.mkBondLine Exact (0, 0, 0)%R (1, 0, 0)%R (5, 5, 0)%R
                              (5, 6, 0)%R ((0, 0, 0)%R, (1, 0, 0)%R)]
    [triangleMolR triangleAR; triangleMolR triangleBR]
    0%R true.

(** A mesh viewer in the same situation: one carbon mesh created for two
    instances, with the three slots of the second triangle in use. *)
Definition meshAtStart : @MeshViewer.Viewer Exact :=
  @MeshViewer.mkViewer Exact
    [@MeshViewer.mkSlots Exact "C" 2 3
       (fun i => nth i triangleAR (0, 0, 0)%R)
       (fun i => nth_error triangleAR i)
       (fun i => nth_error triangleBR i)]
    [triangleMolR triangleAR; triangleMolR triangleBR]
    1 0%R true.

End Examples.

(** * Properties of the arithmetic *)

Module F64Facts.

Import F64.

Lemma mul_nan_l x : mul nan x = nan.
Proof. reflexivity. Qed.

Lemma mul_nan_r x : mul x nan = nan.
Proof. destruct x; reflexivity. Qed.

Lemma add_nan_l x : add nan x = nan.
Proof. reflexivity. Qed.

Lemma add_nan_r x : add x nan = nan.
Proof. destruct x; reflexivity. Qed.

Lemma sub_nan_l x : sub nan x = nan.
Proof. reflexivity. Qed.

Lemma sub_nan_r x : sub x nan = nan.
Proof. destruct x; reflexivity. Qed.

Lemma div_nan_l x : div nan x = nan.
Proof. reflexivity. Qed.

Lemma div_nan_r x : div x nan = nan.
Proof. destruct x; reflexivity. Qed.

Lemma zn_mul_l x y : zn x -> zn (mul x y).
Proof. destruct x as [s| | |]; simpl; try tauto; intros _; destruct y; exact I. Qed.

Lemma zn_mul x y : zn x -> zn y -> zn (mul x y).
Proof. intros Hx _. now apply zn_mul_l. Qed.

Lemma zn_add x y : zn x -> zn y -> zn (add x y).
Proof.
  destruct x as [s| | |]; simpl; try tauto; intros _;
    destruct y as [s'| | |]; simpl; try tauto; intros _.
  destruct s, s'; exact I.
Qed.

Lemma zn_sqrt x : zn x -> zn (sqrt x).
Proof. destruct x; simpl; tauto. Qed.

Lemma zn_div x y : zn x -> zn y -> div x y = nan.
Proof.
  destruct x as [s| | |]; simpl; try tauto; intros _;
    destruct y as [s'| | |]; simpl; try tauto; intros _; reflexivity.
Qed.

(** [Math.hypot] of zeros is zero, and NaN when an argument is NaN and the
    others are zeros or NaN. *)
Lemma zn_hypot3 x y z : zn x -> zn y -> zn z -> zn (hypot3 x y z).
Proof.
  destruct x as [s| | |]; simpl; try tauto; intros _;
    destruct y as [s'| | |]; simpl; try tauto; intros _;
    destruct z as [s''| | |]; simpl; try tauto; intros _; exact I.
Qed.

End F64Facts.

(** * The alignment engine in double precision *)

Module AlignmentF64.

Import F64 F64Facts Examples.
#[local] Existing Instance Binary64.

Ltac f64 :=
  unfold vmap, build, at2, tri in *;
  cbn [nadd nsub nmul ndiv nneg nsqrt nhypot nltb nleb num Binary64 fst snd]
    in *.

Lemma znV_mulvec (A : Mat3) (v : Vec3) : znM A -> znV (multiplyMatrixVec A v).
Proof.
  destruct A as [[[[a b] c] [[d e] f]] [[g h] i]], v as [[x y] z].
  intros [[Ha [Hb Hc]] [[Hd [He Hf]] [Hg [Hh Hi]]]].
  unfold multiplyMatrixVec, znV; f64.
  repeat split; repeat apply zn_add; now apply zn_mul_l.
Qed.

Lemma normalise_zn (v : Vec3) :
  znV v -> vmap (fun x => ndiv x (hypot v)) v = nanV.
Proof.
  destruct v as [[x y] z]. intros [Hx [Hy Hz]].
  unfold hypot, vmap, nanV; f64.
  assert (Hn : zn (hypot3 x y z)) by now apply zn_hypot3.
  now rewrite !zn_div.
Qed.

Lemma powerStep_zn (A : Mat3) (v : Vec3) : znM A -> powerStep A v = nanV.
Proof.
  intros HA. unfold powerStep. apply normalise_zn. now apply znV_mulvec.
Qed.

Lemma iter_powerStep_zn (A : Mat3) (v : Vec3) (n : nat) :
  znM A -> Nat.iter (S n) (powerStep A) v = nanV.
Proof. intros HA. simpl. now apply powerStep_zn. Qed.

Lemma mulvec_nanV (A : Mat3) : multiplyMatrixVec A nanV = nanV.
Proof.
  destruct A as [[[[a b] c] [[d e] f]] [[g h] i]].
  unfold multiplyMatrixVec, nanV; f64.
  now rewrite !mul_nan_r.
Qed.

Lemma deflate_nan (A : Mat3) : deflate A nan nanV = nanM.
Proof.
  destruct A as [[[[a b] c] [[d e] f]] [[g h] i]].
  unfold deflate, nanM, nanV; f64.
  now rewrite !sub_nan_r.
Qed.

Lemma znM_nanM : znM nanM.
Proof. repeat split. Qed.

(** A round of the eigen-solver on a matrix of zeros: the first product
    is the zero vector, its norm is zero, and 0/0 is NaN from then on. *)
Lemma eigenRound_zn (A : Mat3) (v : Vec3) :
  znM A -> eigenRound A v = (nan, nanV, nanM).
Proof.
  intros HA. unfold eigenRound.
  rewrite (iter_powerStep_zn v 14 HA), mulvec_nanV, deflate_nan.
  reflexivity.
Qed.

Lemma eigenSymmetric_zn (A : Mat3) (rnd : nat -> num) :
  znM A -> eigenSymmetric A rnd = ((nanV, nanV, nanV), nanV).
Proof.
  intros HA. unfold eigenSymmetric.
  rewrite (eigenRound_zn _ HA).
  rewrite !(eigenRound_zn _ znM_nanM). reflexivity.
Qed.

Lemma znM_multiply (A B : Mat3) : znM A -> znM (multiplyMatrices A B).
Proof.
  destruct A as [[[[a b] c] [[d e] f]] [[g h] i]].
  intros [[Ha [Hb Hc]] [[Hd [He Hf]] [Hg [Hh Hi]]]].
  unfold multiplyMatrices, indices, znM, znV; f64.
  repeat split; cbn [fold_left]; repeat apply zn_add;
    try (now apply zn_mul_l); exact I.
Qed.

Lemma znM_transpose (A : Mat3) : znM A -> znM (transpose A).
Proof.
  destruct A as [[[[a b] c] [[d e] f]] [[g h] i]].
  intros [[Ha [Hb Hc]] [[Hd [He Hf]] [Hg [Hh Hi]]]].
  unfold transpose, znM, znV; f64. tauto.
Qed.

Lemma multiply_nanM_r (A : Mat3) : multiplyMatrices A nanM = nanM.
Proof.
  destruct A as [[[[a b] c] [[d e] f]] [[g h] i]].
  unfold multiplyMatrices, indices, nanM, nanV; f64. cbn [fold_left].
  now rewrite !mul_nan_r, !add_nan_r.
Qed.

Lemma svd3x3_zn (M : Mat3) (rnd : nat -> num) :
  znM M -> svd3x3 M rnd = (nanM, nanV, nanM).
Proof.
  intros HM. unfold svd3x3.
  rewrite eigenSymmetric_zn
    by (apply znM_multiply, znM_transpose, HM).
  change (sortOrder nanV) with (I0, I1, I2).
  change (transpose _) with (transpose nanM).
  change (transpose nanM) with nanM.
  now rewrite multiply_nanM_r.
Qed.

Lemma vsub_nanV (c : Vec3) : vsub c nanV = nanV.
Proof.
  destruct c as [[x y] z]. unfold vsub, nanV; f64.
  now rewrite !sub_nan_r.
Qed.

(** Whenever the cross-covariance has only zero (or NaN) entries, the
    transform returned is NaN throughout, whatever [Math.random] drew. *)
Lemma computeAlignment_zn (pointsA pointsB : list Vec3) (rnd : nat -> num) :
  pointsA <> [] ->
  (length pointsA <= length pointsB)%nat ->
  znM (covariance (map (fun p => vsub p (centroid pointsA)) pointsA)
                  (map (fun p => vsub p (centroid pointsB)) pointsB)) ->
  computeAlignment pointsA pointsB rnd = inr (mkTransform nanM nanV).
Proof.
  intros Hne Hlen HH. unfold computeAlignment.
  destruct pointsA as [|p pointsA]; [congruence|].
  destruct (Nat.ltb_spec (length pointsB) (length (p :: pointsA))); [lia|].
  rewrite (svd3x3_zn rnd HH).
  change (multiplyMatrices nanM (transpose nanM)) with nanM.
  change (det3 nanM <? zero)%num with false. cbn iota.
  change (multiplyMatrixVec nanM ?c) with nanV.
  now rewrite vsub_nanV.
Qed.

(** C10.  There is an input of three matched pairs (each side three
    coincident points) for which: every centred point is the zero
    vector; the cross-covariance H is the zero matrix; the first product of
    the power iteration is the zero vector and its norm is zero (shown on
    the draws 0.03, 0.10, 0.17; for any start vector whatever, they are
    zero or NaN) and the quotient is NaN; and [computeAlignment] returns,
    with no exception and whatever is drawn, a transform whose rotation and
    translation entries are all NaN, not the identity. *)
Theorem C10_coincident_pairs_yield_nan_rotation :
  exists pointsA pointsB : list Vec3,
    (3 <= length pointsA)%nat
    /\ length pointsB = length pointsA
    /\ map (fun p => vsub p (centroid pointsA)) pointsA
        = repeat origin (length pointsA)
    /\ map (fun p => vsub p (centroid pointsB)) pointsB
        = repeat origin (length pointsB)
    /\ (let H := covariance
                   (map (fun p => vsub p (centroid pointsA)) pointsA)
                   (map (fun p => vsub p (centroid pointsB)) pointsB) in
        H = (origin, origin, origin)
        /\ multiplyMatrixVec (multiplyMatrices (transpose H) H)
                             (draw3 draws 0) = origin
        /\ hypot (multiplyMatrixVec (multiplyMatrices (transpose H) H)
                                    (draw3 draws 0)) = zero
        /\ forall v : Vec3,
             znV (multiplyMatrixVec (multiplyMatrices (transpose H) H) v)
             /\ zn (hypot
                      (multiplyMatrixVec (multiplyMatrices (transpose H) H) v))
             /\ powerStep (multiplyMatrices (transpose H) H) v = nanV)
    /\ forall rnd : nat -> num,
         computeAlignment pointsA pointsB rnd = inr (mkTransform nanM nanV)
         /\ mkTransform nanM nanV <> mkTransform identity origin.
Proof.
  exists coincidentA, coincidentB.
  assert (HH : covariance
                 (map (fun p => vsub p (centroid coincidentA)) coincidentA)
                 (map (fun p => vsub p (centroid coincidentB)) coincidentB)
               = (origin, origin, origin)) by reflexivity.
  assert (Hz : znM (origin, origin, origin)) by (repeat split).
  assert (Hm : znM (multiplyMatrices (transpose (origin, origin, origin))
                                     (origin, origin, origin)))
    by apply znM_multiply, znM_transpose, Hz.
  split; [simpl; lia|].
  split; [reflexivity|].
  split; [reflexivity|].
  split; [reflexivity|].
  split.
  - cbv zeta. rewrite HH. split; [reflexivity|].
    split; [reflexivity|]. split; [reflexivity|].
    intros v. split; [now apply znV_mulvec|]. split.
    + assert (Hv := znV_mulvec v Hm).
      destruct (multiplyMatrixVec _ v) as [[x y] z].
      destruct Hv as [Hx [Hy Hz']]. unfold hypot; f64.
      now apply zn_hypot3.
    + now apply powerStep_zn.
  - intros rnd. split; [|discriminate].
    apply computeAlignment_zn; [discriminate | simpl; lia | now rewrite HH].
Qed.

(** Counterexample to C1 as stated: with a single matched pair
    [computeAlignment] does not return the identity transform. *)
Lemma C1_counterexample_single_pair :
  ~ (forall (pointsA pointsB : list Vec3) (rnd : nat -> num),
       (length pointsA < 3)%nat -> length pointsB = length pointsA ->
       computeAlignment pointsA pointsB rnd
       = inr (mkTransform identity origin)).
Proof.
  intros H.
  assert (E : computeAlignment [pt 1 2 3] [pt 4 5 6] draws
              = inr (mkTransform nanM nanV)) by reflexivity.
  specialize (H [pt 1 2 3] [pt 4 5 6] draws (le_S _ _ (le_n 2)) eq_refl).
  rewrite E in H. discriminate H.
Qed.

(** On the triangle of the end-to-end scenario (all points in the plane
    z = 0) the matrix returned has a zero third column and determinant
    0. *)
Lemma triangle_alignment_det :
  exists T, computeAlignment triangleA triangleB draws = inr T
            /\ det3 (rot T) = S754_zero false
            /\ nearOne (det3 (rot T)) = false.
Proof.
  destruct (computeAlignment triangleA triangleB draws) as [e|T] eqn:E;
    [now apply (f_equal (fun x => match x with inl _ => true | inr _ => false end)) in E|].
  exists T. split; [reflexivity|].
  assert (HT : inr T = computeAlignment triangleA triangleB draws)
    by (now rewrite E).
  assert (Hd : det3 (rot T) = S754_zero false).
  { change (match inr T : Thrown + Transform with
            | inr T' => det3 (rot T') | inl _ => nan end = S754_zero false).
    rewrite HT. reflexivity. }
  split; [exact Hd|]. now rewrite Hd.
Qed.

(** C5.  The code on the three matched pairs of the end-to-end scenario,
    which are not collinear on either side: [computeAlignment] returns, and
    the matrix it returns has determinant 0, which is not within 0.001 of
    +1. *)
Theorem C5_planar_triangle_alignment :
  length triangleA = 3%nat /\ length triangleB = 3%nat
  /\ nonCollinear triangleA /\ nonCollinear triangleB
  /\ exists T, computeAlignment triangleA triangleB draws = inr T
               /\ det3 (rot T) = S754_zero false
               /\ nearOne (det3 (rot T)) = false.
Proof.
  split; [reflexivity|]. split; [reflexivity|]. split; [|split].
  - exists (pt 0 0 0), (pt 1 0 0), (pt 0 1 0), I2.
    repeat split; simpl; auto.
  - exists (pt 5 5 0), (pt 5 6 0), (pt 4 5 0), I2.
    repeat split; simpl; auto.
  - exact triangle_alignment_det.
Qed.

(** The reflection step at work: for four points that are not in one
    plane and their mirror image, the candidate [Vt * U^T] has a negative
    determinant, the matrix returned is recomputed from [Vt] with its last
    row negated and the same [U], and its determinant is within 0.001 of
    +1. *)
Lemma reflection_branch_on_mirror_image :
  let H := covariance
             (map (fun p => vsub p (centroid tetrahedron)) tetrahedron)
             (map (fun p => vsub p (centroid tetrahedronMirrored))
                  tetrahedronMirrored) in
  let U := fst (fst (svd3x3 H draws)) in
  let Vt := snd (svd3x3 H draws) in
  exists T,
    computeAlignment tetrahedron tetrahedronMirrored draws = inr T
    /\ nltb (det3 (multiplyMatrices Vt (transpose U))) zero = true
    /\ rot T = multiplyMatrices (negateLast Vt) (transpose U)
    /\ nearOne (det3 (rot T)) = true.
Proof.
  intros H U Vt.
  destruct (computeAlignment tetrahedron tetrahedronMirrored draws)
    as [e|T] eqn:E;
    [now apply (f_equal (fun x => match x with inl _ => true | inr _ => false end)) in E|].
  exists T. split; [reflexivity|].
  assert (HT : inr T = computeAlignment tetrahedron tetrahedronMirrored draws)
    by (now rewrite E).
  split; [vm_compute; reflexivity|]. split.
  - change (match inr T : Thrown + Transform with
            | inr T' => rot T' | inl _ => nanM end
            = multiplyMatrices (negateLast Vt) (transpose U)).
    rewrite HT. reflexivity.
  - change (match inr T : Thrown + Transform with
            | inr T' => nearOne (det3 (rot T')) | inl _ => false end = true).
    rewrite HT. reflexivity.
Qed.

End AlignmentF64.

(** * The alignment step *)

Section AlignStepFacts.

Context {N : Number}.

(** C1, amended.  With fewer than three matched pairs the alignment step
    of [getMoleculePoints] does not call [computeAlignment] and leaves
    every atom where it is, which is what the identity transform does;
    [computeAlignment] itself returns exactly the identity transform for
    the empty list of pairs. *)
Theorem C1_fewer_than_three_pairs_leave_atoms
        (ats : list Vec3) (pairs : list (Vec3 * Vec3)) (pointsB : list Vec3)
        (rnd : nat -> num) :
  (length pairs < 3)%nat ->
  alignStep ats pairs rnd = inr ats
  /\ computeAlignment [] pointsB rnd = inr (mkTransform identity origin).
Proof.
  intros Hlen. split; [|reflexivity].
  unfold alignStep.
  destruct (Nat.leb_spec 3 (length pairs)); [lia | reflexivity].
Qed.

End AlignStepFacts.

Lemma C1_fewer_than_three_pairs_leave_atoms_witness :
  (length [(Examples.pt 1 2 3, Examples.pt 4 5 6)] < 3)%nat
  /\ alignStep Examples.triangleA [(Examples.pt 1 2 3, Examples.pt 4 5 6)]
               Examples.draws = inr Examples.triangleA.
Proof.
  split; [simpl; lia|].
  apply (@C1_fewer_than_three_pairs_leave_atoms Binary64 Examples.triangleA
           [(Examples.pt 1 2 3, Examples.pt 4 5 6)] [] Examples.draws).
  simpl; lia.
Defined.

(** * The alignment engine in exact arithmetic *)

Module AlignmentExact.

#[local] Existing Instance Exact.
Local Open Scope R_scope.

Ltac exact_arith :=
  unfold vmap, build, at2, tri, zero, one in *;
  cbn [nadd nsub nmul ndiv nneg nsqrt nltb nleb nmin nmax of_Z truthy
       num Exact fst snd fold_left indices] in *.

(** Negating the last row of [Vt] negates the determinant of [Vt * U^T]. *)
Lemma det3_negateLast (Vt U : Mat3) :
  det3 (multiplyMatrices (negateLast Vt) (transpose U))
  = - det3 (multiplyMatrices Vt (transpose U)).
Proof.
  destruct Vt as [[[[a b] c] [[d e] f]] [[g h] i]].
  destruct U as [[[[a' b'] c'] [[d' e'] f']] [[g' h'] i']].
  unfold det3, multiplyMatrices, transpose, negateLast; exact_arith.
  ring.
Qed.

Lemma nltb_true (a b : R) : nltb a b = true <-> a < b.
Proof.
  cbn [nltb Exact]. destruct (Rlt_dec a b); split; intros; try lra; easy.
Qed.

Lemma nltb_false (a b : R) : nltb a b = false <-> ~ a < b.
Proof.
  cbn [nltb Exact]. destruct (Rlt_dec a b); split; intros; try lra; easy.
Qed.

(** The order computed by the sort lists 0, 1, 2 once each, by descending
    eigenvalue. *)
Lemma sortOrder_descending (Svals : Vec3) :
  let order := sortOrder Svals in
  (forall i : Ix, exists k : Ix, tri order k = i)
  /\ tri Svals (tri order I2) <= tri Svals (tri order I1)
  /\ tri Svals (tri order I1) <= tri Svals (tri order I0).
Proof.
  destruct Svals as [[x y] z].
  unfold sortOrder, sortBy, indices. cbn [fold_left sortInsert].
  exact_arith.
  destruct (Rlt_dec 0 (y - x)); cbn [sortInsert];
    destruct (Rlt_dec 0 (z - y)); cbn [sortInsert];
    destruct (Rlt_dec 0 (z - x)); cbn [sortInsert];
    (split;
     [ intros [| |]; solve [now exists I0 | now exists I1 | now exists I2]
     | cbn; lra ]).
Qed.

(** *** Matched points of equal height

    When the points of the first list all have z = 0 the centred points
    have too, the cross-covariance has a zero third row, [U] inherits it,
    and the matrix returned has a zero third column. *)

Lemma sum_planar (pts : list Vec3) (acc : Vec3) :
  Forall (fun p => tri p I2 = 0) pts -> tri acc I2 = 0 ->
  tri (fold_left
         (fun s p => (nadd (tri s I0) (tri p I0), nadd (tri s I1) (tri p I1),
                      nadd (tri s I2) (tri p I2))) pts acc) I2 = 0.
Proof.
  intros H. revert acc. induction H as [|p pts Hp _ IH]; intros acc Hacc;
    [exact Hacc|].
  cbn [fold_left]. apply IH.
  change (nadd (tri acc I2) (tri p I2) = 0). rewrite Hp, Hacc.
  cbn [nadd Exact]. change (@num Exact) with R. ring.
Qed.

Lemma centroid_planar (pts : list Vec3) :
  Forall (fun p => tri p I2 = 0) pts -> tri (centroid pts) I2 = 0.
Proof.
  intros H. unfold centroid, vmap, build. cbn [tri ndiv Exact].
  rewrite (sum_planar origin H) by reflexivity.
  unfold Rdiv. apply Rmult_0_l.
Qed.

Lemma at2_build (f : Ix -> Ix -> R) (i j : Ix) :
  at2 (build (fun r => build (fun c => f r c))) i j = f i j.
Proof. destruct i, j; reflexivity. Qed.

Lemma covariance_planar (A B : list Vec3) (c : Ix) :
  Forall (fun p => tri p I2 = 0) A -> at2 (covariance A B) I2 c = 0.
Proof.
  intros HA. unfold covariance.
  assert (Hgen : forall l H0,
             Forall (fun ab : Vec3 * Vec3 => tri (fst ab) I2 = 0) l ->
             at2 H0 I2 c = 0 ->
             at2 (fold_left
                    (fun H ab => build (fun r => build (fun c =>
                       nadd (at2 H r c) (nmul (tri (fst ab) r) (tri (snd ab) c)))))
                    l H0) I2 c = 0).
  { induction l as [|ab l IH]; intros H0 Hl H; [exact H|].
    cbn [fold_left]. inversion Hl as [|? ? Hab Hl']; subst. apply IH; [assumption|].
    rewrite (at2_build
               (fun r c => nadd (at2 H0 r c)
                                (nmul (tri (fst ab) r) (tri (snd ab) c)))).
    rewrite H, Hab. cbn [nadd nmul Exact]. change (@num Exact) with R. ring. }
  apply Hgen; [|destruct c; reflexivity].
  revert B. induction HA as [|a A Ha _ IH]; intros [|b B]; cbn [combine];
    constructor; [exact Ha | apply IH].
Qed.

Lemma det3_zero_column (M : Mat3) :
  (forall i, at2 M i I2 = 0) -> det3 M = 0.
Proof.
  intros H. pose proof (H I0) as H0. pose proof (H I1) as H1.
  pose proof (H I2) as H2.
  destruct M as [[[[a b] c] [[d e] f]] [[g h] i]].
  unfold det3; exact_arith. change (@num Exact) with R in *.
  subst c f i. ring.
Qed.

Lemma multiply_zero_column (V U : Mat3) :
  (forall j, at2 U I2 j = 0) ->
  forall i, at2 (multiplyMatrices V (transpose U)) i I2 = 0.
Proof.
  intros H i. pose proof (H I0) as H0. pose proof (H I1) as H1.
  pose proof (H I2) as H2.
  destruct V as [[[[a b] c] [[d e] f]] [[g h] k]].
  destruct U as [[[[a' b'] c'] [[d' e'] f']] [[g' h'] k']].
  unfold multiplyMatrices, transpose; exact_arith.
  change (@num Exact) with R in *. subst g' h' k'. destruct i; ring.
Qed.

Lemma multiply_zero_row (H X : Mat3) :
  (forall c, at2 H I2 c = 0) ->
  forall j, at2 (multiplyMatrices H X) I2 j = 0.
Proof.
  intros Hz j. pose proof (Hz I0) as H0. pose proof (Hz I1) as H1.
  pose proof (Hz I2) as H2.
  destruct H as [[[[a b] c] [[d e] f]] [[g h] k]].
  destruct X as [[[[a' b'] c'] [[d' e'] f']] [[g' h'] k']].
  unfold multiplyMatrices; exact_arith.
  change (@num Exact) with R in *. subst g h k. destruct j; ring.
Qed.

(** The determinant of the matrix returned is 0, whatever was drawn,
    whenever the points of the first list have z = 0. *)
Lemma planar_alignment_det_zero
      (pointsA pointsB : list Vec3) (rnd : nat -> num) (T : Transform) :
  pointsA <> [] ->
  Forall (fun p => tri p I2 = 0) pointsA ->
  computeAlignment pointsA pointsB rnd = inr T ->
  det3 (rot T) = 0.
Proof.
  intros Hne Hz. unfold computeAlignment.
  destruct pointsA as [|p0 ptsA]; [congruence|].
  destruct (Nat.ltb (length pointsB) (length (p0 :: ptsA))); [discriminate|].
  set (A := map (fun p => vsub p (centroid (p0 :: ptsA))) (p0 :: ptsA)).
  set (B := map (fun p => vsub p (centroid pointsB)) pointsB).
  assert (HA : Forall (fun p => tri p I2 = 0) A).
  { pose proof (centroid_planar Hz) as Hc.
    subst A. apply Forall_map. revert Hz. apply Forall_impl. intros p Hp.
    change (nsub (tri p I2) (tri (centroid (p0 :: ptsA)) I2) = 0).
    change (@num Exact) with R in *. rewrite Hp, Hc. cbn [nsub Exact]. ring. }
  assert (HH : forall c, at2 (covariance A B) I2 c = 0)
    by (intros c; now apply covariance_planar).
  unfold svd3x3.
  destruct (eigenSymmetric _ rnd) as [V Svals].
  set (VinvS := build (fun i => vmap _ _)).
  set (U := multiplyMatrices (covariance A B) (transpose VinvS)).
  assert (HU : forall j, at2 U I2 j = 0)
    by (intros j; now apply multiply_zero_row).
  set (Vt := build (fun i => tri V (tri (sortOrder Svals) i))).
  intros HT. injection HT as <-. cbn [rot].
  apply det3_zero_column.
  match goal with
  | |- context [if ?c then _ else _] => destruct c
  end; now apply multiply_zero_column.
Qed.

(** The reflection step in real arithmetic.  With three or more matched
    pairs [computeAlignment] returns a transform.  The rows of [Vt] are
    the eigenvectors in the order of the descending sort, so the last row
    belongs to the smallest eigenvalue and singular value.  When the
    candidate [Vt * U^T] has a negative determinant the last row of [Vt]
    is negated and the matrix is recomputed with the same [U], which
    negates the determinant; so the determinant of the matrix returned is
    never negative.  It can be 0: see [planar_alignment_det_zero]. *)
Lemma reflection_correction_negates_det
        (pointsA pointsB : list Vec3) (rnd : nat -> num) :
  (3 <= length pointsA)%nat ->
  (length pointsA <= length pointsB)%nat ->
  let H := covariance (map (fun p => vsub p (centroid pointsA)) pointsA)
                      (map (fun p => vsub p (centroid pointsB)) pointsB) in
  let V := fst (eigenSymmetric (multiplyMatrices (transpose H) H) rnd) in
  let Svals := snd (eigenSymmetric (multiplyMatrices (transpose H) H) rnd) in
  let order := sortOrder Svals in
  let U := fst (fst (svd3x3 H rnd)) in
  let Sg := snd (fst (svd3x3 H rnd)) in
  let Vt := snd (svd3x3 H rnd) in
  let Rc := multiplyMatrices Vt (transpose U) in
  exists T : Transform,
    computeAlignment pointsA pointsB rnd = inr T
    /\ Vt = build (fun i => tri V (tri order i))
    /\ Sg = build (fun i => sqrt (tri Svals (tri order i)))
    /\ tri Svals (tri order I2) <= tri Svals (tri order I1)
       <= tri Svals (tri order I0)
    /\ tri Sg I2 <= tri Sg I1 <= tri Sg I0
    /\ (det3 Rc < 0 ->
        rot T = multiplyMatrices (negateLast Vt) (transpose U)
        /\ det3 (rot T) = - det3 Rc)
    /\ (0 <= det3 Rc -> rot T = Rc)
    /\ 0 <= det3 (rot T).
Proof.
  intros Hlen Hle H V Svals order U Sg Vt Rc.
  destruct (sortOrder_descending Svals) as [_ [H21 H10]].
  assert (HVt : Vt = build (fun i => tri V (tri order i))).
  { subst Vt V order Svals. unfold svd3x3.
    destruct (eigenSymmetric (multiplyMatrices (transpose H) H) rnd) as [V0 S0].
    reflexivity. }
  assert (HSg : Sg = build (fun i => sqrt (tri Svals (tri order i)))).
  { subst Sg V order Svals. unfold svd3x3.
    destruct (eigenSymmetric (multiplyMatrices (transpose H) H) rnd) as [V0 S0].
    reflexivity. }
  assert (HT : computeAlignment pointsA pointsB rnd
               = inr (mkTransform
                        (if nltb (det3 Rc) zero
                         then multiplyMatrices (negateLast Vt) (transpose U)
                         else Rc)
                        (vsub (centroid pointsB)
                           (multiplyMatrixVec
                              (if nltb (det3 Rc) zero
                               then multiplyMatrices (negateLast Vt) (transpose U)
                               else Rc)
                              (centroid pointsA))))).
  { unfold computeAlignment.
    destruct pointsA as [|p pointsA]; [simpl in Hlen; lia|].
    destruct (Nat.ltb_spec (length pointsB) (length (p :: pointsA))); [lia|].
    fold H. subst Rc Vt U.
    destruct (svd3x3 H rnd) as [[U0 S0] Vt0]. reflexivity. }
  eexists. split; [exact HT|]. cbn [rot].
  split; [exact HVt|]. split; [exact HSg|]. split; [exact (conj H21 H10)|].
  split.
  { rewrite HSg. unfold build. cbn [tri].
    split; apply sqrt_le_1_alt; assumption. }
  assert (Hz : (zero : R) = 0) by reflexivity.
  destruct (nltb (det3 Rc) zero) eqn:Hd.
  - apply nltb_true in Hd. rewrite Hz in Hd.
    repeat split; try lra.
    + subst Rc. apply det3_negateLast.
    + subst Rc. rewrite det3_negateLast. lra.
  - apply nltb_false in Hd. rewrite Hz in Hd.
    repeat split; try lra.
Qed.

End AlignmentExact.

(** * The ease function *)

Module EaseF64.

(** Progress reaches exactly 1 with the fiftieth frame and stays there. *)
Lemma progress_stays_one (n : nat) :
  (50 <= n)%nat -> @progressAfter Binary64 n = F64.of_Z 1.
Proof.
  intros Hn. replace n with ((n - 50) + 50)%nat by lia.
  generalize (n - 50)%nat as k. clear n Hn.
  induction k as [|k IH].
  - vm_compute. reflexivity.
  - unfold progressAfter in *. cbn [Nat.add]. rewrite Nat.iter_succ, IH.
    vm_compute. reflexivity.
Qed.

(** Along the progress values a transition goes through, the eased factor
    never decreases. *)
Lemma ease_along_ticks (n : nat) :
  @nleb Binary64 (ease (progressAfter n)) (ease (progressAfter (S n))) = true.
Proof.
  destruct (Nat.lt_ge_cases n 50) as [Hlt|Hge].
  - assert (Hall : forallb
                     (fun n => @nleb Binary64 (ease (progressAfter n))
                                              (ease (progressAfter (S n))))
                     (seq 0 50) = true) by (vm_compute; reflexivity).
    rewrite forallb_forall in Hall. apply Hall. apply in_seq. lia.
  - rewrite !progress_stays_one by lia. vm_compute. reflexivity.
Qed.

(** Over all doubles between 0 and 1 the ease function as coded is not
    monotonic: at [1 - 2^-52] it is 1, at the next double [1 - 2^-53] it is
    [1 - 2^-52]. *)
Lemma ease_below_one :
  @ease Binary64 (S754_finite false 9007199254740990 (-53)) = F64.of_Z 1
  /\ SFeqb (@ease Binary64 (S754_finite false 9007199254740991 (-53)))
           (S754_finite false 9007199254740990 (-53)) = true.
Proof. split; vm_compute; reflexivity. Qed.

End EaseF64.

(** C7 as stated fails in binary64: the ease function is not monotonic
    over the doubles between 0 and 1. *)
Lemma C7_counterexample_not_monotonic :
  ~ (forall p q : @num Binary64,
       nleb zero p = true -> nleb p q = true -> nleb q one = true ->
       nleb (ease p) (ease q) = true).
Proof.
  intros H.
  specialize (H (S754_finite false 9007199254740990 (-53))
                (S754_finite false 9007199254740991 (-53))
                eq_refl eq_refl eq_refl).
  vm_compute in H. discriminate H.
Qed.

Module EaseFacts.

#[local] Existing Instance Exact.
Local Open Scope R_scope.

Lemma ease_low (p : R) : p < 1 / 2 -> ease p = 2 * p * p.
Proof.
  intros Hp. unfold ease. cbn [nltb nmul nadd nsub nneg of_Z dec Exact].
  destruct (Rlt_dec p (5 / 10 ^ 1)) as [_|Hn]; [reflexivity|].
  exfalso. apply Hn. simpl. lra.
Qed.

Lemma ease_high (p : R) : 1 / 2 <= p -> ease p = -1 + (4 - 2 * p) * p.
Proof.
  intros Hp. unfold ease, one. cbn [nltb nmul nadd nsub nneg of_Z dec Exact].
  destruct (Rlt_dec p (5 / 10 ^ 1)) as [Hl|_]; [|reflexivity].
  exfalso. simpl in Hl. lra.
Qed.

(** C7, amended.  In real arithmetic the ease function of [animate],
    [2*p*p] below one half and [-1 + (4 - 2*p)*p] from one half on, equals
    [1 - 2*(1-p)^2] on the upper branch, takes the values 0, 1/2 and 1 at
    0, 1/2 and 1, and is non-decreasing on the interval from 0 to 1.  In
    binary64 the three values are exact as well, and the eased factor
    never decreases along the progress values a transition goes through:
    0, then [Math.min(progress + 0.02, 1)] frame after frame. *)
Theorem C7_ease_in_out (p q : R) :
  0 <= p -> p <= q -> q <= 1 ->
  (ease p <= ease q
   /\ (q < 1 / 2 -> ease q = 2 * q * q)
   /\ (1 / 2 <= q -> ease q = -1 + (4 - 2 * q) * q
                    /\ ease q = 1 - 2 * ((1 - q) * (1 - q)))
   /\ ease 0 = 0 /\ ease (1 / 2) = 1 / 2 /\ ease 1 = 1)
  /\ (forall n,
        @nleb Binary64 (ease (progressAfter n)) (ease (progressAfter (S n)))
        = true)
  /\ @ease Binary64 (F64.of_Z 0) = F64.of_Z 0
  /\ @ease Binary64 (F64.dec 5 1) = F64.dec 5 1
  /\ @ease Binary64 (F64.of_Z 1) = F64.of_Z 1.
Proof.
  intros H0 Hpq H1.
  split; [|split; [exact EaseF64.ease_along_ticks|repeat split; reflexivity]].
  split; [|split; [|split; [|split; [|split]]]].
  - destruct (Rlt_dec p (1 / 2)) as [Hp|Hp]; destruct (Rlt_dec q (1 / 2)) as [Hq|Hq].
    + rewrite !ease_low by assumption. nra.
    + rewrite ease_low by assumption. rewrite ease_high by lra. nra.
    + lra.
    + rewrite !ease_high by lra. nra.
  - apply ease_low.
  - intros Hq. rewrite ease_high by assumption.
    change (@num Exact) with R. split; ring.
  - rewrite ease_low by lra. change (@num Exact) with R. ring.
  - rewrite ease_high by lra. change (@num Exact) with R. field.
  - rewrite ease_high by lra. change (@num Exact) with R. ring.
Qed.

End EaseFacts.

Lemma C7_ease_in_out_witness :
  (@ease Exact (1 / 4) <= @ease Exact (3 / 4))%R
  /\ @nleb Binary64 (ease (progressAfter 24)) (ease (progressAfter 25)) = true.
Proof.
  destruct (@EaseFacts.C7_ease_in_out (1 / 4) (3 / 4))%R
    as [[Hmono _] [Hticks _]]; [lra|lra|lra|].
  split; [exact Hmono|apply Hticks].
Defined.

(** In double precision, along the progress values a transition goes
    through (0, then [Math.min(progress + 0.02, 1)] frame after frame), the
    eased factor never decreases; progress is exactly 1 after fifty frames;
    and the ease function is exactly 0, 0.5 and 1 at 0, 0.5 and 1. *)
Lemma ease_along_ticks_binary64 :
  forallb (fun n => @nleb Binary64 (ease (progressAfter n))
                                   (ease (progressAfter (S n))))
          (seq 0 60) = true
  /\ SFeqb (@progressAfter Binary64 50) (F64.of_Z 1) = true
  /\ @ease Binary64 (F64.of_Z 0) = F64.of_Z 0
  /\ @ease Binary64 (F64.dec 5 1) = F64.dec 5 1
  /\ @ease Binary64 (F64.of_Z 1) = F64.of_Z 1.
Proof.
  split; [vm_compute; reflexivity|].
  split; [vm_compute; reflexivity|].
  repeat split; reflexivity.
Qed.

(** * The coordinate normaliser in exact arithmetic *)

Module NormalizeExact.

#[local] Existing Instance Exact.
Local Open Scope R_scope.

Ltac reals :=
  unfold spreadMin, spreadMax, vmap, build, at2, tri, zero, one in *;
  cbn [nadd nsub nmul ndiv nneg nltb nleb nmin nmax of_Z num Exact fst snd] in *;
  change (@num Exact) with R in *.

Lemma fold_Rmin_le (xs : list R) (x : R) : fold_left Rmin xs x <= x.
Proof.
  revert x. induction xs as [|y xs IH]; intros x; simpl; [lra|].
  specialize (IH (Rmin x y)). pose proof (Rmin_l x y). lra.
Qed.

Lemma fold_Rmax_ge (xs : list R) (x : R) : x <= fold_left Rmax xs x.
Proof.
  revert x. induction xs as [|y xs IH]; intros x; simpl; [lra|].
  specialize (IH (Rmax x y)). pose proof (Rmax_l x y). lra.
Qed.

Lemma fold_Rmin_mono (xs : list R) (x x' : R) :
  x <= x' -> fold_left Rmin xs x <= fold_left Rmin xs x'.
Proof.
  revert x x'. induction xs as [|y xs IH]; intros x x' H; simpl; [lra|].
  apply IH. apply Rle_min_compat_r. exact H.
Qed.

Lemma fold_Rmin_le_Rmax (xs : list R) (x : R) :
  fold_left Rmin xs x <= fold_left Rmax xs x.
Proof.
  pose proof (fold_Rmin_le xs x). pose proof (fold_Rmax_ge xs x). lra.
Qed.

(** A non-decreasing map commutes with the minimum and the maximum of a
    spread. *)
Lemma fold_Rmin_map (f : R -> R) (xs : list R) (x : R) :
  (forall a b, a <= b -> f a <= f b) ->
  fold_left Rmin (map f xs) (f x) = f (fold_left Rmin xs x).
Proof.
  intros Hf. revert x. induction xs as [|y xs IH]; intros x; simpl; [reflexivity|].
  rewrite <- IH. f_equal.
  unfold Rmin. destruct (Rle_dec x y) as [Hxy|Hxy];
    destruct (Rle_dec (f x) (f y)) as [Hf'|Hf']; try reflexivity.
  - exfalso. apply Hf'. now apply Hf.
  - assert (f y <= f x) by (apply Hf; lra). lra.
Qed.

Lemma fold_Rmax_map (f : R -> R) (xs : list R) (x : R) :
  (forall a b, a <= b -> f a <= f b) ->
  fold_left Rmax (map f xs) (f x) = f (fold_left Rmax xs x).
Proof.
  intros Hf. revert x. induction xs as [|y xs IH]; intros x; simpl; [reflexivity|].
  rewrite <- IH. f_equal.
  unfold Rmax. destruct (Rle_dec x y) as [Hxy|Hxy];
    destruct (Rle_dec (f x) (f y)) as [Hf'|Hf']; try reflexivity.
  - exfalso. apply Hf'. now apply Hf.
  - assert (f y <= f x) by (apply Hf; lra). lra.
Qed.

Lemma scaleOf_range (maxDim : R) :
  0 < scaleOf maxDim <= 1
  /\ (maxDim <= 1 -> scaleOf maxDim = 1)
  /\ maxDim * scaleOf maxDim <= 1.
Proof.
  unfold scaleOf; reals.
  destruct (Rlt_dec 1 maxDim) as [H|H].
  - assert (0 < / maxDim) by (apply Rinv_0_lt_compat; lra).
    assert (/ maxDim < / 1) by (apply Rinv_lt_contravar; lra).
    rewrite Rinv_1 in *. unfold Rdiv.
    repeat split; try lra.
    rewrite Rmult_1_l, Rinv_r; lra.
  - repeat split; lra.
Qed.

Lemma affine_mono (c s a b : R) : 0 <= s -> a <= b -> (a - c) * s <= (b - c) * s.
Proof. intros Hs Hab. apply Rmult_le_compat_r; lra. Qed.

(** The bounds of the image of the atoms under "subtract [c], multiply by
    [s]" are the images of the bounds. *)
Lemma box_of_image (c : Vec3) (s : R) (a : Vec3) (rest : list Vec3) (k : Ix) :
  0 <= s ->
  let g := fun p : Vec3 => build (fun k => (tri p k - tri c k) * s) in
  tri (boxMin (g a) (map g rest)) k = (tri (boxMin a rest) k - tri c k) * s
  /\ tri (boxMax (g a) (map g rest)) k = (tri (boxMax a rest) k - tri c k) * s.
Proof.
  intros Hs g.
  assert (Hg : forall p, tri (g p) k = (tri p k - tri c k) * s)
    by (intros [[x y] z]; destruct k; reflexivity).
  assert (Hmap : map (fun p => tri p k) (map g rest)
                 = map (fun x => (x - tri c k) * s) (map (fun p => tri p k) rest)).
  { rewrite !map_map. apply map_ext. intros p. apply Hg. }
  assert (Hmn : tri (boxMin (g a) (map g rest)) k
                = spreadMin (tri (g a) k) (map (fun p => tri p k) (map g rest)))
    by (destruct k; reflexivity).
  assert (Hmx : tri (boxMax (g a) (map g rest)) k
                = spreadMax (tri (g a) k) (map (fun p => tri p k) (map g rest)))
    by (destruct k; reflexivity).
  assert (Hmn0 : tri (boxMin a rest) k
                 = spreadMin (tri a k) (map (fun p => tri p k) rest))
    by (destruct k; reflexivity).
  assert (Hmx0 : tri (boxMax a rest) k
                 = spreadMax (tri a k) (map (fun p => tri p k) rest))
    by (destruct k; reflexivity).
  rewrite Hmn, Hmx, Hmn0, Hmx0, Hmap, Hg.
  unfold spreadMin, spreadMax. cbn [nmin nmax Exact].
  split.
  - apply (fold_Rmin_map (fun x => (x - tri c k) * s)).
    intros; now apply affine_mono.
  - apply (fold_Rmax_map (fun x => (x - tri c k) * s)).
    intros; now apply affine_mono.
Qed.

Lemma boxSize_le_maxDim (sz : Vec3) (k : Ix) : tri sz k <= maxDimOf sz.
Proof.
  destruct sz as [[x y] z]. unfold maxDimOf; reals. cbn [fold_left].
  pose proof (Rmax_l x y). pose proof (Rmax_r x y).
  pose proof (Rmax_l (Rmax x y) z). pose proof (Rmax_r (Rmax x y) z).
  destruct k; lra.
Qed.

Lemma maxDimOf_le (sz : Vec3) (b : R) :
  (forall k, tri sz k <= b) -> maxDimOf sz <= b.
Proof.
  destruct sz as [[x y] z]. intros H.
  pose proof (H I0). pose proof (H I1). pose proof (H I2).
  unfold maxDimOf; reals. cbn [fold_left].
  repeat apply Rmax_lub; assumption.
Qed.

Lemma nleb_true (a b : R) : nleb a b = true <-> a <= b.
Proof.
  cbn [nleb Exact]. destruct (Rle_dec a b); split; intros; try lra; easy.
Qed.

(** The minimum of a spread is one of its arguments and below all of
    them; the maximum likewise. *)
Lemma fold_Rmin_least (xs : list R) (x : R) :
  In (fold_left Rmin xs x) (x :: xs)
  /\ forall y, In y (x :: xs) -> fold_left Rmin xs x <= y.
Proof.
  revert x. induction xs as [|z xs IH]; intros x; cbn [fold_left].
  - split; [now left|]. intros y [<-|[]]. lra.
  - destruct (IH (Rmin x z)) as [Hin Hlb]. split.
    + destruct Hin as [Hin|Hin]; [|right; now right].
      rewrite <- Hin. unfold Rmin. destruct (Rle_dec x z);
        [now left | right; now left].
    + intros y Hy.
      assert (Hm : fold_left Rmin xs (Rmin x z) <= Rmin x z)
        by (apply Hlb; now left).
      destruct Hy as [<-|[<-|Hy]].
      * pose proof (Rmin_l x z). lra.
      * pose proof (Rmin_r x z). lra.
      * apply Hlb. now right.
Qed.

Lemma fold_Rmax_greatest (xs : list R) (x : R) :
  In (fold_left Rmax xs x) (x :: xs)
  /\ forall y, In y (x :: xs) -> y <= fold_left Rmax xs x.
Proof.
  revert x. induction xs as [|z xs IH]; intros x; cbn [fold_left].
  - split; [now left|]. intros y [<-|[]]. lra.
  - destruct (IH (Rmax x z)) as [Hin Hub]. split.
    + destruct Hin as [Hin|Hin]; [|right; now right].
      rewrite <- Hin. unfold Rmax. destruct (Rle_dec x z);
        [right; now left | now left].
    + intros y Hy.
      assert (Hm : Rmax x z <= fold_left Rmax xs (Rmax x z))
        by (apply Hub; now left).
      destruct Hy as [<-|[<-|Hy]].
      * pose proof (Rmax_l x z). lra.
      * pose proof (Rmax_r x z). lra.
      * apply Hub. now right.
Qed.

(** What the code computes as [min] and [max] are the least and the
    greatest value of every coordinate. *)
Lemma boxMin_least (a : Vec3) (rest : list Vec3) (k : Ix) :
  isLeast k (a :: rest) (tri (boxMin a rest) k).
Proof.
  assert (E : tri (boxMin a rest) k
              = fold_left Rmin (map (fun p => tri p k) rest) (tri a k))
    by (destruct k; reflexivity).
  rewrite E.
  destruct (fold_Rmin_least (map (fun p => tri p k) rest) (tri a k))
    as [Hin Hlb].
  change (tri a k :: map (fun p => tri p k) rest)
    with (map (fun p : @Vec3 Exact => tri p k) (a :: rest)) in Hin, Hlb.
  split.
  - apply in_map_iff in Hin. destruct Hin as [p [Hp Hin]]. now exists p.
  - intros p Hp. apply nleb_true. apply Hlb.
    apply in_map_iff. now exists p.
Qed.

Lemma boxMax_greatest (a : Vec3) (rest : list Vec3) (k : Ix) :
  isGreatest k (a :: rest) (tri (boxMax a rest) k).
Proof.
  assert (E : tri (boxMax a rest) k
              = fold_left Rmax (map (fun p => tri p k) rest) (tri a k))
    by (destruct k; reflexivity).
  rewrite E.
  destruct (fold_Rmax_greatest (map (fun p => tri p k) rest) (tri a k))
    as [Hin Hub].
  change (tri a k :: map (fun p => tri p k) rest)
    with (map (fun p : @Vec3 Exact => tri p k) (a :: rest)) in Hin, Hub.
  split.
  - apply in_map_iff in Hin. destruct Hin as [p [Hp Hin]]. now exists p.
  - intros p Hp. apply nleb_true. apply Hub.
    apply in_map_iff. now exists p.
Qed.

(** The least and the greatest value of a coordinate go through
    "subtract [c], multiply by [s]" when [s] is not negative. *)
Lemma least_of_image (g : Vec3 -> Vec3) (c s : R) (k : Ix)
      (ats : list Vec3) (lo hi : R) :
  0 <= s -> (forall p, tri (g p) k = (tri p k - c) * s) ->
  isLeast k ats lo -> isGreatest k ats hi ->
  isLeast k (map g ats) ((lo - c) * s)
  /\ isGreatest k (map g ats) ((hi - c) * s).
Proof.
  intros Hs Hg [[p [Hp Hlo]] Hlb] [[q [Hq Hhi]] Hub]. split.
  - split.
    + exists (g p). split; [now apply in_map|]. now rewrite Hg, Hlo.
    + intros r Hr. apply in_map_iff in Hr. destruct Hr as [r0 [<- Hr0]].
      apply nleb_true. rewrite Hg. apply affine_mono; [exact Hs|].
      apply nleb_true. now apply Hlb.
  - split.
    + exists (g q). split; [now apply in_map|]. now rewrite Hg, Hhi.
    + intros r Hr. apply in_map_iff in Hr. destruct Hr as [r0 [<- Hr0]].
      apply nleb_true. rewrite Hg. apply affine_mono; [exact Hs|].
      apply nleb_true. now apply Hub.
Qed.

(** C4, amended.  In real arithmetic, for a molecule with at least one
    atom: with [lo] and [hi] the least and the greatest value of every
    coordinate over the atoms, the normaliser subtracts the midpoint
    [(lo + hi) / 2] of that box from every atom and multiplies the three
    coordinates by one and the same factor [scale].  The factor is
    positive and at most 1, it is 1 when no side of the box is longer than
    1, and it is the inverse of the longest side otherwise.  In the result
    the least and the greatest value of every coordinate are opposite
    numbers, so the box has its midpoint at the origin, and every side of
    the box is the side of the input box times [scale], which is at most
    1. *)
Theorem C4_normalize_bounding_box (a : Vec3) (rest : list Vec3) :
  exists (lo hi : Vec3) (scale : R),
    (forall k, isLeast k (a :: rest) (tri lo k)
               /\ isGreatest k (a :: rest) (tri hi k))
    /\ normalize (a :: rest)
       = map (fun p =>
                ((tri p I0 - (tri lo I0 + tri hi I0) / 2) * scale,
                 (tri p I1 - (tri lo I1 + tri hi I1) / 2) * scale,
                 (tri p I2 - (tri lo I2 + tri hi I2) / 2) * scale))
             (a :: rest)
    /\ 0 < scale <= 1
    /\ ((forall k, tri hi k - tri lo k <= 1) -> scale = 1)
    /\ (forall k, 1 < tri hi k - tri lo k ->
                  (forall j, tri hi j - tri lo j <= tri hi k - tri lo k) ->
                  scale = 1 / (tri hi k - tri lo k))
    /\ exists lo' hi' : Vec3,
         forall k,
           isLeast k (normalize (a :: rest)) (tri lo' k)
           /\ isGreatest k (normalize (a :: rest)) (tri hi' k)
           /\ tri lo' k + tri hi' k = 0
           /\ tri hi' k - tri lo' k = (tri hi k - tri lo k) * scale
           /\ tri hi' k - tri lo' k <= 1.
Proof.
  set (mn := boxMin a rest). set (mx := boxMax a rest).
  set (center := boxCenter mn mx).
  set (maxDim := maxDimOf (boxSize mn mx)).
  set (scale := scaleOf maxDim).
  set (g := fun p : @Vec3 Exact =>
              build (fun k => (tri p k - tri center k) * scale)).
  destruct (scaleOf_range maxDim) as [[Hpos Hle1] [Hone Hprod]].
  fold scale in Hpos, Hle1, Hone, Hprod.
  assert (Hc : forall k, tri center k = (tri mn k + tri mx k) / 2)
    by (intros k; destruct k; reflexivity).
  assert (Hsz : forall k, tri (boxSize mn mx) k = tri mx k - tri mn k)
    by (intros k; destruct k; reflexivity).
  assert (Hg : forall k p, tri (g p) k = (tri p k - tri center k) * scale)
    by (intros k [[x y] z]; destruct k; reflexivity).
  assert (Hside : forall k, tri mx k - tri mn k <= maxDim).
  { intros k. rewrite <- Hsz. apply boxSize_le_maxDim. }
  exists mn, mx, scale.
  split; [intros k; split; [apply boxMin_least|apply boxMax_greatest]|].
  split; [reflexivity|]. split; [lra|]. split; [|split].
  - intros Hall. apply Hone. apply maxDimOf_le. intros k.
    rewrite Hsz. apply Hall.
  - intros k Hk Hlong.
    assert (Hmax : maxDim = tri mx k - tri mn k).
    { apply Rle_antisym; [|apply Hside].
      apply maxDimOf_le. intros j. rewrite Hsz. apply Hlong. }
    unfold scale, scaleOf. cbn [nltb ndiv Exact]. unfold one.
    cbn [of_Z Exact]. rewrite Hmax.
    destruct (Rlt_dec 1 (tri mx k - tri mn k)); [reflexivity|contradiction].
  - set (lo' := build (fun k => (tri mn k - tri center k) * scale)
                : @Vec3 Exact).
    set (hi' := build (fun k => (tri mx k - tri center k) * scale)
                : @Vec3 Exact).
    exists lo', hi'. intros k.
    assert (Elo : tri lo' k = (tri mn k - tri center k) * scale)
      by (destruct k; reflexivity).
    assert (Ehi : tri hi' k = (tri mx k - tri center k) * scale)
      by (destruct k; reflexivity).
    rewrite Elo, Ehi.
    change (normalize (a :: rest)) with (map g (a :: rest)).
    destruct (@least_of_image g (tri center k) scale k (a :: rest)
                (tri mn k) (tri mx k)) as [Hl Hh];
      [lra | apply Hg | apply boxMin_least | apply boxMax_greatest |].
    split; [exact Hl|]. split; [exact Hh|].
    rewrite Hc. change (@num Exact) with R.
    split; [field|]. split; [field|].
    specialize (Hside k). change (@num Exact) with R in *.
    assert (Hx : (tri mx k - tri mn k) * scale <= maxDim * scale)
      by (apply Rmult_le_compat_r; change (@num Exact) with R; lra).
    change (@num Exact) with R in *. nra.
Qed.

End NormalizeExact.

(** In binary64 the rounding of the midpoint, of [1.0 / maxDim] and of the
    products shows: two atoms with x coordinates 10 and 25.3 come out at
    -0.49999999999999994 and 0.5000000000000002. *)
Lemma normalize_two_atoms_binary64 :
  normalize [Examples.pt 10 0 0; (F64.dec 253 1, F64.zero, F64.zero)]
  = [(S754_finite true 9007199254740991 (-54), F64.zero, F64.zero);
     (S754_finite false 4503599627370498 (-53), F64.zero, F64.zero)].
Proof. vm_compute. reflexivity. Qed.

(** C4 as stated fails in binary64: for these two atoms the side of the
    bounding box of the result along x is 1.0000000000000002 (and the
    least and the greatest x are not opposite, so the midpoint is not the
    origin either). *)
Lemma C4_counterexample_rounding :
  ~ (forall (a : @Vec3 Binary64) (rest : list Vec3) (k : Ix)
            (lo hi : @num Binary64),
       isLeast k (normalize (a :: rest)) lo ->
       isGreatest k (normalize (a :: rest)) hi ->
       @nleb Binary64 (nsub hi lo) one = true).
Proof.
  intros H.
  specialize (H (Examples.pt 10 0 0) [(F64.dec 253 1, F64.zero, F64.zero)] I0
                (S754_finite true 9007199254740991 (-54))
                (S754_finite false 4503599627370498 (-53))).
  rewrite normalize_two_atoms_binary64 in H.
  assert (Hf : false = true); [|discriminate Hf].
  apply H.
  - split.
    + eexists. split; [left; reflexivity|reflexivity].
    + intros p [<-|[<-|[]]]; vm_compute; reflexivity.
  - split.
    + eexists. split; [right; left; reflexivity|reflexivity].
    + intros p [<-|[<-|[]]]; vm_compute; reflexivity.
Qed.

(** * The correspondence resolver *)

Section ResolverFacts.

Context {N : Number}.

Lemma update_length {A : Type} (l : list A) (i : nat) (f : A -> A) :
  length (update l i f) = length l.
Proof.
  revert i. induction l as [|x l IH]; intros [|i]; simpl; auto.
Qed.

Lemma nth_update_eq {A : Type} (l : list A) (i : nat) (f : A -> A) (d : A) :
  (i < length l)%nat -> nth i (update l i f) d = f (nth i l d).
Proof.
  revert i. induction l as [|x l IH]; intros [|i] H; simpl in *; try lia; auto.
  apply IH. lia.
Qed.

Lemma nth_update_neq {A : Type} (l : list A) (i k : nat) (f : A -> A) (d : A) :
  k <> i -> nth k (update l i f) d = nth k l d.
Proof.
  revert i k. induction l as [|x l IH]; intros [|i] [|k] H; simpl; auto.
  congruence.
Qed.

Lemma existsb_eqb_In (x : nat) (s : list nat) :
  existsb (Nat.eqb x) s = true <-> In x s.
Proof.
  rewrite existsb_exists. split.
  - intros [y [Hy He]]. apply Nat.eqb_eq in He. now subst.
  - intros H. exists x. split; [assumption | apply Nat.eqb_refl].
Qed.

Lemma setAdd_In (x b : nat) (s : list nat) :
  In b (setAdd x s) <-> b = x \/ In b s.
Proof.
  unfold setAdd. destruct (existsb (Nat.eqb x) s) eqn:E.
  - apply existsb_eqb_In in E. split; [auto|]. intros [->|H]; assumption.
  - rewrite in_app_iff. simpl. intuition.
Qed.

Lemma setAdd_NoDup (x : nat) (s : list nat) : NoDup s -> NoDup (setAdd x s).
Proof.
  intros H. unfold setAdd. destruct (existsb (Nat.eqb x) s) eqn:E; [assumption|].
  assert (Hx : ~ In x s).
  { intros Hin. apply existsb_eqb_In in Hin. congruence. }
  clear E. induction H as [|y s Hy Hs IH]; simpl.
  - constructor; [intros []|constructor].
  - constructor.
    + rewrite in_app_iff. simpl. intros [H'|[H'|[]]]; [contradiction|].
      subst. apply Hx. now left.
    + apply IH. intros H'. apply Hx. now right.
Qed.

Lemma validIndex_Some (n : nat) (v : JsInt) (k : nat) :
  validIndex n v = Some k <-> (v = Some (Z.of_nat k) /\ (k < n)%nat).
Proof.
  unfold validIndex. destruct v as [z|]; [|split; [discriminate|intros [H _]; discriminate]].
  destruct (Z.leb_spec 0 z); destruct (Z.ltb_spec z (Z.of_nat n)); simpl;
    split; try discriminate.
  - intros H'. injection H' as <-. split; [f_equal|]; lia.
  - intros [H' Hk]. injection H' as ->. f_equal. lia.
  - intros [H' Hk]. injection H' as ->. lia.
  - intros [H' Hk]. injection H' as ->. lia.
  - intros [H' Hk]. injection H' as ->. lia.
Qed.

Lemma adjacency_inl (n : nat) (bs : list Bond) (e : Thrown) :
  fold_left (adjacencyStep n) bs (inl e) = inl e.
Proof. induction bs as [|b bs IH]; simpl; auto. Qed.

Lemma adjacencyStep_In (n : nat) (adj : list (list nat)) (f t a x : nat) :
  length adj = n -> (f < n)%nat -> (t < n)%nat ->
  In x (nth a (update (update adj f (setAdd t)) t (setAdd f)) [])
  <-> In x (nth a adj []) \/ (a = f /\ x = t) \/ (a = t /\ x = f).
Proof.
  intros Hn Hf Ht.
  destruct (Nat.eq_dec a t) as [->|Hat].
  - rewrite nth_update_eq by (rewrite update_length; lia).
    rewrite setAdd_In.
    destruct (Nat.eq_dec t f) as [->|Htf].
    + rewrite nth_update_eq by lia. rewrite setAdd_In. intuition.
    + rewrite nth_update_neq by assumption. intuition.
  - rewrite nth_update_neq by assumption.
    destruct (Nat.eq_dec a f) as [->|Haf].
    + rewrite nth_update_eq by lia. rewrite setAdd_In. intuition.
    + rewrite nth_update_neq by assumption. intuition.
Qed.

Lemma adjacencyStep_NoDup (adj : list (list nat)) (f t : nat) :
  (forall a, NoDup (nth a adj [])) ->
  forall a, NoDup (nth a (update (update adj f (setAdd t)) t (setAdd f)) []).
Proof.
  intros H.
  assert (H1 : forall a, NoDup (nth a (update adj f (setAdd t)) [])).
  { intros a. destruct (Nat.eq_dec a f) as [->|Haf].
    - destruct (Nat.lt_ge_cases f (length adj)).
      + rewrite nth_update_eq by assumption. apply setAdd_NoDup, H.
      + rewrite nth_overflow by (rewrite update_length; lia). constructor.
    - rewrite nth_update_neq by assumption. apply H. }
  intros a. destruct (Nat.eq_dec a t) as [->|Hat].
  - destruct (Nat.lt_ge_cases t (length (update adj f (setAdd t)))).
    + rewrite nth_update_eq by assumption. apply setAdd_NoDup, H1.
    + rewrite nth_overflow by (rewrite update_length; lia). constructor.
  - rewrite nth_update_neq by assumption. apply H1.
Qed.

Lemma bonded_cons (b : Bond) (bs : list Bond) (f t a x : nat) :
  from b = Some (Z.of_nat f) -> to b = Some (Z.of_nat t) ->
  bonded (b :: bs) a x = true
  <-> ((a = f /\ x = t) \/ (a = t /\ x = f)) \/ bonded bs a x = true.
Proof.
  intros Hf Ht. unfold bonded. cbn [existsb]. rewrite Hf, Ht.
  rewrite orb_true_iff, orb_true_iff, !andb_true_iff, !Z.eqb_eq.
  split; intros [H|H]; auto; left; intuition lia.
Qed.

(** What [adjacency] returns: one duplicate-free row per atom, holding the
    atoms bonded to it; it returns exactly when every bond end is an index
    of an atom. *)
Lemma adjacency_fold (n : nat) (bs : list Bond) :
  forall acc adj,
    fold_left (adjacencyStep n) bs (inr acc) = inr adj ->
    length acc = n ->
    length adj = n
    /\ (forall a x, In x (nth a adj [])
                    <-> In x (nth a acc []) \/ bonded bs a x = true)
    /\ ((forall a, NoDup (nth a acc [])) -> forall a, NoDup (nth a adj [])).
Proof.
  induction bs as [|b bs IH]; intros acc adj H Hn.
  - simpl in H. injection H as <-. repeat split; auto.
    + intros [H|H]; [assumption|discriminate].
  - cbn [fold_left] in H. unfold adjacencyStep at 2 in H.
    destruct (validIndex n (from b)) as [f|] eqn:Ef;
      [|rewrite adjacency_inl in H; discriminate].
    destruct (validIndex n (to b)) as [t|] eqn:Et;
      [|rewrite adjacency_inl in H; discriminate].
    apply validIndex_Some in Ef, Et. destruct Ef as [Ef Hf], Et as [Et Ht].
    apply IH in H; [|now rewrite !update_length].
    destruct H as [Hlen [Hin Hnd]].
    split; [assumption|]. split.
    + intros a x. rewrite Hin.
      rewrite (@adjacencyStep_In n acc f t a x Hn Hf Ht).
      rewrite (@bonded_cons b bs f t a x Ef Et). tauto.
    + intros H0. apply Hnd. now apply adjacencyStep_NoDup.
Qed.

Lemma repeat_nil_nth (n a : nat) : nth a (repeat (@nil nat) n) [] = [].
Proof.
  revert a. induction n as [|n IH]; intros [|a]; simpl; auto.
Qed.

Lemma adjacency_spec (bs : list Bond) (n : nat) (adj : list (list nat)) :
  adjacency bs n = inr adj ->
  length adj = n
  /\ (forall a x, In x (nth a adj []) <-> bonded bs a x = true)
  /\ (forall a, NoDup (nth a adj [])).
Proof.
  intros H. apply adjacency_fold in H; [|apply repeat_length].
  destruct H as [Hlen [Hin Hnd]]. split; [assumption|]. split.
  - intros a x. rewrite Hin, repeat_nil_nth. simpl. tauto.
  - apply Hnd. intros a. rewrite repeat_nil_nth. constructor.
Qed.

(** [adjacency] returns for molecules whose bonds are valid. *)
Lemma adjacency_total (bs : list Bond) (n : nat) :
  Forall (fun b => validIndex n (from b) <> None
                   /\ validIndex n (to b) <> None) bs ->
  exists adj, adjacency bs n = inr adj.
Proof.
  unfold adjacency. generalize (repeat (@nil nat) n).
  induction bs as [|b bs IH]; intros acc H.
  - now exists acc.
  - inversion H as [|b' bs' [Hf Ht] Hrest]; subst.
    cbn [fold_left]. unfold adjacencyStep at 2.
    destruct (validIndex n (from b)); [|congruence].
    destruct (validIndex n (to b)); [|congruence].
    now apply IH.
Qed.

Lemma scoreOf_fold (i : nat) (mapping : list Z) (adjBj : list nat)
      (l : list nat) (acc : Z) :
  fold_left
    (fun score nei =>
       let m := nth nei mapping (-1)%Z in
       if ((nei <? i)%nat && negb (m =? -1)%Z
           && existsb (fun x => (Z.of_nat x =? m)%Z) adjBj)%bool
       then (score + 1)%Z else score) l acc
  = (acc + Z.of_nat (length (filter (scoreTest i mapping adjBj) l)))%Z.
Proof.
  revert acc. induction l as [|nei l IH]; intros acc; simpl; [lia|].
  rewrite IH. unfold scoreTest at 2. cbv zeta.
  destruct ((nei <? i)%nat && negb (nth nei mapping (-1) =? -1)%Z
            && existsb (fun x => (Z.of_nat x =? nth nei mapping (-1))%Z) adjBj)%bool;
    simpl; lia.
Qed.

Lemma scoreOf_count (adjAi : list nat) (i : nat) (mapping : list Z)
      (adjBj : list nat) :
  scoreOf adjAi i mapping adjBj
  = Z.of_nat (length (filter (scoreTest i mapping adjBj) adjAi)).
Proof. unfold scoreOf. now rewrite scoreOf_fold. Qed.

Lemma innerStep_eq (ea eb : list nat) (adjAi : list nat)
      (adjB : list (list nat)) (i : nat) (mapping : list Z)
      (usedB : list bool) (best : Z * Z) (j : nat) :
  innerStep ea eb adjAi adjB i mapping usedB best j
  = if innerCand ea eb i usedB j
    then if (snd best <? scoreOf adjAi i mapping (nth j adjB []))%Z
         then (Z.of_nat j, scoreOf adjAi i mapping (nth j adjB []))
         else best
    else best.
Proof.
  unfold innerStep, innerCand.
  destruct (nth j usedB false); [reflexivity|].
  destruct (sameTag ea eb i j); reflexivity.
Qed.

(** The inner loop keeps the first B atom of highest score among the
    candidates seen so far. *)
Lemma inner_loop (ea eb : list nat) (adjAi : list nat)
      (adjB : list (list nat)) (i : nat) (mapping : list Z)
      (usedB : list bool) (m : nat) :
  bestUpTo (innerCand ea eb i usedB)
           (fun j => scoreOf adjAi i mapping (nth j adjB [])) m
           (fold_left (innerStep ea eb adjAi adjB i mapping usedB)
                      (seq 0 m) ((-1)%Z, (-1)%Z)).
Proof.
  assert (Hpos : forall j, (0 <= scoreOf adjAi i mapping (nth j adjB []))%Z)
    by (intros j; rewrite scoreOf_count; lia).
  induction m as [|m IH].
  - left. split; [reflexivity|]. intros j Hj. lia.
  - rewrite seq_S, fold_left_app. cbn [fold_left Nat.add].
    rewrite innerStep_eq.
    set (best := fold_left _ (seq 0 m) _) in *.
    set (score := fun j => scoreOf adjAi i mapping (nth j adjB [])) in *.
    change (scoreOf adjAi i mapping (nth m adjB [])) with (score m).
    destruct (innerCand ea eb i usedB m) eqn:Ec.
    + destruct IH as [[Hb Hno]|[j0 [Hj0 [Hc0 [Hb Hmax]]]]].
      * rewrite Hb. cbn [snd].
        pose proof (Hpos m) as Hm. change (0 <= score m)%Z in Hm.
        destruct (Z.ltb_spec (-1) (score m)) as [_|Hlt]; [|lia].
        right. exists m.
        split; [lia|]. split; [assumption|]. split; [reflexivity|].
        intros j Hj Hcj.
        destruct (Nat.eq_dec j m) as [->|Hne]; [split; lia|].
        rewrite Hno in Hcj by lia. discriminate.
      * rewrite Hb. cbn [snd].
        destruct (Z.ltb_spec (score j0) (score m)) as [Hlt|Hge].
        -- right. exists m.
           split; [lia|]. split; [assumption|]. split; [reflexivity|].
           intros j Hj Hcj.
           destruct (Nat.eq_dec j m) as [->|Hne]; [split; lia|].
           destruct (Hmax j) as [Hle _]; [lia|assumption|]. split; lia.
        -- right. exists j0.
           split; [lia|]. split; [assumption|]. split; [reflexivity|].
           intros j Hj Hcj.
           destruct (Nat.eq_dec j m) as [->|Hne]; [split; lia|].
           apply Hmax; [lia|assumption].
    + destruct IH as [[Hb Hno]|[j0 [Hj0 [Hc0 [Hb Hmax]]]]].
      * left. split; [assumption|]. intros j Hj.
        destruct (Nat.eq_dec j m) as [->|Hne]; [assumption|]. apply Hno. lia.
      * right. exists j0.
        split; [lia|]. split; [assumption|]. split; [assumption|].
        intros j Hj Hcj.
        destruct (Nat.eq_dec j m) as [->|Hne]; [congruence|].
        apply Hmax; [lia|assumption].
Qed.

Section Loops.

Variables (ea eb : list nat) (adjA adjB : list (list nat)) (nA nB : nat).

Let candOf (st : list Z * list bool) (k : nat) : nat -> bool :=
  innerCand ea eb k (snd st).
Let scoreIn (st : list Z * list bool) (k : nat) : nat -> Z :=
  fun j => scoreOf (nth k adjA []) k (fst st) (nth j adjB []).

(** One round of the outer loop: the entry of atom [k] is written once,
    from the result of the inner loop; no other entry changes; a used mark
    is set for the chosen atom and none is cleared. *)
Lemma outerStep_inv (k : nat) (st : list Z * list bool) :
  (k < nA)%nat -> loopInv nA nB k st ->
  let st' := outerStep ea eb adjA adjB nB st k in
  loopInv nA nB (S k) st'
  /\ (forall i, i <> k -> nth i (fst st') (-1)%Z = nth i (fst st) (-1)%Z)
  /\ (exists best, bestUpTo (candOf st k) (scoreIn st k) nB best
                    /\ nth k (fst st') (-1)%Z = fst best)
  /\ (forall j, nth j (snd st) false = true -> nth j (snd st') false = true)
  /\ (forall j, nth k (fst st') (-1)%Z = Z.of_nat j ->
                 nth j (snd st') false = true).
Proof.
  intros Hk [Hl1 [Hl2 [Hrest [Hrange [Hused Hinj]]]]].
  destruct st as [mapping usedB]. cbn [fst snd] in *.
  pose proof (inner_loop ea eb (nth k adjA []) adjB k mapping usedB nB) as Hbest.
  destruct Hbest as [[Hb Hno]|[j0 [Hj0 [Hc0 [Hb Hmax]]]]].
  - (* no candidate *)
    assert (Hst : outerStep ea eb adjA adjB nB (mapping, usedB) k
                  = (mapping, usedB))
      by (unfold outerStep; rewrite Hb; reflexivity).
    rewrite Hst. cbn [fst snd].
    split; [|split; [|split; [|split]]].
    + repeat split; cbn [fst snd]; auto.
      * intros i Hi. apply Hrest. lia.
      * apply Hrange.
      * apply Hrange.
      * intros Hu. apply Hused in Hu; [|assumption].
        destruct Hu as [i [Hi He]]. exists i. split; [lia|assumption].
      * intros [i [Hi He]]. apply Hused; [assumption|].
        exists i. split; [|assumption].
        destruct (Nat.eq_dec i k) as [->|Hne]; [|lia].
        rewrite Hrest in He by lia. lia.
      * intros i i' Hi Hi' Hne Hd.
        destruct (Nat.eq_dec i k) as [->|Hik];
          [rewrite Hrest in Hd by lia; congruence|].
        destruct (Nat.eq_dec i' k) as [Heq|Hi'k].
        -- rewrite Heq, (Hrest k) by lia. exact Hd.
        -- apply Hinj; auto; lia.
    + reflexivity.
    + exists ((-1)%Z, (-1)%Z). split.
      * left. split; [reflexivity|]. unfold candOf. cbn [snd]. exact Hno.
      * cbn [fst]. apply Hrest. lia.
    + auto.
    + intros j Hj. rewrite Hrest in Hj by lia. lia.
  - (* atom j0 chosen *)
    assert (Hst : outerStep ea eb adjA adjB nB (mapping, usedB) k
                  = (update mapping k (fun _ => Z.of_nat j0),
                     update usedB j0 (fun _ => true))).
    { unfold outerStep. rewrite Hb. cbn [fst snd].
      destruct (Z.eqb_spec (Z.of_nat j0) (-1)) as [Hbad|_]; [lia|].
      now rewrite Nat2Z.id. }
    rewrite Hst. cbn [fst snd].
    assert (Hfree : nth j0 usedB false = false).
    { unfold innerCand in Hc0. apply andb_true_iff in Hc0.
      destruct Hc0 as [Hc0 _]. now apply negb_true_iff in Hc0. }
    assert (Hnew : nth k (update mapping k (fun _ => Z.of_nat j0)) (-1)%Z
                   = Z.of_nat j0) by (apply nth_update_eq; lia).
    assert (Hold : forall i, i <> k ->
               nth i (update mapping k (fun _ => Z.of_nat j0)) (-1)%Z
               = nth i mapping (-1)%Z)
      by (intros i Hi; now apply nth_update_neq).
    split; [|split; [|split; [|split]]].
    + repeat split; cbn [fst snd].
      * now rewrite update_length.
      * now rewrite update_length.
      * intros i Hi. rewrite Hold by lia. apply Hrest. lia.
      * destruct (Nat.eq_dec i k) as [->|Hne];
          [rewrite Hnew; lia | rewrite Hold by assumption; apply Hrange].
      * destruct (Nat.eq_dec i k) as [->|Hne];
          [rewrite Hnew; lia | rewrite Hold by assumption; apply Hrange].
      * intros Hu. destruct (Nat.eq_dec j j0) as [->|Hne].
        -- exists k. split; [lia|assumption].
        -- rewrite nth_update_neq in Hu by assumption.
           apply Hused in Hu; [|assumption].
           destruct Hu as [i [Hi He]]. exists i. split; [lia|].
           rewrite Hold by lia. assumption.
      * intros [i [Hi He]]. destruct (Nat.eq_dec j j0) as [->|Hne].
        -- apply nth_update_eq. lia.
        -- rewrite nth_update_neq by assumption.
           apply Hused; [assumption|].
           destruct (Nat.eq_dec i k) as [->|Hik]; [rewrite Hnew in He; lia|].
           exists i. split; [lia|]. now rewrite Hold in He.
      * intros i i' Hi Hi' Hne Hd.
        destruct (Nat.eq_dec i k) as [Heq|Hik];
          destruct (Nat.eq_dec i' k) as [Heq'|Hi'k]; try congruence.
        -- rewrite Heq, Hnew, Hold by assumption. intros He.
           assert (Hu : nth j0 usedB false = true).
           { apply Hused; [assumption|]. exists i'. split; [lia|congruence]. }
           congruence.
        -- rewrite Heq', Hnew, Hold by assumption. intros He.
           assert (Hu : nth j0 usedB false = true).
           { apply Hused; [assumption|]. exists i. split; [lia|congruence]. }
           congruence.
        -- rewrite !Hold by assumption. rewrite Hold in Hd by assumption.
           apply Hinj; auto; lia.
    + exact Hold.
    + exists (Z.of_nat j0, scoreIn (mapping, usedB) k j0). split.
      * right. exists j0. unfold candOf, scoreIn. cbn [fst snd].
        repeat split; auto; now apply Hmax.
      * exact Hnew.
    + intros j Hj. destruct (Nat.eq_dec j j0) as [->|Hne]; [congruence|].
      now rewrite nth_update_neq.
    + intros j Hj. rewrite Hnew in Hj. apply Nat2Z.inj in Hj. subst j.
      apply nth_update_eq. lia.
Qed.

Lemma mappingLoop_S (k : nat) :
  mappingLoop ea eb adjA adjB nA nB (S k)
  = outerStep ea eb adjA adjB nB (mappingLoop ea eb adjA adjB nA nB k) k.
Proof. unfold mappingLoop. now rewrite seq_S, fold_left_app. Qed.

Lemma mappingLoop_inv (k : nat) :
  (k <= nA)%nat -> loopInv nA nB k (mappingLoop ea eb adjA adjB nA nB k).
Proof.
  induction k as [|k IH]; intros Hk.
  - unfold mappingLoop, loopInv. cbn [seq fold_left fst snd].
    rewrite !repeat_length.
    split; [reflexivity|]. split; [reflexivity|].
    split; [intros i _; apply nth_repeat|].
    split; [intros i; rewrite nth_repeat; lia|].
    split.
    + intros j Hj. rewrite nth_repeat. split; [discriminate|].
      intros [i [Hi _]]. lia.
    + intros i i' Hi. lia.
  - rewrite mappingLoop_S. apply outerStep_inv; [lia|]. apply IH. lia.
Qed.

(** An entry keeps the value it was given in the round of its atom. *)
Lemma mappingLoop_stable (i k k' : nat) :
  (i < k)%nat -> (k <= k')%nat -> (k' <= nA)%nat ->
  nth i (fst (mappingLoop ea eb adjA adjB nA nB k')) (-1)%Z
  = nth i (fst (mappingLoop ea eb adjA adjB nA nB k)) (-1)%Z.
Proof.
  intros Hi Hk. induction Hk as [|k' Hk IH]; intros Hn; [reflexivity|].
  rewrite mappingLoop_S.
  destruct (@outerStep_inv k' (mappingLoop ea eb adjA adjB nA nB k'))
    as [_ [Hsame _]]; [lia | apply mappingLoop_inv; lia |].
  rewrite Hsame by lia. apply IH. lia.
Qed.

(** A used mark is never cleared. *)
Lemma usedB_stable (j k k' : nat) :
  (k <= k')%nat -> (k' <= nA)%nat ->
  nth j (snd (mappingLoop ea eb adjA adjB nA nB k)) false = true ->
  nth j (snd (mappingLoop ea eb adjA adjB nA nB k')) false = true.
Proof.
  intros Hk. induction Hk as [|k' Hk IH]; intros Hn Hu; [assumption|].
  rewrite mappingLoop_S.
  destruct (@outerStep_inv k' (mappingLoop ea eb adjA adjB nA nB k'))
    as [_ [_ [_ [Hmono _]]]]; [lia | apply mappingLoop_inv; lia |].
  apply Hmono, IH; [lia|assumption].
Qed.

End Loops.

Lemma sameTag_eq (ea eb : list nat) (i j : nat) :
  sameTag ea eb i j = true <-> nth_error ea i = nth_error eb j.
Proof.
  unfold sameTag.
  destruct (nth_error ea i) as [a|], (nth_error eb j) as [b|];
    try (split; [discriminate|congruence]); [|tauto].
  rewrite Nat.eqb_eq. split; congruence.
Qed.

Lemma existsb_of_nat (l : list nat) (m : Z) :
  (0 <= m)%Z ->
  existsb (fun x => (Z.of_nat x =? m)%Z) l = true <-> In (Z.to_nat m) l.
Proof.
  intros Hm. rewrite existsb_exists. split.
  - intros [x [Hx He]]. apply Z.eqb_eq in He. subst m.
    now rewrite Nat2Z.id.
  - intros H. exists (Z.to_nat m). split; [assumption|].
    apply Z.eqb_eq. lia.
Qed.

(** The score the loop computes for candidate [j] is the number of
    neighbours of [i] with a lower index that are mapped to a neighbour of
    [j]. *)
Lemma scoreOf_agreement (molA molB : Molecule) (adjA adjB : list (list nat))
      (mp final : list Z) (i j : nat) :
  adjacency (bonds molA) (length (atoms molA)) = inr adjA ->
  adjacency (bonds molB) (length (atoms molB)) = inr adjB ->
  (forall nei, (nei < i)%nat -> nth nei mp (-1)%Z = nth nei final (-1)%Z) ->
  (forall nei, (-1 <= nth nei mp (-1))%Z) ->
  scoreOf (nth i adjA []) i mp (nth j adjB [])
  = Z.of_nat (agreement molA molB final i j).
Proof.
  intros HA HB Hsame Hrange.
  apply adjacency_spec in HA, HB.
  destruct HA as [_ [HinA HndA]], HB as [_ [HinB _]].
  rewrite scoreOf_count. f_equal. unfold agreement.
  apply Permutation_length, NoDup_Permutation.
  - apply NoDup_filter, HndA.
  - apply NoDup_filter, seq_NoDup.
  - intros nei. rewrite !filter_In, in_seq. unfold scoreTest. cbv zeta.
    rewrite !andb_true_iff, Nat.ltb_lt, !negb_true_iff, !Z.eqb_neq, HinA.
    split.
    + intros [Hb [[Hlt Hm] He]].
      rewrite <- Hsame by assumption.
      rewrite existsb_of_nat in He by (specialize (Hrange nei); lia).
      apply HinB in He. repeat split; auto; lia.
    + intros [[_ Hlt] [[Hb Hm] He]]. cbn [Nat.add] in Hlt.
      rewrite <- Hsame in Hm, He by assumption.
      repeat split; auto.
      rewrite existsb_of_nat by (specialize (Hrange nei); lia).
      now apply HinB.
Qed.

Lemma bestUpTo_greedy (cand : nat -> bool) (score : nat -> Z) (nB : nat)
      (best : Z * Z) (P : nat -> Prop) (agr : nat -> nat) (entry : Z) :
  bestUpTo cand score nB best -> entry = fst best ->
  (forall j, P j <-> ((j < nB)%nat /\ cand j = true)) ->
  (forall j, score j = Z.of_nat (agr j)) ->
  (entry = (-1)%Z <-> forall j, ~ P j)
  /\ (forall j, entry = Z.of_nat j ->
        P j /\ forall j', P j' ->
                 (agr j' <= agr j)%nat /\ (agr j' = agr j -> (j <= j')%nat)).
Proof.
  intros [[Hb Hno]|[j0 [Hj0 [Hc0 [Hb Hmax]]]]] He HP Hs;
    rewrite Hb in He; cbn [fst] in He; subst entry.
  - split.
    + split; [|reflexivity]. intros _ j Hj. apply HP in Hj.
      destruct Hj as [Hj Hc]. rewrite Hno in Hc by assumption. discriminate.
    + intros j Hj. lia.
  - split.
    + split; [lia|]. intros Hnone. exfalso. apply (Hnone j0), HP. now split.
    + intros j Hj. apply Nat2Z.inj in Hj. subst j0.
      split; [apply HP; now split|].
      intros j' Hj'. apply HP in Hj'. destruct Hj' as [Hlt Hc].
      destruct (Hmax j' Hlt Hc) as [Hle Hmin]. rewrite !Hs in Hle, Hmin.
      split; [lia|]. intros Heq. apply Hmin. now rewrite Heq.
Qed.

(** C2.  The map returned by [computeAtomMapping] has one entry per atom
    of A, and every entry obeys the greedy rule read on the entries below
    it: entry [i] is -1 exactly when no B atom that is unused (not given to
    an atom below [i]) carries the element tag of [i]; otherwise it is such
    a candidate [j] whose score (the number of neighbours of [i] with a
    lower index that are mapped to a neighbour of [j]) is highest, and the
    smallest index among the candidates of that score.  The loop is a
    single pass: in every later round the entry of atom [i] already has
    its final value, and the B atom chosen for it is marked used. *)
Theorem C2_greedy_single_pass (molA molB : Molecule) (mapping : list Z) :
  computeAtomMapping molA molB = inr mapping ->
  length mapping = length (atoms molA)
  /\ (forall i, (i < length (atoms molA))%nat ->
        (-1 <= nth i mapping (-1))%Z /\ greedyChoice molA molB mapping i)
  /\ exists adjA adjB,
       adjacency (bonds molA) (length (atoms molA)) = inr adjA
       /\ adjacency (bonds molB) (length (atoms molB)) = inr adjB
       /\ forall i k, (i < k)%nat -> (k <= length (atoms molA))%nat ->
            let st := mappingLoop (elementIndexes molA) (elementIndexes molB)
                                  adjA adjB (length (atoms molA))
                                  (length (atoms molB)) k in
            nth i (fst st) (-1)%Z = nth i mapping (-1)%Z
            /\ forall j, nth i mapping (-1)%Z = Z.of_nat j ->
                         nth j (snd st) false = true.
Proof.
  unfold computeAtomMapping.
  destruct (adjacency (bonds molA) (length (atoms molA))) as [e|adjA] eqn:HA;
    [discriminate|].
  destruct (adjacency (bonds molB) (length (atoms molB))) as [e|adjB] eqn:HB;
    [discriminate|].
  intros H. injection H as <-.
  set (nA := length (atoms molA)) in *. set (nB := length (atoms molB)) in *.
  set (ea := elementIndexes molA). set (eb := elementIndexes molB).
  set (loop := mappingLoop ea eb adjA adjB nA nB).
  assert (Hinv : forall k, (k <= nA)%nat -> loopInv nA nB k (loop k))
    by (intros k Hk; now apply mappingLoop_inv).
  assert (Hstable : forall i k, (i < k)%nat -> (k <= nA)%nat ->
             nth i (fst (loop k)) (-1)%Z = nth i (fst (loop nA)) (-1)%Z).
  { intros i k Hi Hk. symmetry. now apply mappingLoop_stable. }
  split; [apply (Hinv nA (le_n nA))|]. split.
  - intros i Hi.
    destruct (Hinv i) as [_ [_ [_ [Hrange [Hused _]]]]]; [lia|].
    destruct (Hinv nA (le_n nA)) as [_ [_ [_ [HrangeN _]]]].
    split; [apply HrangeN|].
    destruct (@outerStep_inv ea eb adjA adjB nA nB i (loop i))
      as [_ [_ [[best [Hbest Hentry]] _]]]; [assumption | apply Hinv; lia |].
    fold (loop i) in Hentry. unfold loop in Hentry.
    rewrite <- mappingLoop_S in Hentry. fold loop in Hentry.
    rewrite (Hstable i (S i)) in Hentry by lia.
    apply (@bestUpTo_greedy _ _ _ _
             (candidate molA molB (fst (loop nA)) i)
             (agreement molA molB (fst (loop nA)) i) _ Hbest Hentry).
    + intros j. unfold candidate, innerCand. fold nB ea eb.
      rewrite andb_true_iff, negb_true_iff, sameTag_eq.
      split.
      * intros [Hj [Htaken Htag]]. repeat split; auto.
        destruct (nth j (snd (loop i)) false) eqn:Hu; [|reflexivity].
        exfalso. apply Htaken. apply Hused in Hu; [|assumption].
        destruct Hu as [k [Hk He]]. exists k. split; [assumption|].
        rewrite <- (Hstable k i) by lia. exact He.
      * intros [Hj [Hu Htag]]. repeat split; auto.
        intros [k [Hk He]].
        assert (Hu' : nth j (snd (loop i)) false = true).
        { apply Hused; [assumption|]. exists k. split; [assumption|].
          rewrite (Hstable k i) by lia. assumption. }
        congruence.
    + intros j. apply scoreOf_agreement; auto.
      * intros nei Hnei. apply Hstable; lia.
      * intros nei. apply Hrange.
  - exists adjA, adjB. split; [reflexivity|]. split; [reflexivity|].
    intros i k Hi Hk. fold ea eb loop. cbv zeta. split.
    + now apply Hstable.
    + intros j Hj.
      apply (@usedB_stable ea eb adjA adjB nA nB j (S i) k); [lia|lia|].
      destruct (@outerStep_inv ea eb adjA adjB nA nB i (loop i))
        as [_ [_ [_ [_ Hmark]]]]; [lia | apply Hinv; lia |].
      unfold loop in Hmark. rewrite <- mappingLoop_S in Hmark.
      fold loop in Hmark. apply Hmark.
      rewrite (Hstable i (S i)) by lia. exact Hj.
Qed.

(** Entries of the map are -1 or indices of atoms of B. *)
Lemma mappingLoop_range (molA molB : Molecule) (mapping : list Z) (i : nat) :
  computeAtomMapping molA molB = inr mapping ->
  (-1 <= nth i mapping (-1) < Z.of_nat (length (atoms molB)))%Z.
Proof.
  unfold computeAtomMapping.
  destruct (adjacency (bonds molA) (length (atoms molA))) as [e|adjA];
    [discriminate|].
  destruct (adjacency (bonds molB) (length (atoms molB))) as [e|adjB];
    [discriminate|].
  intros H. injection H as <-.
  apply (mappingLoop_inv (elementIndexes molA) (elementIndexes molB) adjA adjB
           (length (atoms molB)) (le_n (length (atoms molA)))).
Qed.

(** C3.  For molecules whose bonds join atoms of the molecule,
    [computeAtomMapping] returns a map with one entry per atom of A, and no
    two defined entries of it are equal. *)
Theorem C3_mapping_injective (molA molB : Molecule) :
  validBonds molA -> validBonds molB ->
  exists mapping,
    computeAtomMapping molA molB = inr mapping
    /\ length mapping = length (atoms molA)
    /\ injectiveOnDefined mapping.
Proof.
  intros HvA HvB.
  destruct (@adjacency_total _ _ HvA) as [adjA HA].
  destruct (@adjacency_total _ _ HvB) as [adjB HB].
  unfold computeAtomMapping. rewrite HA, HB.
  eexists. split; [reflexivity|].
  destruct (mappingLoop_inv (elementIndexes molA) (elementIndexes molB)
              adjA adjB (length (atoms molB)) (le_n (length (atoms molA))))
    as [Hlen [_ [_ [_ [_ Hinj]]]]].
  split; [exact Hlen|].
  intros i k Hi Hk Hne Hdi _. rewrite Hlen in Hi, Hk. now apply Hinj.
Qed.

End ResolverFacts.

(** * The parser and the sequence builder *)

Module ParserFacts.

Import Text Parser Examples.
#[local] Existing Instance Binary64.

Lemma normalize_length {N : Number} (ats : list Vec3) :
  length (normalize ats) = length ats.
Proof.
  unfold normalize. destruct ats as [|a rest]; [reflexivity|].
  apply length_map.
Qed.

Lemma alignStep_length {N : Number} (ats ats' : list Vec3)
      (pairs : list (Vec3 * Vec3)) (rnd : nat -> num) :
  alignStep ats pairs rnd = inr ats' -> length ats' = length ats.
Proof.
  unfold alignStep. destruct (3 <=? length pairs)%nat.
  - destruct (computeAlignment _ _ rnd); [discriminate|].
    intros H. injection H as <-. apply length_map.
  - intros H. now injection H as <-.
Qed.

(** The bond lines of a record: the lines after the atom lines, as many
    as the second number of the count line says. *)
Lemma parseSdf_shape (sdf : string) (p : Parsed) :
  parseSdf sdf = inr p ->
  let countLine := words (trim (nth 3 (lines sdf) EmptyString)) in
  let atomCount := parseIntOpt (nth_error countLine 0) in
  let bondCount := parseIntOpt (nth_error countLine 1) in
  length (pAtoms p) = length (pElementIndexes p)
  /\ (0 < length (pAtoms p))%nat
  /\ pBonds p
     = map bondOfLine
           (slice (lines sdf) (addInt (Some 4%Z) atomCount)
                  (addInt (addInt (Some 4%Z) atomCount) bondCount)).
Proof.
  unfold parseSdf.
  destruct (length (lines sdf) <? 4)%nat; [discriminate|].
  set (atomsRaw := filter coordsOk _).
  set (bondLines := slice _ _ _).
  destruct atomsRaw as [|a0 raws]; [discriminate|].
  intros H. injection H as <-. cbn [pAtoms pElementIndexes pBonds].
  cbn [length]. rewrite !length_map. repeat split. lia.
Qed.

(** Counterexample to C9 as stated: the first molecule of a sequence,
    parsed from a record whose bond lines read "1 1" and "1 5", is returned
    with a bond from atom 0 to itself and a bond to an atom 4 it does not
    have. *)
Lemma C9_counterexample_unchecked_bonds :
  ~ (forall (source : Source) (rnd : nat -> F64.t) (name : string)
            (previousMol : option Molecule) (mol : Molecule),
       getMoleculePoints source rnd name previousMol = inr mol ->
       length (atoms mol) = length (elementIndexes mol)
       /\ Forall (properBond (length (atoms mol))) (bonds mol)).
Proof.
  intros H.
  destruct (getMoleculePoints library (noDraws 0) "odd" None) as [e|mol] eqn:E;
    [apply (f_equal (fun x => match x with inl _ => true | inr _ => false end))
       in E; discriminate E|].
  assert (Hb : match getMoleculePoints library (noDraws 0) "odd" None with
               | inr m => bonds m
               | inl _ => []
               end = [mkBond (Some 0%Z) (Some 0%Z) (Some 1%Z);
                      mkBond (Some 0%Z) (Some 4%Z) (Some 1%Z)])
    by reflexivity.
  assert (Hn : match getMoleculePoints library (noDraws 0) "odd" None with
               | inr m => length (atoms m)
               | inl _ => O
               end = 2%nat) by reflexivity.
  rewrite E in Hb, Hn.
  destruct (H _ _ _ _ _ E) as [_ Hall].
  rewrite Hb, Hn in Hall. inversion Hall as [|b bs Hfirst _]; subst.
  destruct Hfirst as [f [t [Hf [Ht Hne]]]].
  cbn in Hf, Ht. congruence.
Qed.

(** C9, amended.  A molecule returned by [getMoleculePoints] has at least
    one atom and as many element indices as atoms.  Its bonds are, one for
    one and in order, the bond lines of the record that the source
    delivered for the name (the lines that follow the atom lines, as many
    as the count line declares): [from] and [to] are the integers that
    [parseInt] reads in the first and the second three columns of the
    line, lowered by one, and [type] the integer in the third.  They are
    neither checked against the atom list nor for [from != to].  Only a
    molecule built against a predecessor is known to have valid bond ends,
    since [computeAtomMapping] throws otherwise. *)
Theorem C9_parsed_molecule_shape
        (source : Source) (rnd : nat -> F64.t) (name : string)
        (previousMol : option Molecule) (mol : Molecule) :
  getMoleculePoints source rnd name previousMol = inr mol ->
  length (atoms mol) = length (elementIndexes mol)
  /\ (0 < length (atoms mol))%nat
  /\ (exists sdf : string,
        source name = inr sdf
        /\ let countLine := words (trim (nth 3 (lines sdf) EmptyString)) in
           let atomCount := parseIntOpt (nth_error countLine 0) in
           let bondCount := parseIntOpt (nth_error countLine 1) in
           bonds mol
           = map (fun line =>
                    mkBond (addInt (parseInt (substr line 0 3)) (Some (-1)%Z))
                           (addInt (parseInt (substr line 3 3)) (Some (-1)%Z))
                           (parseInt (substr line 6 3)))
                 (slice (lines sdf) (addInt (Some 4%Z) atomCount)
                        (addInt (addInt (Some 4%Z) atomCount) bondCount)))
  /\ (previousMol <> None -> validBonds mol).
Proof.
  unfold getMoleculePoints.
  destruct (source name) as [e|sdf]; [discriminate|].
  destruct (parseSdf sdf) as [e|p] eqn:Ep; [discriminate|].
  destruct (parseSdf_shape _ Ep) as [Hlen [Hpos Hbonds]].
  destruct previousMol as [prev|].
  - destruct (computeAtomMapping _ prev) as [e|mapping] eqn:Em; [discriminate|].
    destruct (@alignStep Binary64 _ _ rnd) as [e|ats] eqn:Ea; [discriminate|].
    intros H. injection H as <-.
    cbn [atoms elementIndexes bonds].
    apply alignStep_length in Ea.
    rewrite normalize_length, Ea.
    split; [exact Hlen|]. split; [exact Hpos|].
    split; [exists sdf; split; [reflexivity|exact Hbonds]|]. intros _.
    unfold validBonds. cbn [atoms bonds]. rewrite normalize_length, Ea.
    unfold computeAtomMapping in Em. cbn [atoms bonds] in Em.
    destruct (adjacency (pBonds p) (length (pAtoms p))) as [e|adjA] eqn:HA;
      [discriminate|].
    clear - HA. unfold adjacency in HA.
    revert HA. generalize (repeat (@nil nat) (length (pAtoms p))).
    induction (pBonds p) as [|b bs IH]; intros acc HA; [constructor|].
    cbn [fold_left] in HA. unfold adjacencyStep at 2 in HA.
    destruct (validIndex (length (pAtoms p)) (from b)) eqn:Ef;
      [|rewrite adjacency_inl in HA; discriminate].
    destruct (validIndex (length (pAtoms p)) (to b)) eqn:Et;
      [|rewrite adjacency_inl in HA; discriminate].
    constructor; [split; congruence|]. now apply IH in HA.
  - intros H. injection H as <-.
    cbn [atoms elementIndexes bonds]. rewrite normalize_length.
    split; [exact Hlen|]. split; [exact Hpos|].
    split; [exists sdf; split; [reflexivity|exact Hbonds]|]. congruence.
Qed.

End ParserFacts.

Lemma C9_parsed_molecule_shape_witness :
  exists mol,
    Parser.getMoleculePoints Examples.library (Examples.noDraws 0) "odd" None
    = inr mol
    /\ length (atoms mol) = length (elementIndexes mol)
    /\ exists sdf,
         Examples.library "odd"%string = inr sdf
         /\ bonds mol
            = map Parser.bondOfLine
                  (Text.slice (Text.lines sdf) (Some 6%Z) (Some 8%Z)).
Proof.
  destruct (Parser.getMoleculePoints Examples.library (Examples.noDraws 0)
              "odd" None) as [e|mol] eqn:E;
    [apply (f_equal (fun x => match x with inl _ => true | inr _ => false end))
       in E; discriminate E|].
  exists mol. split; [reflexivity|].
  destruct (@ParserFacts.C9_parsed_molecule_shape
              Examples.library (Examples.noDraws 0) "odd" None mol E)
    as [Hlen [_ [[sdf [Hsrc Hb]] _]]].
  split; [exact Hlen|]. exists sdf. split; [exact Hsrc|].
  injection Hsrc as <-. exact Hb.
Defined.

Module LoaderFacts.

Import Text Parser Examples.
#[local] Existing Instance Binary64.

Lemma lastPushed_app (sets : list Molecule) (mol : Molecule) :
  lastPushed (sets ++ [mol]) = Some mol.
Proof. unfold lastPushed. rewrite map_app. cbn [map]. apply last_last. Qed.

(** The loop over a list of names followed by more names: it goes through
    the first names and, when none of them is rejected, carries on with the
    rest from the molecules pushed so far. *)
Lemma loadLoop_app (source : Source) (rnd : nat -> nat -> F64.t)
      (names1 names2 : list string) :
  forall (k : nat) (prev : option Molecule) (sets : list Molecule),
    loadLoop source rnd (names1 ++ names2) k prev sets
    = match loadLoop source rnd names1 k prev sets with
      | (sets', Some e) => (sets', Some e)
      | (sets', None) =>
          loadLoop source rnd names2 (k + length names1)
                   (match names1 with [] => prev | _ => lastPushed sets' end)
                   sets'
      end.
Proof.
  induction names1 as [|name names1 IH]; intros k prev sets.
  - cbn [app loadLoop length]. now rewrite Nat.add_0_r.
  - cbn [app loadLoop length].
    destruct (getMoleculePoints source (rnd k) name prev) as [e|mol];
      [reflexivity|].
    rewrite IH.
    destruct (loadLoop source rnd names1 (S k) (Some mol) (sets ++ [mol]))
      as [sets' [e|]] eqn:E; [reflexivity|].
    replace (S k + length names1)%nat with (k + S (length names1))%nat by lia.
    f_equal. destruct names1 as [|n1 names1]; [|reflexivity].
    cbn [loadLoop] in E. injection E as <-. now rewrite lastPushed_app.
Qed.

(** Counterexample to C6 as stated: a record with no atoms in the middle of
    the list is not skipped; the loader stops there and the record after it
    is never built. *)
Lemma C6_counterexample_loader_stops :
  ~ (forall (source : Source) (rnd : nat -> nat -> F64.t)
            (names1 names2 : list string) (bad : string),
       (forall r prev, getMoleculePoints source r bad prev
                       = inl (ErrorMsg "Parsed zero atoms")) ->
       loadMoleculesOnce source rnd [] (names1 ++ bad :: names2)
       = loadMoleculesOnce source rnd [] (names1 ++ names2)).
Proof.
  intros H.
  specialize (H library noDraws ["water"%string] ["water"%string] "void"%string).
  assert (Hbad : forall r prev, getMoleculePoints library r "void" prev
                                = inl (ErrorMsg "Parsed zero atoms"))
    by reflexivity.
  specialize (H Hbad).
  apply (f_equal (fun r => (length (fst r), snd r))) in H.
  cbn [app] in H.
  assert (Hl : (length (fst (loadMoleculesOnce library noDraws []
                               ["water"; "void"; "water"]%string)),
                snd (loadMoleculesOnce library noDraws []
                       ["water"; "void"; "water"]%string))
               = (1%nat, Some (ErrorMsg "Parsed zero atoms")))
    by reflexivity.
  assert (Hr : (length (fst (loadMoleculesOnce library noDraws []
                               ["water"; "water"]%string)),
                snd (loadMoleculesOnce library noDraws []
                       ["water"; "water"]%string))
               = (2%nat, None)) by reflexivity.
  rewrite Hl, Hr in H. discriminate H.
Qed.

(** C6, amended.  When the record of one element is rejected (a record
    that parses to zero atoms raises the error "Parsed zero atoms"),
    [loadMoleculesOnce] stops at that element and the rejection escapes:
    [POSITION_SETS] holds the molecules built before it, and neither the
    failing element nor any element after it is built. *)
Theorem C6_loader_stops_at_failure
        (source : Source) (rnd : nat -> nat -> F64.t)
        (names1 names2 : list string) (bad : string)
        (sets : list Molecule) (e : Thrown) :
  loadMoleculesOnce source rnd [] names1 = (sets, None) ->
  getMoleculePoints source (rnd (length names1)) bad (lastPushed sets)
  = inl e ->
  loadMoleculesOnce source rnd [] (names1 ++ bad :: names2)
  = (sets, Some e)
  /\ (forall sdf, source bad = inr sdf ->
        parseSdf sdf = inl (ErrorMsg "Parsed zero atoms") ->
        e = ErrorMsg "Parsed zero atoms").
Proof.
  unfold loadMoleculesOnce. intros Hload Hbad. split.
  - rewrite loadLoop_app, Hload. cbn [loadLoop Nat.add].
    replace (match names1 with [] => None | _ :: _ => lastPushed sets end)
      with (lastPushed sets).
    + now rewrite Hbad.
    + destruct names1; [|reflexivity].
      cbn [loadLoop] in Hload. now injection Hload as <-.
  - intros sdf Hs Hp. unfold getMoleculePoints in Hbad.
    rewrite Hs, Hp in Hbad. now injection Hbad as <-.
Qed.

End LoaderFacts.

Lemma C6_loader_stops_at_failure_witness :
  exists sets,
    Parser.loadMoleculesOnce Examples.library Examples.noDraws []
      ["water"; "void"; "water"]%string
    = (sets, Some (ErrorMsg "Parsed zero atoms"))
    /\ length sets = 1%nat.
Proof.
  destruct (Parser.loadMoleculesOnce Examples.library Examples.noDraws []
              ["water"%string]) as [sets r] eqn:E.
  assert (Hr : snd (Parser.loadMoleculesOnce Examples.library Examples.noDraws
                      [] ["water"%string]) = None)
    by (vm_compute; reflexivity).
  assert (Hn : length (fst (Parser.loadMoleculesOnce Examples.library
                              Examples.noDraws [] ["water"%string])) = 1%nat)
    by (vm_compute; reflexivity).
  rewrite E in Hr, Hn. cbn [fst snd] in Hr, Hn. subst r.
  exists sets. split; [|exact Hn].
  apply (@LoaderFacts.C6_loader_stops_at_failure
           Examples.library Examples.noDraws ["water"%string] ["water"%string]
           "void"%string sets (ErrorMsg "Parsed zero atoms") E).
  reflexivity.
Defined.

(** * The transition controllers *)

Module SpriteFacts.

Import SpriteViewer.

Section Facts.

Context {N : Number}.

Lemma forEachFrom_ok {A : Type} (f : nat -> A -> A * option Thrown) :
  forall (l : list A) (i : nat),
    (forall k x, snd (f k x) = None) ->
    exists l',
      forEachFrom f i l = (l', None)
      /\ length l' = length l
      /\ forall k x, nth_error l k = Some x ->
                     nth_error l' k = Some (fst (f (i + k)%nat x)).
Proof.
  induction l as [|x l IH]; intros i Hf.
  - exists []. repeat split; auto. intros [|k] y; discriminate.
  - cbn [forEachFrom]. destruct (f i x) as [y [e|]] eqn:E.
    + specialize (Hf i x). rewrite E in Hf. discriminate.
    + destruct (IH (S i) Hf) as [l' [Hl' [Hlen Hnth]]]. rewrite Hl'.
      exists (y :: l'). split; [reflexivity|]. split; [simpl; lia|].
      intros [|k] z Hz; cbn [nth_error] in *.
      * injection Hz as <-. now rewrite Nat.add_0_r, E.
      * rewrite (Hnth k z Hz). do 3 f_equal. lia.
Qed.

Lemma atomAt_defined (ats : list Vec3) (v : Z) :
  (0 <= v < Z.of_nat (length ats))%Z -> atomAt ats v <> None.
Proof.
  intros Hv. unfold atomAt.
  destruct (Z.ltb_spec v 0); [lia|].
  apply nth_error_Some. lia.
Qed.

(** What the callback does to a sprite when the target can be drawn: the
    start is the position the sprite has now, the fade starts from its
    present opacity, and the sprite itself does not move. *)
Lemma retarget_reads_position (mol : Molecule) (i : nat) (s : Sprite) :
  drawable mol ->
  snd (retarget mol i s) = None
  /\ start (fst (retarget mol i s)) = position s
  /\ fadeStart (fst (retarget mol i s)) = opacity s
  /\ position (fst (retarget mol i s)) = position s
  /\ opacity (fst (retarget mol i s)) = opacity s.
Proof.
  intros [Hmap _]. unfold retarget.
  destruct (atomMapping mol) as [m|] eqn:Em.
  - specialize (Hmap m eq_refl).
    destruct (nth_error m i) as [v|] eqn:Ev.
    + assert (Hv : (-1 <= v)%Z).
      { rewrite Forall_forall in Hmap. apply Hmap.
        eapply nth_error_In; eassumption. }
      destruct (negb (v =? -1)%Z && (v <? Z.of_nat (length (atoms mol)))%Z)%bool
        eqn:Ec.
      * apply andb_true_iff in Ec. destruct Ec as [Hne Hlt].
        apply negb_true_iff, Z.eqb_neq in Hne. apply Z.ltb_lt in Hlt.
        destruct (atomAt (atoms mol) v) as [p|] eqn:Ea.
        -- repeat split.
        -- exfalso. apply (@atomAt_defined (atoms mol) v); [lia|assumption].
      * destruct (nth_error (atoms mol) i); repeat split.
    + destruct (nth_error (atoms mol) i); repeat split.
  - destruct (nth_error (atoms mol) i); repeat split.
Qed.

Lemma retargetLine_ok (mol : Molecule) (i : nat) (l : BondLine) :
  drawable mol -> snd (retargetLine mol i l) = None.
Proof.
  intros [_ Hb]. unfold retargetLine.
  destruct (nth_error (bonds mol) i) as [b|] eqn:Eb; [|reflexivity].
  unfold validBonds in Hb. rewrite Forall_forall in Hb.
  destruct (Hb b (nth_error_In _ _ Eb)) as [Hf Ht].
  destruct (validIndex (length (atoms mol)) (from b)) as [f|] eqn:Ef;
    [|congruence].
  destruct (validIndex (length (atoms mol)) (to b)) as [t|] eqn:Et;
    [|congruence].
  apply validIndex_Some in Ef, Et. destruct Ef as [Ef Hlf], Et as [Et Hlt].
  rewrite Ef, Et. unfold below, endpoint.
  destruct (Z.ltb_spec (Z.of_nat f) (Z.of_nat (length (atoms mol)))); [|lia].
  destruct (Z.ltb_spec (Z.of_nat t) (Z.of_nat (length (atoms mol)))); [|lia].
  cbn [andb].
  destruct (atomAt (atoms mol) (Z.of_nat f)) as [p|] eqn:Ep;
    [|exfalso; apply (@atomAt_defined (atoms mol) (Z.of_nat f)); [lia|assumption]].
  destruct (atomAt (atoms mol) (Z.of_nat t)) as [q|] eqn:Eq;
    [|exfalso; apply (@atomAt_defined (atoms mol) (Z.of_nat t)); [lia|assumption]].
  reflexivity.
Qed.

(** [transition] in the sprite viewer: every sprite starts the new
    transition from the position it has in the scene at the call, and
    progress is back at 0. *)
Lemma sprite_transition_reads_scene (idx : nat) (st : Viewer) (mol : Molecule) :
  nth_error (POSITION_SETS st) idx = Some mol -> drawable mol ->
  exists st',
    transition idx st = (st', None)
    /\ progress st' = zero /\ animating st' = true
    /\ forall i s,
         nth_error (sharedSprites st) i = Some s ->
         exists s',
           nth_error (sharedSprites st') i = Some s'
           /\ start s' = position s /\ fadeStart s' = opacity s
           /\ position s' = position s.
Proof.
  intros Hmol Hd. unfold transition. rewrite Hmol.
  destruct (@forEachFrom_ok Sprite (retarget mol) (sharedSprites st) 0)
    as [sprites [Hs [Hlen Hnth]]].
  { intros k x. now apply retarget_reads_position. }
  destruct (@forEachFrom_ok BondLine (retargetLine mol) (sharedBondLines st) 0)
    as [ls [Hl _]].
  { intros k x. now apply retargetLine_ok. }
  rewrite Hs, Hl. eexists. split; [reflexivity|].
  cbn [progress animating sharedSprites].
  split; [reflexivity|]. split; [reflexivity|].
  intros i s Hi. eexists. split; [apply (Hnth i s Hi)|].
  destruct (@retarget_reads_position mol (0 + i) s Hd) as [_ [H1 [H2 [H3 _]]]].
  auto.
Qed.

(** After a frame of a playing transition the position of a sprite is the
    interpolation between its start and its target at the eased factor. *)
Lemma sprite_animate_interpolates (st : Viewer) (i : nat) (s : Sprite) :
  animating st = true ->
  nth_error (sharedSprites st) i = Some s ->
  exists s1,
    nth_error (sharedSprites (animate st)) i = Some s1
    /\ position s1
       = lerpVectors (start s) (target s) (ease (advance (progress st))).
Proof.
  intros Ha Hs. unfold animate. rewrite Ha. cbn [sharedSprites].
  rewrite nth_error_map, Hs. cbn [option_map]. eexists. split; reflexivity.
Qed.

End Facts.

End SpriteFacts.

Module MeshFacts.

Import MeshViewer.

Section Facts.

Context {N : Number}.

(** The loop "Save current positions" in closed form. *)
Lemma saveStarts_fold (m : Slots) (n : nat) :
  let m' := fold_left
              (fun m i => mkSlots (el m) (capacity m) (count m)
                                  (instancePosition m)
                                  (setAt (atomStart m) i
                                         (Some (getPosition m i)))
                                  (atomTarget m))
              (seq 0 n) m in
  el m' = el m /\ capacity m' = capacity m /\ count m' = count m
  /\ instancePosition m' = instancePosition m
  /\ atomTarget m' = atomTarget m
  /\ forall i, atomStart m' i
               = if (i <? n)%nat then Some (getPosition m i)
                 else atomStart m i.
Proof.
  induction n as [|n IH].
  - cbn. repeat split.
  - rewrite seq_S, fold_left_app. cbn [fold_left Nat.add].
    destruct IH as [He [Hk [Hc [Hp [Ht Hs]]]]].
    set (m1 := fold_left _ (seq 0 n) m) in *.
    cbn [el capacity count instancePosition atomTarget atomStart].
    repeat split; auto. intros i. unfold setAt, getPosition.
    rewrite Hp, Hk.
    destruct (Nat.eqb_spec i n) as [->|Hne].
    + now rewrite (proj2 (Nat.ltb_lt n (S n))) by lia.
    + rewrite Hs. destruct (Nat.ltb_spec i n), (Nat.ltb_spec i (S n));
        try reflexivity; lia.
Qed.

Lemma saveStarts_spec (m : Slots) :
  el (saveStarts m) = el m /\ capacity (saveStarts m) = capacity m
  /\ count (saveStarts m) = count m
  /\ instancePosition (saveStarts m) = instancePosition m
  /\ atomTarget (saveStarts m) = atomTarget m
  /\ forall i, (i < count m)%nat ->
               atomStart (saveStarts m) i = Some (getPosition m i).
Proof.
  destruct (saveStarts_fold m (count m)) as [He [Hk [Hc [Hp [Ht Hs]]]]].
  unfold saveStarts. repeat split; auto. intros i Hi.
  rewrite Hs. now rewrite (proj2 (Nat.ltb_lt i (count m))).
Qed.

(** "Set target atoms" leaves [atomStart] and the capacity as they are. *)
Lemma setTargets_keeps_start (mol : Molecule) (m : Slots) :
  el (setTargets mol m) = el m
  /\ capacity (setTargets mol m) = capacity m
  /\ atomStart (setTargets mol m) = atomStart m.
Proof.
  unfold setTargets.
  set (step := fun (acc : Slots * nat) (i : nat) => _).
  assert (H : forall l acc,
             el (fst (fold_left step l acc)) = el (fst acc)
             /\ capacity (fst (fold_left step l acc)) = capacity (fst acc)
             /\ atomStart (fst (fold_left step l acc)) = atomStart (fst acc)).
  { induction l as [|i l IH]; intros acc; [repeat split; reflexivity|].
    cbn [fold_left]. destruct (IH (step acc i)) as [He [Hk Hs]].
    rewrite He, Hk, Hs. unfold step. destruct acc as [m0 id].
    destruct (shownAtom mol _ i); repeat split; reflexivity. }
  specialize (H (seq 0 maxPoints) (m, O)).
  destruct (fold_left step (seq 0 maxPoints) (m, O)) as [m' id].
  cbn [fst el capacity atomStart] in *. exact H.
Qed.

(** The loop "ATOMS - INTERPOLATE" in closed form: the vector of slot [i]
    is left in [atomStart] when the slot has a start, and goes to the
    instance buffer in single precision when the buffer has the slot. *)
Lemma interpolate_fold (t : num) (m : Slots) (n : nat) :
  let m' := fold_left
      (fun m i =>
         let pos := framePosition t m i in
         mkSlots (el m) (capacity m) (count m) (setMatrixAt m i pos)
                 (match atomStart m i with
                  | Some _ => setAt (atomStart m) i (Some pos)
                  | None => atomStart m
                  end)
                 (atomTarget m))
      (seq 0 n) m in
  el m' = el m /\ capacity m' = capacity m /\ count m' = count m
  /\ atomTarget m' = atomTarget m
  /\ (forall i, (n <= i)%nat ->
        atomStart m' i = atomStart m i
        /\ instancePosition m' i = instancePosition m i)
  /\ forall i, (i < n)%nat ->
       atomStart m' i
       = match atomStart m i with
         | Some _ => Some (framePosition t m i)
         | None => None
         end
       /\ instancePosition m' i
          = if (i <? capacity m)%nat then vmap fround (framePosition t m i)
            else instancePosition m i.
Proof.
  induction n as [|n IH].
  - cbn [seq fold_left]. do 4 (split; [reflexivity|]).
    split; [intros i Hi; split; reflexivity | intros i Hi; lia].
  - rewrite seq_S, fold_left_app. cbn [fold_left Nat.add].
    destruct IH as [He [Hk [Hc [Ht [Hs Hp]]]]].
    set (m1 := fold_left _ (seq 0 n) m) in *.
    cbn [el capacity count instancePosition atomTarget atomStart].
    split; [assumption|]. split; [assumption|]. split; [assumption|].
    split; [assumption|].
    destruct (Hs n (le_n n)) as [Hsn Hpn].
    assert (Hf : framePosition t m1 n = framePosition t m n)
      by (unfold framePosition; now rewrite Ht, Hsn).
    unfold setMatrixAt. rewrite Hk, Hf. split.
    + intros i Hi. assert (Hle : (n <= i)%nat) by lia.
      destruct (Hs i Hle) as [Hsi Hpi]. split.
      * destruct (atomStart m1 n); [|exact Hsi].
        unfold setAt. destruct (Nat.eqb_spec i n); [lia|]. exact Hsi.
      * destruct (n <? capacity m)%nat; [|exact Hpi].
        unfold setAt. destruct (Nat.eqb_spec i n); [lia|]. exact Hpi.
    + intros i Hi. destruct (Nat.eq_dec i n) as [->|Hne].
      * split.
        -- rewrite Hsn. destruct (atomStart m n) eqn:En; [|exact Hsn].
           unfold setAt. now rewrite Nat.eqb_refl.
        -- destruct (n <? capacity m)%nat; [|exact Hpn].
           unfold setAt. now rewrite Nat.eqb_refl.
      * assert (Hlt : (i < n)%nat) by lia.
        destruct (Hp i Hlt) as [Hsi Hpi]. split.
        -- destruct (atomStart m1 n); [|exact Hsi].
           unfold setAt. destruct (Nat.eqb_spec i n); [lia|]. exact Hsi.
        -- destruct (n <? capacity m)%nat; [|exact Hpi].
           unfold setAt. destruct (Nat.eqb_spec i n); [lia|]. exact Hpi.
Qed.

Lemma interpolate_spec (t : num) (m : Slots) :
  el (interpolate t m) = el m /\ capacity (interpolate t m) = capacity m
  /\ count (interpolate t m) = count m
  /\ atomTarget (interpolate t m) = atomTarget m
  /\ forall i, (i < count m)%nat ->
       atomStart (interpolate t m) i
       = match atomStart m i with
         | Some _ => Some (framePosition t m i)
         | None => None
         end
       /\ getPosition (interpolate t m) i
          = if (i <? capacity m)%nat then vmap fround (framePosition t m i)
            else origin.
Proof.
  destruct (interpolate_fold t m (count m)) as [He [Hk [Hc [Ht [_ Hp]]]]].
  change (fold_left _ (seq 0 (count m)) m) with (interpolate t m) in *.
  split; [exact He|]. split; [exact Hk|]. split; [exact Hc|].
  split; [exact Ht|]. intros i Hi. destruct (Hp i Hi) as [Ha Hb].
  split; [exact Ha|]. unfold getPosition. rewrite Hk.
  destruct (i <? capacity m)%nat; [exact Hb | reflexivity].
Qed.

Lemma definedAt_valid (ats : list Vec3) (v : JsInt) :
  validIndex (length ats) v <> None -> definedAt ats v = true.
Proof.
  intros H. destruct (validIndex (length ats) v) as [k|] eqn:E; [|congruence].
  apply validIndex_Some in E. destruct E as [-> Hk]. unfold definedAt.
  destruct (Z.ltb_spec (Z.of_nat k) 0); [lia|]. rewrite Nat2Z.id.
  destruct (nth_error ats k) eqn:En; [reflexivity|].
  apply nth_error_None in En. lia.
Qed.

Lemma In_firstn {A : Type} (n : nat) (l : list A) (x : A) :
  In x (firstn n l) -> In x l.
Proof.
  revert l. induction n as [|n IH]; intros [|y l] H; simpl in *;
    try contradiction.
  destruct H as [H|H]; [now left | right; now apply IH].
Qed.

Lemma drawable_bonds (mol : Molecule) : drawable mol -> bondsDrawable mol = true.
Proof.
  intros [_ Hb]. unfold bondsDrawable. apply forallb_forall. intros b Hin.
  apply In_firstn in Hin. unfold validBonds in Hb. rewrite Forall_forall in Hb.
  destruct (Hb b Hin) as [Hf Ht].
  now rewrite !definedAt_valid.
Qed.

(** [transition] in the mesh viewer: every slot in use starts the new
    transition from the position read back from the instance buffer, and
    progress is back at 0. *)
Lemma mesh_transition_reads_scene (idx : nat) (st : Viewer) (mol : Molecule) :
  nth_error (POSITION_SETS st) idx = Some mol -> drawable mol ->
  exists st',
    transition idx st = (st', None)
    /\ progress st' = zero /\ animating st' = true /\ currentSet st' = idx
    /\ forall e m,
         nth_error (sharedAtomMeshes st) e = Some m ->
         exists m',
           nth_error (sharedAtomMeshes st') e = Some m'
           /\ el m' = el m /\ capacity m' = capacity m
           /\ forall i, (i < count m)%nat ->
                        atomStart m' i = Some (getPosition m i).
Proof.
  intros Hmol Hd. unfold transition. rewrite Hmol, (drawable_bonds Hd).
  eexists. split; [reflexivity|].
  cbn [progress animating currentSet sharedAtomMeshes].
  split; [reflexivity|]. split; [reflexivity|]. split; [reflexivity|].
  intros e m He. eexists. split.
  - rewrite !nth_error_map, He. reflexivity.
  - destruct (setTargets_keeps_start mol (saveStarts m)) as [H1 [Hk H2]].
    destruct (saveStarts_spec m) as [H3 [Hk' [_ [_ [_ H4]]]]].
    rewrite H1, Hk, H2, H3, Hk'. repeat split. exact H4.
Qed.

Lemma animate_sets (st : Viewer) :
  POSITION_SETS (fst (animate st)) = POSITION_SETS st.
Proof.
  unfold animate. destruct (animating st); [|reflexivity].
  destruct (length (POSITION_SETS st)) as [|n]; [reflexivity|].
  destruct (nth_error (POSITION_SETS st) _) as [prev|]; [|reflexivity].
  destruct (nth_error (POSITION_SETS st) (currentSet st)) as [curr|];
    [|reflexivity].
  destruct (framesDrawable prev curr); reflexivity.
Qed.

(** The meshes after a frame of a playing transition, also when the bond
    loop of the frame throws. *)
Lemma animate_meshes (st : Viewer) :
  animating st = true ->
  sharedAtomMeshes (fst (animate st))
  = map (interpolate (ease (advance (progress st)))) (sharedAtomMeshes st).
Proof.
  intros Ha. unfold animate. rewrite Ha.
  destruct (length (POSITION_SETS st)) as [|n]; [reflexivity|].
  destruct (nth_error (POSITION_SETS st) _) as [prev|]; [|reflexivity].
  destruct (nth_error (POSITION_SETS st) (currentSet st)) as [curr|];
    [|reflexivity].
  destruct (framesDrawable prev curr); reflexivity.
Qed.

(** After a frame of a playing transition every slot in use holds the
    vector of the frame in [atomStart], when it had a start, and the
    instance buffer reads it back in single precision for the slots it
    has. *)
Lemma mesh_animate_interpolates (st : Viewer) (e : nat) (m : Slots) :
  animating st = true ->
  nth_error (sharedAtomMeshes st) e = Some m ->
  POSITION_SETS (fst (animate st)) = POSITION_SETS st
  /\ exists m1,
       nth_error (sharedAtomMeshes (fst (animate st))) e = Some m1
       /\ el m1 = el m /\ capacity m1 = capacity m /\ count m1 = count m
       /\ atomTarget m1 = atomTarget m
       /\ forall i, (i < count m)%nat ->
            atomStart m1 i
            = match atomStart m i with
              | Some _ =>
                  Some (framePosition (ease (advance (progress st))) m i)
              | None => None
              end
            /\ getPosition m1 i
               = if (i <? capacity m)%nat
                 then vmap fround
                        (framePosition (ease (advance (progress st))) m i)
                 else origin.
Proof.
  intros Ha He. split; [apply animate_sets|].
  exists (interpolate (ease (advance (progress st))) m).
  rewrite (animate_meshes _ Ha), nth_error_map, He.
  split; [reflexivity|].
  destruct (interpolate_spec (ease (advance (progress st))) m)
    as [H1 [H2 [H3 [H4 H5]]]].
  repeat split; auto; now apply H5.
Qed.

End Facts.

End MeshFacts.

(** * Superseding a transition *)

Section Supersede.

Context {N : Number}.

(** C8, amended.  While a transition is playing, a call of [transition]
    for a target that can be drawn returns with progress back at 0, and
    every atom slot starts the new transition from the position read back
    from the live scene at the moment of the call: the sprite viewer copies
    the position of the sprite, the mesh viewer reads the instance buffer
    for every slot in use.  When a frame of the playing transition comes
    before the call, a sprite starts from the interpolation between the old
    start and the old target at the eased factor of that frame, and a mesh
    slot that the instance buffer has room for starts from that
    interpolation rounded to single precision, which is how the buffer
    stores it. *)
Theorem C8_transition_starts_from_live_positions
        (stS : SpriteViewer.Viewer) (stM : MeshViewer.Viewer) (idx : nat)
        (molS molM : Molecule) :
  SpriteViewer.animating stS = true ->
  nth_error (SpriteViewer.POSITION_SETS stS) idx = Some molS ->
  drawable molS ->
  MeshViewer.animating stM = true ->
  nth_error (MeshViewer.POSITION_SETS stM) idx = Some molM ->
  drawable molM ->
  (exists st2 st3,
     SpriteViewer.transition idx stS = (st2, None)
     /\ SpriteViewer.progress st2 = zero
     /\ SpriteViewer.animating st2 = true
     /\ SpriteViewer.transition idx (SpriteViewer.animate stS) = (st3, None)
     /\ SpriteViewer.progress st3 = zero
     /\ SpriteViewer.animating st3 = true
     /\ forall i s,
          nth_error (SpriteViewer.sharedSprites stS) i = Some s ->
          exists s2 s3,
            nth_error (SpriteViewer.sharedSprites st2) i = Some s2
            /\ SpriteViewer.start s2 = SpriteViewer.position s
            /\ nth_error (SpriteViewer.sharedSprites st3) i = Some s3
            /\ SpriteViewer.start s3
               = lerpVectors (SpriteViewer.start s) (SpriteViewer.target s)
                             (ease (advance (SpriteViewer.progress stS))))
  /\ (exists st2 st3,
        MeshViewer.transition idx stM = (st2, None)
        /\ MeshViewer.progress st2 = zero
        /\ MeshViewer.animating st2 = true
        /\ MeshViewer.transition idx (fst (MeshViewer.animate stM))
           = (st3, None)
        /\ MeshViewer.progress st3 = zero
        /\ MeshViewer.animating st3 = true
        /\ forall e m,
             nth_error (MeshViewer.sharedAtomMeshes stM) e = Some m ->
             exists m2 m3,
               nth_error (MeshViewer.sharedAtomMeshes st2) e = Some m2
               /\ nth_error (MeshViewer.sharedAtomMeshes st3) e = Some m3
               /\ forall i, (i < MeshViewer.count m)%nat ->
                    MeshViewer.atomStart m2 i
                    = Some (MeshViewer.getPosition m i)
                    /\ ((i < MeshViewer.capacity m)%nat ->
                        MeshViewer.atomStart m2 i
                        = Some (MeshViewer.instancePosition m i)
                        /\ MeshViewer.atomStart m3 i
                           = Some (vmap fround
                                     (MeshViewer.framePosition
                                        (ease (advance (MeshViewer.progress stM)))
                                        m i)))).
Proof.
  intros HaS HmS HdS HaM HmM HdM. split.
  - destruct (SpriteFacts.sprite_transition_reads_scene _ _ HmS HdS)
      as [st2 [Ht2 [Hp2 [Ha2 Hread2]]]].
    assert (HmS' : nth_error (SpriteViewer.POSITION_SETS
                                (SpriteViewer.animate stS)) idx = Some molS).
    { unfold SpriteViewer.animate. rewrite HaS. exact HmS. }
    destruct (SpriteFacts.sprite_transition_reads_scene _ _ HmS' HdS)
      as [st3 [Ht3 [Hp3 [Ha3 Hread3]]]].
    exists st2, st3. do 6 (split; [assumption|]).
    intros i s Hs.
    destruct (Hread2 i s Hs) as [s2 [Hs2 [Hstart2 _]]].
    destruct (SpriteFacts.sprite_animate_interpolates _ _ HaS Hs)
      as [s1 [Hs1 Hpos]].
    destruct (Hread3 i s1 Hs1) as [s3 [Hs3 [Hstart3 _]]].
    exists s2, s3. repeat split; try assumption.
    now rewrite Hstart3.
  - destruct (MeshFacts.mesh_transition_reads_scene _ _ HmM HdM)
      as [st2 [Ht2 [Hp2 [Ha2 [_ Hread2]]]]].
    assert (HmM' : nth_error (MeshViewer.POSITION_SETS
                                (fst (MeshViewer.animate stM))) idx
                   = Some molM)
      by (now rewrite MeshFacts.animate_sets).
    destruct (MeshFacts.mesh_transition_reads_scene _ _ HmM' HdM)
      as [st3 [Ht3 [Hp3 [Ha3 [_ Hread3]]]]].
    exists st2, st3. do 6 (split; [assumption|]).
    intros e m Hm.
    destruct (Hread2 e m Hm) as [m2 [Hm2 [_ [_ Hstart2]]]].
    destruct (MeshFacts.mesh_animate_interpolates _ _ HaM Hm)
      as [_ [m1 [Hm1 [_ [_ [Hc1 [_ Hpos]]]]]]].
    destruct (Hread3 e m1 Hm1) as [m3 [Hm3 [_ [_ Hstart3]]]].
    exists m2, m3. split; [assumption|]. split; [assumption|].
    intros i Hi. split; [now apply Hstart2|]. intros Hk. split.
    + rewrite (Hstart2 i Hi). unfold MeshViewer.getPosition.
      now rewrite (proj2 (Nat.ltb_lt _ _) Hk).
    + rewrite Hstart3 by (now rewrite Hc1).
      destruct (Hpos i Hi) as [_ Hg]. rewrite Hg.
      now rewrite (proj2 (Nat.ltb_lt _ _) Hk).
Qed.

End Supersede.

(** * Instances on the example inputs *)

Lemma C2_greedy_single_pass_witness :
  computeAtomMapping (Examples.triangleMol Examples.triangleA)
                     (Examples.triangleMol Examples.triangleB)
  = inr [0; 1; 2]%Z
  /\ length [0; 1; 2]%Z
     = length (atoms (Examples.triangleMol Examples.triangleA)).
Proof.
  split; [reflexivity|].
  apply (@C2_greedy_single_pass Binary64
           (Examples.triangleMol Examples.triangleA)
           (Examples.triangleMol Examples.triangleB) [0; 1; 2]%Z).
  reflexivity.
Defined.

Lemma C3_mapping_injective_witness :
  exists mapping,
    computeAtomMapping (Examples.triangleMol Examples.triangleA)
                       (Examples.triangleMol Examples.triangleB)
    = inr mapping
    /\ length mapping
       = length (atoms (Examples.triangleMol Examples.triangleA))
    /\ injectiveOnDefined mapping.
Proof.
  apply (@C3_mapping_injective Binary64
           (Examples.triangleMol Examples.triangleA)
           (Examples.triangleMol Examples.triangleB)).
  - repeat constructor; simpl; discriminate.
  - repeat constructor; simpl; discriminate.
Defined.

Lemma C8_transition_starts_from_live_positions_witness :
  (exists st3,
     SpriteViewer.transition 1 (SpriteViewer.animate Examples.spriteInFlight)
     = (st3, None)
     /\ SpriteViewer.progress st3 = @zero Binary64)
  /\ exists st3 m3,
       MeshViewer.transition 1 (fst (MeshViewer.animate Examples.meshInFlight))
       = (st3, None)
       /\ MeshViewer.progress st3 = @zero Binary64
       /\ nth_error (MeshViewer.sharedAtomMeshes st3) 0 = Some m3
       /\ MeshViewer.atomStart m3 0
          = Some (vmap fround
                    (lerpVectors (Examples.pt 0 0 0) (Examples.pt 1 0 0)
                       (ease (advance
                                (MeshViewer.progress Examples.meshInFlight))))).
Proof.
  assert (Hd : drawable (Examples.triangleMol Examples.triangleB)).
  { split.
    - intros m Hm. simpl in Hm. discriminate Hm.
    - repeat constructor; simpl; discriminate. }
  destruct (@C8_transition_starts_from_live_positions Binary64
              Examples.spriteInFlight Examples.meshInFlight 1
              (Examples.triangleMol Examples.triangleB)
              (Examples.triangleMol Examples.triangleB)
              eq_refl eq_refl Hd eq_refl eq_refl Hd)
    as [[st2 [st3 [_ [_ [_ [Ht [Hp _]]]]]]]
        [sm2 [sm3 [_ [_ [_ [Htm [Hpm [_ Hslots]]]]]]]]].
  split; [exists st3; split; assumption|].
  destruct (Hslots 0%nat _ eq_refl) as [m2 [m3 [_ [Hm3 Hstart]]]].
  destruct (Hstart 0%nat (le_n 1)) as [_ Hcap].
  destruct (Hcap (le_n 1)) as [_ H3].
  exists sm3, m3. split; [exact Htm|]. split; [exact Hpm|].
  split; [exact Hm3|exact H3].
Defined.

(** The mesh viewer of the example after one more frame and a call of
    [transition]: the frame computes the x coordinate
    0.35280000000000006 for its one slot, the instance buffer keeps
    0.35280001163482666, the nearest single-precision number, and that is
    where the new transition starts. *)
Lemma mesh_in_flight_start :
  MeshViewer.framePosition
    (ease (advance (MeshViewer.progress Examples.meshInFlight)))
    (MeshViewer.mkSlots "C" 1 1 (fun _ => Examples.pt 0 0 0)
       (fun i => if (i =? 0)%nat then Some (Examples.pt 0 0 0) else None)
       (fun i => if (i =? 0)%nat then Some (Examples.pt 1 0 0) else None))
    0
  = (S754_finite false 6355479794145245 (-54), F64.zero, F64.zero)
  /\ option_map
       (fun m3 => MeshViewer.atomStart m3 0)
       (nth_error
          (MeshViewer.sharedAtomMeshes
             (fst (MeshViewer.transition 1
                     (fst (MeshViewer.animate Examples.meshInFlight))))) 0)
     = Some (Some (S754_finite false 6355480003739648 (-54),
                   F64.zero, F64.zero)).
Proof. split; vm_compute; reflexivity. Qed.

(** C8 as stated fails in the mesh viewer: the start of the new transition
    is not the position the last frame interpolated, also for a slot the
    instance buffer has room for. *)
Lemma C8_counterexample_single_precision :
  ~ (forall (st : @MeshViewer.Viewer Binary64) (idx : nat) (mol : Molecule)
            (st3 : MeshViewer.Viewer) (e : nat) (m m3 : MeshViewer.Slots)
            (i : nat),
       MeshViewer.animating st = true ->
       nth_error (MeshViewer.POSITION_SETS st) idx = Some mol ->
       drawable mol ->
       MeshViewer.transition idx (fst (MeshViewer.animate st)) = (st3, None) ->
       nth_error (MeshViewer.sharedAtomMeshes st) e = Some m ->
       nth_error (MeshViewer.sharedAtomMeshes st3) e = Some m3 ->
       (i < MeshViewer.count m)%nat -> (i < MeshViewer.capacity m)%nat ->
       MeshViewer.atomStart m3 i
       = Some (MeshViewer.framePosition
                 (ease (advance (MeshViewer.progress st))) m i)).
Proof.
  intros H.
  assert (Hd : drawable (Examples.triangleMol Examples.triangleB)).
  { split.
    - intros m Hm. simpl in Hm. discriminate Hm.
    - repeat constructor; simpl; discriminate. }
  specialize (H Examples.meshInFlight 1%nat _
                (fst (MeshViewer.transition 1
                        (fst (MeshViewer.animate Examples.meshInFlight))))
                0%nat _
                (MeshViewer.setTargets
                   (Examples.triangleMol Examples.triangleB)
                   (MeshViewer.saveStarts
                      (MeshViewer.interpolate
                         (ease (advance (MeshViewer.progress
                                           Examples.meshInFlight)))
                         (MeshViewer.mkSlots "C" 1 1
                            (fun _ => Examples.pt 0 0 0)
                            (fun i => if (i =? 0)%nat
                                      then Some (Examples.pt 0 0 0) else None)
                            (fun i => if (i =? 0)%nat
                                      then Some (Examples.pt 1 0 0) else None)))))
                0%nat eq_refl eq_refl Hd eq_refl eq_refl eq_refl
                (le_n 1) (le_n 1)).
  vm_compute in H. discriminate H.
Qed.

(** * Further properties of the resolver *)

Section ResolverMore.

Context {N : Number}.

Lemma adjacency_fold_valid (n : nat) (bs : list Bond) :
  forall acc adj,
    fold_left (adjacencyStep n) bs (inr acc) = inr adj ->
    Forall (fun b => validIndex n (from b) <> None
                     /\ validIndex n (to b) <> None) bs.
Proof.
  induction bs as [|b bs IH]; intros acc adj H; [constructor|].
  cbn [fold_left] in H. unfold adjacencyStep at 2 in H.
  destruct (validIndex n (from b)) eqn:Ef;
    [|rewrite adjacency_inl in H; discriminate].
  destruct (validIndex n (to b)) eqn:Et;
    [|rewrite adjacency_inl in H; discriminate].
  constructor; [split; congruence|]. now apply IH in H.
Qed.

Lemma adjacency_fold_thrown (n : nat) (bs : list Bond) :
  forall acc e,
    fold_left (adjacencyStep n) bs (inr acc) = inl e ->
    e = TypeError
    /\ ~ Forall (fun b => validIndex n (from b) <> None
                          /\ validIndex n (to b) <> None) bs.
Proof.
  induction bs as [|b bs IH]; intros acc e H; [discriminate|].
  cbn [fold_left] in H. unfold adjacencyStep at 2 in H.
  destruct (validIndex n (from b)) eqn:Ef.
  - destruct (validIndex n (to b)) eqn:Et.
    + apply IH in H. destruct H as [He Hn]. split; [assumption|].
      intros Hall. apply Hn. now inversion Hall.
    + rewrite adjacency_inl in H. injection H as <-. split; [reflexivity|].
      intros Hall. inversion Hall as [|? ? [_ Ht] _]. congruence.
  - rewrite adjacency_inl in H. injection H as <-. split; [reflexivity|].
    intros Hall. inversion Hall as [|? ? [Hf _] _]. congruence.
Qed.

(** X1.  [computeAtomMapping] returns a map exactly when every bond end of
    both molecules is an index of an atom of its molecule; in every other
    case what it throws is a TypeError (from [adj[b.from].add] or
    [adj[b.to].add] on [undefined]). *)
Theorem computeAtomMapping_returns_iff_valid_bonds (molA molB : Molecule) :
  (validBonds molA /\ validBonds molB
   <-> exists mapping, computeAtomMapping molA molB = inr mapping)
  /\ (forall e, computeAtomMapping molA molB = inl e -> e = TypeError).
Proof.
  unfold computeAtomMapping, validBonds, adjacency.
  destruct (fold_left (adjacencyStep (length (atoms molA))) (bonds molA) _)
    as [eA|adjA] eqn:HA.
  - apply adjacency_fold_thrown in HA. destruct HA as [-> HnA].
    split; [|intros e H; now injection H as <-].
    split; [intros [HvA _]; contradiction|intros [m Hm]; discriminate].
  - pose proof (adjacency_fold_valid _ _ _ HA) as HvA.
    destruct (fold_left (adjacencyStep (length (atoms molB))) (bonds molB) _)
      as [eB|adjB] eqn:HB.
    + apply adjacency_fold_thrown in HB. destruct HB as [-> HnB].
      split; [|intros e H; now injection H as <-].
      split; [intros [_ HvB]; contradiction|intros [m Hm]; discriminate].
    + pose proof (adjacency_fold_valid _ _ _ HB) as HvB.
      split; [|intros e H; discriminate].
      split; [intros _; eexists; reflexivity | intros _; now split].
Qed.

(** X2.  When [adjacency] returns, it returns one row per atom; a row has
    no duplicates, holds only indices of atoms, and [b] is in the row of
    [a] exactly when [a] is in the row of [b]. *)
Theorem adjacency_rows_symmetric (bs : list Bond) (n : nat)
        (adj : list (list nat)) :
  adjacency bs n = inr adj ->
  length adj = n
  /\ forall a,
       NoDup (nth a adj [])
       /\ forall b, In b (nth a adj []) ->
                    (a < n)%nat /\ (b < n)%nat /\ In a (nth b adj []).
Proof.
  intros H. pose proof (adjacency_fold_valid _ _ _ H) as Hv.
  apply adjacency_spec in H. destruct H as [Hlen [Hin Hnd]].
  split; [assumption|]. intros a. split; [apply Hnd|].
  intros b Hb. apply Hin in Hb.
  assert (Hsym : bonded bs b a = true).
  { unfold bonded in *. rewrite existsb_exists in *.
    destruct Hb as [bd [Hbd Hc]]. exists bd. split; [assumption|].
    destruct (from bd), (to bd); try discriminate.
    now rewrite orb_comm. }
  split; [|split; [|now apply Hin]].
  - unfold bonded in Hb. rewrite existsb_exists in Hb.
    destruct Hb as [bd [Hbd Hc]]. rewrite Forall_forall in Hv.
    destruct (Hv bd Hbd) as [Hf Ht].
    destruct (validIndex n (from bd)) as [f|] eqn:Ef; [|congruence].
    destruct (validIndex n (to bd)) as [t|] eqn:Et; [|congruence].
    apply validIndex_Some in Ef, Et. destruct Ef as [Ef Hlf], Et as [Et Hlt].
    rewrite Ef, Et in Hc.
    rewrite orb_true_iff, !andb_true_iff, !Z.eqb_eq in Hc. lia.
  - unfold bonded in Hb. rewrite existsb_exists in Hb.
    destruct Hb as [bd [Hbd Hc]]. rewrite Forall_forall in Hv.
    destruct (Hv bd Hbd) as [Hf Ht].
    destruct (validIndex n (from bd)) as [f|] eqn:Ef; [|congruence].
    destruct (validIndex n (to bd)) as [t|] eqn:Et; [|congruence].
    apply validIndex_Some in Ef, Et. destruct Ef as [Ef Hlf], Et as [Et Hlt].
    rewrite Ef, Et in Hc.
    rewrite orb_true_iff, !andb_true_iff, !Z.eqb_eq in Hc. lia.
Qed.

(** The greedy rule on the finished map (the entry of atom [i] is decided
    by the entries below [i]). *)
Lemma mapping_greedy_rule (molA molB : Molecule) (mapping : list Z) :
  computeAtomMapping molA molB = inr mapping ->
  length mapping = length (atoms molA)
  /\ forall i, (i < length (atoms molA))%nat ->
       (-1 <= nth i mapping (-1) < Z.of_nat (length (atoms molB)))%Z
       /\ greedyChoice molA molB mapping i.
Proof.
  unfold computeAtomMapping.
  destruct (adjacency (bonds molA) (length (atoms molA))) as [e|adjA] eqn:HA;
    [discriminate|].
  destruct (adjacency (bonds molB) (length (atoms molB))) as [e|adjB] eqn:HB;
    [discriminate|].
  intros H. injection H as <-.
  set (nA := length (atoms molA)) in *. set (nB := length (atoms molB)) in *.
  set (ea := elementIndexes molA). set (eb := elementIndexes molB).
  set (loop := mappingLoop ea eb adjA adjB nA nB).
  assert (Hinv : forall k, (k <= nA)%nat -> loopInv nA nB k (loop k))
    by (intros k Hk; now apply mappingLoop_inv).
  assert (Hstable : forall i k, (i < k)%nat -> (k <= nA)%nat ->
             nth i (fst (loop k)) (-1)%Z = nth i (fst (loop nA)) (-1)%Z).
  { intros i k Hi Hk. symmetry. now apply mappingLoop_stable. }
  split; [apply (Hinv nA (le_n nA))|].
  intros i Hi.
  destruct (Hinv i) as [_ [_ [_ [Hrange [Hused _]]]]]; [lia|].
  destruct (Hinv nA (le_n nA)) as [_ [_ [_ [HrangeN _]]]].
  split; [apply HrangeN|].
  destruct (@outerStep_inv ea eb adjA adjB nA nB i (loop i))
    as [_ [_ [[best [Hbest Hentry]] _]]]; [assumption | apply Hinv; lia |].
  fold (loop i) in Hentry. unfold loop in Hentry.
  rewrite <- mappingLoop_S in Hentry. fold loop in Hentry.
  rewrite (Hstable i (S i)) in Hentry by lia.
  apply (@bestUpTo_greedy _ _ _ _
           (candidate molA molB (fst (loop nA)) i)
           (agreement molA molB (fst (loop nA)) i) _ Hbest Hentry).
  - intros j. unfold candidate, innerCand. fold nB ea eb.
    rewrite andb_true_iff, negb_true_iff, sameTag_eq.
    split.
    + intros [Hj [Htaken Htag]]. repeat split; auto.
      destruct (nth j (snd (loop i)) false) eqn:Hu; [|reflexivity].
      exfalso. apply Htaken. apply Hused in Hu; [|assumption].
      destruct Hu as [k [Hk He]]. exists k. split; [assumption|].
      rewrite <- (Hstable k i) by lia. exact He.
    + intros [Hj [Hu Htag]]. repeat split; auto.
      intros [k [Hk He]].
      assert (Hu' : nth j (snd (loop i)) false = true).
      { apply Hused; [assumption|]. exists k. split; [assumption|].
        rewrite (Hstable k i) by lia. assumption. }
      congruence.
  - intros j. apply scoreOf_agreement; auto.
    + intros nei Hnei. apply Hstable; lia.
    + intros nei. apply Hrange.
Qed.

(** X3.  Every atom that [computeAtomMapping] matches is matched to an
    atom of B that exists and carries the same element tag. *)
Theorem mapping_preserves_elements (molA molB : Molecule) (mapping : list Z)
        (i j : nat) :
  computeAtomMapping molA molB = inr mapping ->
  (i < length (atoms molA))%nat ->
  nth i mapping (-1)%Z = Z.of_nat j ->
  (j < length (atoms molB))%nat
  /\ nth_error (elementIndexes molA) i = nth_error (elementIndexes molB) j.
Proof.
  intros H Hi Hj.
  destruct (mapping_greedy_rule _ _ H) as [_ Hrule].
  destruct (Hrule i Hi) as [_ [_ Hchoice]].
  destruct (Hchoice j Hj) as [[Hlt [_ Htag]] _].
  split; assumption.
Qed.

Lemma filter_length_mono {A : Type} (f g : A -> bool) (l : list A) :
  (forall x, In x l -> f x = true -> g x = true) ->
  (length (filter f l) <= length (filter g l))%nat.
Proof.
  induction l as [|x l IH]; intros H; [apply le_n|].
  cbn [filter].
  assert (IH' : (length (filter f l) <= length (filter g l))%nat)
    by (apply IH; intros y Hy; apply H; now right).
  destruct (f x) eqn:Ef.
  - rewrite (H x (or_introl eq_refl) Ef). cbn [length]. lia.
  - destruct (g x); cbn [length]; lia.
Qed.

(** X4.  Two molecules with the same number of atoms, the same element
    tags and the same bonds (two conformers of one compound, or a molecule
    and itself) are matched atom by atom: the map is [0, 1, ..., n-1]. *)
Theorem mapping_of_same_structure_is_identity (molA molB : Molecule) :
  validBonds molA ->
  length (atoms molB) = length (atoms molA) ->
  elementIndexes molB = elementIndexes molA ->
  bonds molB = bonds molA ->
  computeAtomMapping molA molB
  = inr (map Z.of_nat (seq 0 (length (atoms molA)))).
Proof.
  intros HvA Hlen Htags Hbonds.
  assert (HvB : validBonds molB).
  { unfold validBonds. rewrite Hlen, Hbonds. exact HvA. }
  assert (Hret : exists mapping, computeAtomMapping molA molB = inr mapping).
  { destruct (@adjacency_total _ _ HvA) as [adjA HA].
    destruct (@adjacency_total _ _ HvB) as [adjB HB].
    unfold computeAtomMapping. rewrite HA, HB. eexists. reflexivity. }
  destruct Hret as [mapping Hm].
  rewrite Hm. f_equal.
  destruct (mapping_greedy_rule _ _ Hm) as [Hl Hrule].
  assert (Hid : forall i, (i < length (atoms molA))%nat ->
                          nth i mapping (-1)%Z = Z.of_nat i).
  { intros i. induction i as [i IH] using lt_wf_ind. intros Hi.
    destruct (Hrule i Hi) as [Hrange [Hnone Hchoice]].
    assert (Hcand : candidate molA molB mapping i i).
    { split; [lia|]. split; [|now rewrite Htags].
      intros [k [Hk He]]. rewrite IH in He by lia. lia. }
    assert (Hne : nth i mapping (-1)%Z <> (-1)%Z).
    { intros He. destruct Hnone as [Hnone _]. exact (Hnone He i Hcand). }
    set (j := Z.to_nat (nth i mapping (-1)%Z)).
    assert (Hj : nth i mapping (-1)%Z = Z.of_nat j) by (unfold j; lia).
    destruct (Hchoice j Hj) as [[Hjn [Hfree _]] Hbest].
    destruct (Hbest i Hcand) as [Hle Htie].
    assert (Hji : (i <= j)%nat).
    { destruct (Nat.lt_ge_cases j i) as [Hlt|Hge]; [|exact Hge].
      exfalso. apply Hfree. exists j. split; [exact Hlt|].
      apply IH; lia. }
    assert (Hge : (agreement molA molB mapping i j
                   <= agreement molA molB mapping i i)%nat).
    { unfold agreement. apply filter_length_mono.
      intros nei Hnei. rewrite in_seq in Hnei. cbv zeta.
      rewrite (IH nei) by lia. rewrite Nat2Z.id, Hbonds.
      rewrite !andb_true_iff. intros [[Hb Hn] _].
      repeat split; assumption. }
    rewrite Hj. f_equal. apply Nat.le_antisymm; [apply Htie; lia|exact Hji]. }
  apply (nth_ext _ _ (-1)%Z (Z.of_nat 0)).
  - now rewrite length_map, length_seq.
  - intros i Hi. rewrite Hl in Hi. rewrite Hid by exact Hi.
    rewrite map_nth, seq_nth by exact Hi. reflexivity.
Qed.

End ResolverMore.

(** Instances on the triangle molecule. *)

Lemma adjacency_rows_symmetric_witness :
  length [[1]; [0; 2]; [1]]%nat = 3%nat.
Proof.
  apply (@adjacency_rows_symmetric
           (bonds (Examples.triangleMol Examples.triangleA)) 3
           [[1]; [0; 2]; [1]]%nat).
  reflexivity.
Defined.

Lemma mapping_preserves_elements_witness :
  (2 < length (atoms (Examples.triangleMol Examples.triangleB)))%nat
  /\ nth_error (elementIndexes (Examples.triangleMol Examples.triangleA)) 2
     = nth_error (elementIndexes (Examples.triangleMol Examples.triangleB)) 2.
Proof.
  apply (@mapping_preserves_elements Binary64
           (Examples.triangleMol Examples.triangleA)
           (Examples.triangleMol Examples.triangleB) [0; 1; 2]%Z 2 2).
  - reflexivity.
  - simpl. lia.
  - reflexivity.
Defined.

Lemma mapping_of_same_structure_is_identity_witness :
  computeAtomMapping (Examples.triangleMol Examples.triangleA)
                     (Examples.triangleMol Examples.triangleB)
  = inr (map Z.of_nat (seq 0 3)).
Proof.
  apply (@mapping_of_same_structure_is_identity Binary64
           (Examples.triangleMol Examples.triangleA)
           (Examples.triangleMol Examples.triangleB)).
  - repeat constructor; simpl; discriminate.
  - reflexivity.
  - reflexivity.
  - reflexivity.
Defined.

(** * Further properties of the alignment engine *)

Module AlignmentLaws.

#[local] Existing Instance Exact.
Local Open Scope R_scope.

Ltac real_arith :=
  unfold vadd, vsub, vmap, build, at2, tri, zero, one in *;
  cbn [nadd nsub nmul ndiv nneg nsqrt nltb nleb nmin nmax of_Z truthy
       num Exact fst snd fold_left indices] in *;
  change (@num Exact) with R in *.

Ltac rring := change (@num Exact) with R; ring.

Lemma triple_eq {X : Type} (a b c a' b' c' : X) :
  a = a' -> b = b' -> c = c' -> (a, b, c) = (a', b', c').
Proof. intros -> -> ->. reflexivity. Qed.

(** X6.  In real arithmetic, the helpers compose as matrix algebra asks:
    [multiplyMatrices] is the product that [multiplyMatrixVec] applies in
    two steps, it has [identity] as unit, [transpose] reverses a product
    and undoes itself, and [det3] is multiplicative and unchanged by
    [transpose]. *)
Theorem matrix_helpers_compose (A B : Mat3) (v : Vec3) :
  multiplyMatrixVec (multiplyMatrices A B) v
  = multiplyMatrixVec A (multiplyMatrixVec B v)
  /\ transpose (multiplyMatrices A B)
     = multiplyMatrices (transpose B) (transpose A)
  /\ multiplyMatrices identity A = A
  /\ multiplyMatrices A identity = A
  /\ transpose (transpose A) = A
  /\ det3 (multiplyMatrices A B) = det3 A * det3 B
  /\ det3 (transpose A) = det3 A.
Proof.
  destruct A as [[[[a b] c] [[d e] f]] [[g h] i]].
  destruct B as [[[[a' b'] c'] [[d' e'] f']] [[g' h'] i']].
  destruct v as [[x y] z].
  unfold det3, multiplyMatrixVec, multiplyMatrices, transpose, identity.
  real_arith.
  split; [apply triple_eq; rring|].
  split; [apply triple_eq; apply triple_eq; rring|].
  split; [apply triple_eq; apply triple_eq; rring|].
  split; [apply triple_eq; apply triple_eq; rring|].
  split; [reflexivity|].
  split; ring.
Qed.

(** The sum of [centroid] with another start value. *)
Lemma sum_acc (pts : list Vec3) (acc acc' : Vec3) :
  fold_left (fun s p : Vec3 =>
               (nadd (tri s I0) (tri p I0), nadd (tri s I1) (tri p I1),
                nadd (tri s I2) (tri p I2))) pts (vadd acc acc')
  = vadd (fold_left (fun s p : Vec3 =>
               (nadd (tri s I0) (tri p I0), nadd (tri s I1) (tri p I1),
                nadd (tri s I2) (tri p I2))) pts acc) acc'.
Proof.
  revert acc. induction pts as [|p pts IH]; intros acc; [reflexivity|].
  cbn [fold_left]. rewrite <- IH. f_equal.
  destruct acc as [[a0 a1] a2], acc' as [[b0 b1] b2], p as [[p0 p1] p2].
  real_arith. apply triple_eq; rring.
Qed.

Lemma sum_translate (d : Vec3) (pts : list Vec3) (acc : Vec3) :
  fold_left (fun s p : Vec3 =>
               (nadd (tri s I0) (tri p I0), nadd (tri s I1) (tri p I1),
                nadd (tri s I2) (tri p I2)))
            (map (fun p => vadd p d) pts) acc
  = vadd (fold_left (fun s p : Vec3 =>
               (nadd (tri s I0) (tri p I0), nadd (tri s I1) (tri p I1),
                nadd (tri s I2) (tri p I2))) pts acc)
         (INR (length pts) * tri d I0, INR (length pts) * tri d I1,
          INR (length pts) * tri d I2).
Proof.
  revert acc. induction pts as [|p pts IH]; intros acc.
  - cbn [map fold_left length INR].
    destruct acc as [[a0 a1] a2], d as [[d0 d1] d2].
    real_arith. apply triple_eq; rring.
  - cbn [map fold_left]. rewrite IH.
    replace (nadd (tri acc I0) (tri (vadd p d) I0),
             nadd (tri acc I1) (tri (vadd p d) I1),
             nadd (tri acc I2) (tri (vadd p d) I2))
      with (vadd (nadd (tri acc I0) (tri p I0), nadd (tri acc I1) (tri p I1),
                  nadd (tri acc I2) (tri p I2)) d).
    2:{ destruct acc as [[a0 a1] a2], d as [[d0 d1] d2], p as [[p0 p1] p2].
        real_arith. apply triple_eq; rring. }
    rewrite sum_acc.
    change (length (p :: pts)) with (S (length pts)). rewrite S_INR.
    set (s := fold_left _ pts _). clearbody s.
    destruct s as [[s0 s1] s2], d as [[d0 d1] d2].
    real_arith. apply triple_eq; rring.
Qed.

(** Moving every point by [d] moves the centroid by [d]. *)
Lemma centroid_translate (d : Vec3) (pts : list Vec3) :
  pts <> [] ->
  centroid (map (fun p => vadd p d) pts) = vadd (centroid pts) d.
Proof.
  intros Hne. unfold centroid. rewrite sum_translate, length_map.
  assert (Hn : INR (length pts) <> 0).
  { apply not_0_INR. destruct pts; [congruence|discriminate]. }
  rewrite <- INR_IZR_INZ.
  match goal with
  | |- context [vadd (fold_left ?f pts ?o) _] => set (s := fold_left f pts o)
  end.
  change (fold_left _ pts origin) with s.
  clearbody s.
  set (n := INR (length pts)) in *. clearbody n.
  destruct s as [[s0 s1] s2], d as [[d0 d1] d2].
  real_arith. apply triple_eq; change (@num Exact) with R; field; exact Hn.
Qed.

Lemma centred_translate (d : Vec3) (pts : list Vec3) :
  pts <> [] ->
  map (fun p => vsub p (centroid (map (fun p => vadd p d) pts)))
      (map (fun p => vadd p d) pts)
  = map (fun p => vsub p (centroid pts)) pts.
Proof.
  intros Hne. rewrite centroid_translate by exact Hne.
  rewrite map_map. apply map_ext. intros p.
  set (c := centroid pts). clearbody c.
  destruct p as [[p0 p1] p2], c as [[c0 c1] c2], d as [[d0 d1] d2].
  real_arith. apply triple_eq; rring.
Qed.

End AlignmentLaws.

(** * Further properties of the normaliser *)

Module NormalizeLaws.

Import NormalizeExact.
#[local] Existing Instance Exact.
Local Open Scope R_scope.

Lemma vec_eq (u v : Vec3) : (forall k, tri u k = tri v k) -> u = v.
Proof.
  destruct u as [[u0 u1] u2], v as [[v0 v1] v2]. intros H.
  pose proof (H I0) as E0. pose proof (H I1) as E1. pose proof (H I2) as E2.
  cbn [tri] in E0, E1, E2. now subst.
Qed.

Lemma tri_build (f : Ix -> R) (k : Ix) : tri (build f) k = f k.
Proof. destruct k; reflexivity. Qed.

(** What [normalize] does to one atom of a molecule with first atom [a]
    and further atoms [rest]. *)
Lemma normalize_cons (a : Vec3) (rest : list Vec3) :
  normalize (a :: rest)
  = map (fun p : Vec3 =>
           build (fun k =>
             (tri p k - tri (boxCenter (boxMin a rest) (boxMax a rest)) k)
             * scaleOf (maxDimOf (boxSize (boxMin a rest) (boxMax a rest)))))
        (a :: rest).
Proof. reflexivity. Qed.

(** The bounding box of a normalised molecule. *)
Lemma normalized_box (a : Vec3) (rest : list Vec3) (a' : Vec3)
      (rest' : list Vec3) :
  normalize (a :: rest) = a' :: rest' ->
  (forall k, tri (boxCenter (boxMin a' rest') (boxMax a' rest')) k = 0)
  /\ maxDimOf (boxSize (boxMin a' rest') (boxMax a' rest')) <= 1.
Proof.
  rewrite normalize_cons. cbn [map].
  set (mn := boxMin a rest). set (mx := boxMax a rest).
  set (center := boxCenter mn mx).
  set (maxDim := maxDimOf (boxSize mn mx)).
  set (scale := scaleOf maxDim).
  set (g := fun p : @Vec3 Exact =>
              build (fun k => (tri p k - tri center k) * scale)).
  intros H. change (g a :: map g rest = a' :: rest') in H.
  injection H as <- <-.
  destruct (scaleOf_range maxDim) as [[Hpos Hle1] [Hone Hprod]].
  fold scale in Hpos, Hle1, Hone, Hprod.
  assert (Himg : forall k,
             tri (boxMin (g a) (map g rest)) k = (tri mn k - tri center k) * scale
             /\ tri (boxMax (g a) (map g rest)) k = (tri mx k - tri center k) * scale).
  { intros k. apply (box_of_image center a rest k). lra. }
  assert (Hc : forall k, tri center k = (tri mn k + tri mx k) / 2)
    by (intros k; destruct k; reflexivity).
  assert (Hsz : forall k, tri (boxSize mn mx) k = tri mx k - tri mn k)
    by (intros k; destruct k; reflexivity).
  assert (Hbound : forall k, (tri mx k - tri mn k) * scale <= 1).
  { intros k. pose proof (boxSize_le_maxDim (boxSize mn mx) k) as Hk.
    fold maxDim in Hk. rewrite Hsz in Hk.
    apply Rle_trans with (maxDim * scale); [|exact Hprod].
    apply Rmult_le_compat_r; lra. }
  split.
  - intros k. unfold boxCenter. rewrite tri_build.
    destruct (Himg k) as [-> ->]. rewrite Hc.
    cbn [nadd ndiv of_Z Exact]. change (@num Exact) with R. field.
  - apply maxDimOf_le. intros k. unfold boxSize. rewrite tri_build.
    destruct (Himg k) as [-> ->].
    specialize (Hbound k). cbn [nsub Exact]. change (@num Exact) with R in *.
    nra.
Qed.

(** X9.  In real arithmetic the normaliser is idempotent: a molecule that
    went through it is left as it is by a second pass. *)
Theorem normalize_idempotent (ats : list Vec3) :
  normalize (normalize ats) = normalize ats.
Proof.
  destruct ats as [|a rest]; [reflexivity|].
  destruct (normalize (a :: rest)) as [|a' rest'] eqn:E; [reflexivity|].
  destruct (normalized_box E) as [Hc Hd].
  rewrite normalize_cons.
  destruct (scaleOf_range
              (maxDimOf (boxSize (boxMin a' rest') (boxMax a' rest'))))
    as [_ [Hone _]].
  rewrite (Hone Hd).
  transitivity (map (fun p : @Vec3 Exact => p) (a' :: rest'));
    [|apply map_id].
  apply map_ext. intros p.
  apply vec_eq. intros k. rewrite tri_build, Hc.
  change (@num Exact) with R. ring.
Qed.

(** X10.  In real arithmetic the normaliser does not depend on where the
    molecule sits: moving every atom by [d] before gives the same
    result. *)
Theorem normalize_ignores_position (d : Vec3) (ats : list Vec3) :
  normalize (map (fun p => vadd p d) ats) = normalize ats.
Proof.
  destruct ats as [|a rest]; [reflexivity|].
  set (c := @vmap Exact Ropp d).
  set (g := fun p : @Vec3 Exact => build (fun k => (tri p k - tri c k) * 1)).
  assert (Hg : forall p, vadd p d = g p).
  { intros p. apply vec_eq. intros k. unfold g, c. rewrite tri_build.
    destruct p as [[p0 p1] p2], d as [[d0 d1] d2].
    destruct k; unfold vadd; reals; ring. }
  rewrite (map_ext _ _ Hg).
  change (normalize (g a :: map g rest) = normalize (a :: rest)).
  rewrite !normalize_cons.
  assert (Himg : forall k,
             tri (boxMin (g a) (map g rest)) k = tri (boxMin a rest) k + tri d k
             /\ tri (boxMax (g a) (map g rest)) k
                = tri (boxMax a rest) k + tri d k).
  { intros k. pose proof (box_of_image c a rest k Rle_0_1) as Hbox.
    change (tri (boxMin (g a) (map g rest)) k
            = (tri (boxMin a rest) k - tri c k) * 1
            /\ tri (boxMax (g a) (map g rest)) k
               = (tri (boxMax a rest) k - tri c k) * 1) in Hbox.
    destruct Hbox as [-> ->].
    assert (Hck : tri c k = - tri d k).
    { unfold c. destruct d as [[d0 d1] d2]. destruct k; reflexivity. }
    rewrite Hck. change (@num Exact) with R. split; ring. }
  assert (Hsize : boxSize (boxMin (g a) (map g rest)) (boxMax (g a) (map g rest))
                  = boxSize (boxMin a rest) (boxMax a rest)).
  { apply vec_eq. intros k. unfold boxSize. rewrite !tri_build.
    destruct (Himg k) as [-> ->]. cbn [nsub Exact].
    change (@num Exact) with R. ring. }
  rewrite Hsize.
  change (g a :: map g rest) with (map g (a :: rest)). rewrite map_map.
  apply map_ext. intros p. apply vec_eq. intros k. rewrite !tri_build.
  unfold boxCenter. rewrite !tri_build.
  destruct (Himg k) as [-> ->].
  rewrite <- Hg.
  assert (Hv : tri (vadd p d) k = tri p k + tri d k).
  { destruct p as [[p0 p1] p2], d as [[d0 d1] d2]. destruct k; reflexivity. }
  rewrite Hv. cbn [nadd ndiv of_Z Exact]. change (@num Exact) with R. field.
Qed.

End NormalizeLaws.

(** * Further properties of the ease function and of the progress counter *)

Module EaseLaws.

Import EaseFacts.
Local Open Scope R_scope.

(** The progress counter in real arithmetic: one fiftieth per frame,
    stopped at 1. *)
Lemma progress_exact (n : nat) :
  @progressAfter Exact n = Rmin (INR n / 50) 1.
Proof.
  induction n as [|n IH].
  - unfold progressAfter, zero. simpl Nat.iter. cbn [INR of_Z Exact].
    change (@num Exact) with R. rewrite Rmin_left; lra.
  - change (@progressAfter Exact (S n))
      with (@advance Exact (@progressAfter Exact n)).
    rewrite IH, S_INR. unfold advance, one.
    cbn [nmin nadd dec of_Z Exact]. change (@num Exact) with R.
    pose proof (pos_INR n) as Hn.
    assert (Hstep : (2 / 10 ^ 2 = 1 / 50)%R) by (simpl; lra).
    rewrite Hstep.
    destruct (Rle_dec (INR n / 50) 1) as [Hle|Hgt].
    + rewrite (Rmin_left (INR n / 50) 1) by exact Hle. f_equal. lra.
    + rewrite (Rmin_right (INR n / 50) 1) by lra.
      rewrite !Rmin_right by lra. reflexivity.
Qed.

(** X11.  In real arithmetic the ease function is symmetric about the
    middle of a transition: the eased factor at [1 - p] is one minus the
    eased factor at [p], so easing out mirrors easing in. *)
Theorem ease_point_symmetric (p : R) :
  @ease Exact (1 - p) = (1 - @ease Exact p)%R.
Proof.
  destruct (Rlt_dec p (1 / 2)) as [Hlo|Hhi].
  - rewrite (ease_low Hlo), ease_high by lra.
    change (@num Exact) with R. ring.
  - destruct (Rlt_dec (1 / 2) p) as [Hgt|Heq].
    + rewrite (@ease_high p), ease_low by lra.
      change (@num Exact) with R. ring.
    + assert (Hp : p = (1 / 2)%R) by lra. subst p.
      rewrite !ease_high by lra. change (@num Exact) with R. field.
Qed.

(** X12.  A transition lasts exactly fifty frames.  In double precision
    the progress counter, started at 0 and advanced by
    [Math.min(progress + 0.02, 1)], is below 1 after fewer than fifty
    frames and is 1 after fifty frames and after any larger number; in
    real arithmetic it is [n / 50] stopped at 1. *)
Theorem transition_lasts_fifty_frames (n : nat) :
  ((n < 50)%nat -> @nltb Binary64 (progressAfter n) one = true)
  /\ ((50 <= n)%nat -> @progressAfter Binary64 n = @one Binary64)
  /\ @progressAfter Exact n = Rmin (INR n / 50) 1.
Proof.
  split; [|split; [|apply progress_exact]].
  - intros Hn.
    assert (Hall : forallb (fun k => @nltb Binary64 (progressAfter k) one)
                           (seq 0 50) = true)
      by (vm_compute; reflexivity).
    rewrite forallb_forall in Hall. apply Hall. apply in_seq. lia.
  - intros Hn.
    assert (H50 : @progressAfter Binary64 50 = @one Binary64)
      by (vm_compute; reflexivity).
    induction Hn as [|m Hm IH]; [exact H50|].
    change (@progressAfter Binary64 (S m))
      with (@advance Binary64 (@progressAfter Binary64 m)).
    rewrite IH. vm_compute. reflexivity.
Qed.

End EaseLaws.

(** * Further properties of the parser and of [getMoleculePoints] *)

Module ParserLaws.

Import Text Parser ParserFacts.
#[local] Existing Instance Binary64.

Lemma indexOf_Some (x : string) (l : list string) :
  forall k i, indexOf x l k = Some i ->
              (k <= i < k + length l)%nat /\ nth_error l (i - k) = Some x.
Proof.
  induction l as [|y l IH]; intros k i H; [discriminate|].
  cbn [indexOf] in H. destruct (String.eqb y x) eqn:E.
  - injection H as <-. apply String.eqb_eq in E. subst y.
    cbn [length]. rewrite Nat.sub_diag. split; [lia|reflexivity].
  - apply IH in H. destruct H as [Hr Hn]. cbn [length]. split; [lia|].
    replace (i - k)%nat with (S (i - S k)) by lia. exact Hn.
Qed.

Lemma indexOf_None (x : string) (l : list string) :
  forall k, indexOf x l k = None <-> ~ In x l.
Proof.
  induction l as [|y l IH]; intros k; cbn [indexOf In]; [tauto|].
  destruct (String.eqb y x) eqn:E.
  - apply String.eqb_eq in E. split; [discriminate|]. intros H. tauto.
  - apply String.eqb_neq in E. rewrite IH. tauto.
Qed.

(** X13.  Looking an element symbol up gives back the symbol: the index
    of the i-th entry of [ELEMENTS] is [i], the entry at the index of a
    listed symbol is that symbol, and every symbol that is not listed
    gets the index of the last entry, "Unknown". *)
Theorem elementIndex_round_trip (e : string) (i : nat) :
  ((i < length ELEMENTS)%nat ->
   elementIndex (nth i ELEMENTS EmptyString) = i)
  /\ (In e ELEMENTS -> nth_error ELEMENTS (elementIndex e) = Some e)
  /\ (~ In e ELEMENTS -> elementIndex e = 10%nat)
  /\ (elementIndex e < length ELEMENTS)%nat.
Proof.
  split; [|split; [|split]].
  - intros Hi.
    do 11 (destruct i as [|i]; [reflexivity|]). simpl in Hi. lia.
  - intros Hin. unfold elementIndex.
    destruct (indexOf e ELEMENTS 0) as [j|] eqn:E.
    + apply indexOf_Some in E. destruct E as [_ E].
      now rewrite Nat.sub_0_r in E.
    + apply indexOf_None in E. contradiction.
  - intros Hn. unfold elementIndex.
    apply (indexOf_None e ELEMENTS 0) in Hn. now rewrite Hn.
  - unfold elementIndex.
    destruct (indexOf e ELEMENTS 0) as [j|] eqn:E.
    + apply indexOf_Some in E. lia.
    + simpl. lia.
Qed.

(** X14.  Every atom the parser keeps has three coordinates that are
    numbers (no NaN), and an element index that is an index of
    [ELEMENTS]. *)
Theorem parsed_atoms_are_clean (sdf : string) (p : Parsed) :
  parseSdf sdf = inr p ->
  Forall (fun a : Vec3 => forall k, F64.is_nan (tri a k) = false) (pAtoms p)
  /\ Forall (fun e => (e < length ELEMENTS)%nat) (pElementIndexes p).
Proof.
  unfold parseSdf.
  destruct (length (lines sdf) <? 4)%nat; [discriminate|].
  remember (filter coordsOk _) as raws eqn:Eraws.
  destruct raws as [|a0 rs]; [discriminate|].
  intros H. injection H as <-. cbn [pAtoms pElementIndexes].
  split.
  - apply Forall_forall. intros a Ha.
    change (In a (map (fun r : AtomRaw => (ax r, ay r, az r)) (a0 :: rs)))
      in Ha.
    apply in_map_iff in Ha.
    destruct Ha as [r [<- Hr]]. rewrite Eraws in Hr.
    apply filter_In in Hr. destruct Hr as [_ Hok].
    unfold coordsOk in Hok. rewrite !andb_true_iff, !negb_true_iff in Hok.
    destruct Hok as [[Hx Hy] Hz]. intros k. destruct k; assumption.
  - apply Forall_forall. intros e He.
    change (In e (map (fun r : AtomRaw => elementIndex (element r))
                      (a0 :: rs))) in He.
    apply in_map_iff in He.
    destruct He as [r [<- _]]. unfold elementIndex.
    destruct (indexOf (element r) ELEMENTS 0) as [j|] eqn:E.
    + apply indexOf_Some in E. lia.
    + simpl. lia.
Qed.

Lemma computeAlignment_total {N : Number} (A B : list Vec3) (rnd : nat -> num) :
  (length A <= length B)%nat -> exists T, computeAlignment A B rnd = inr T.
Proof.
  intros Hle. destruct A as [|a A]; [eexists; reflexivity|].
  unfold computeAlignment.
  destruct (Nat.ltb_spec (length B) (length (a :: A))) as [Hlt|_]; [lia|].
  destruct (svd3x3 _ _) as [[U Sg] Vt]. eexists. reflexivity.
Qed.

(** The alignment step of [getMoleculePoints] never throws. *)
Lemma alignStep_total {N : Number} (ats : list Vec3)
      (pairs : list (Vec3 * Vec3)) (rnd : nat -> num) :
  exists ats', alignStep ats pairs rnd = inr ats'.
Proof.
  unfold alignStep. destruct (3 <=? length pairs)%nat; [|eexists; reflexivity].
  destruct (@computeAlignment_total N (map fst pairs) (map snd pairs) rnd)
    as [T HT]; [now rewrite !length_map|].
  rewrite HT. eexists. reflexivity.
Qed.

(** X15.  The ways [getMoleculePoints] fails: with the rejection of the
    data source; with "SDF too short" or "Parsed zero atoms" from the
    parser; or, when a previous molecule is given, with a TypeError, which
    happens exactly when a bond end of the parsed molecule or of the
    previous molecule is not the index of one of its atoms.  Without a
    previous molecule a parsed record is always returned. *)
Theorem getMoleculePoints_failures
        (source : Source) (rnd : nat -> F64.t) (name : string)
        (previousMol : option Molecule) :
  match source name with
  | inl e => getMoleculePoints source rnd name previousMol = inl e
  | inr sdf =>
      match parseSdf sdf with
      | inl e =>
          getMoleculePoints source rnd name previousMol = inl e
          /\ (e = ErrorMsg "SDF too short" \/ e = ErrorMsg "Parsed zero atoms")
      | inr p =>
          let parsed := mkMolecule (pAtoms p) (pElementIndexes p) (pBonds p)
                                   None in
          match previousMol with
          | None => exists mol,
              getMoleculePoints source rnd name previousMol = inr mol
          | Some prev =>
              (validBonds parsed /\ validBonds prev ->
               exists mol,
                 getMoleculePoints source rnd name previousMol = inr mol)
              /\ (~ (validBonds parsed /\ validBonds prev) ->
                  getMoleculePoints source rnd name previousMol = inl TypeError)
          end
      end
  end.
Proof.
  unfold getMoleculePoints.
  destruct (source name) as [e|sdf]; [reflexivity|].
  destruct (parseSdf sdf) as [e|p] eqn:Ep.
  - split; [reflexivity|]. unfold parseSdf in Ep.
    destruct (length (lines sdf) <? 4)%nat;
      [injection Ep as <-; now left|].
    destruct (filter coordsOk _); [injection Ep as <-; now right|discriminate].
  - cbv zeta. destruct previousMol as [prev|]; [|eexists; reflexivity].
    set (parsed := mkMolecule (pAtoms p) (pElementIndexes p) (pBonds p) None).
    destruct (computeAtomMapping parsed prev) as [e|mapping] eqn:Em.
    + assert (He : e = TypeError /\ ~ (validBonds parsed /\ validBonds prev)).
      { unfold computeAtomMapping, adjacency in Em.
        destruct (fold_left (adjacencyStep (length (atoms parsed)))
                            (bonds parsed) _) as [eA|adjA] eqn:HA.
        - apply adjacency_fold_thrown in HA. destruct HA as [-> HnA].
          injection Em as <-. split; [reflexivity|]. intros [Hv _]. now apply HnA.
        - destruct (fold_left (adjacencyStep (length (atoms prev)))
                              (bonds prev) _) as [eB|adjB] eqn:HB;
            [|discriminate].
          apply adjacency_fold_thrown in HB. destruct HB as [-> HnB].
          injection Em as <-. split; [reflexivity|]. intros [_ Hv]. now apply HnB. }
      destruct He as [-> Hnv]. split; [intros Hv; contradiction|reflexivity].
    + assert (Hv : validBonds parsed /\ validBonds prev).
      { unfold computeAtomMapping, adjacency in Em.
        destruct (fold_left (adjacencyStep (length (atoms parsed)))
                            (bonds parsed) _) as [eA|adjA] eqn:HA;
          [discriminate|].
        destruct (fold_left (adjacencyStep (length (atoms prev)))
                            (bonds prev) _) as [eB|adjB] eqn:HB;
          [discriminate|].
        split; [exact (adjacency_fold_valid _ _ _ HA)
               |exact (adjacency_fold_valid _ _ _ HB)]. }
      destruct (@alignStep_total Binary64 (pAtoms p)
                  (matchedPairs (pAtoms p) (atoms prev) mapping) rnd)
        as [ats Ha].
      rewrite Ha. split; [intros _; eexists; reflexivity|].
      intros Hn. contradiction.
Qed.

End ParserLaws.

(** * The molecules of a loaded sequence *)

Section MappingShape.

Context {N : Number}.

Lemma mapping_injective_rule (molA molB : Molecule) (mapping : list Z) :
  computeAtomMapping molA molB = inr mapping -> injectiveOnDefined mapping.
Proof.
  unfold computeAtomMapping.
  destruct (adjacency (bonds molA) (length (atoms molA))) as [e|adjA];
    [discriminate|].
  destruct (adjacency (bonds molB) (length (atoms molB))) as [e|adjB];
    [discriminate|].
  intros H. injection H as <-.
  destruct (mappingLoop_inv (elementIndexes molA) (elementIndexes molB)
              adjA adjB (length (atoms molB)) (le_n (length (atoms molA))))
    as [Hlen [_ [_ [_ [_ Hinj]]]]].
  intros i k Hi Hk Hne Hdi _. rewrite Hlen in Hi, Hk. now apply Hinj.
Qed.

Lemma mapping_valid_bonds (molA molB : Molecule) (mapping : list Z) :
  computeAtomMapping molA molB = inr mapping ->
  validBonds molA /\ validBonds molB.
Proof.
  unfold computeAtomMapping, adjacency.
  destruct (fold_left (adjacencyStep (length (atoms molA))) (bonds molA) _)
    as [eA|adjA] eqn:HA; [discriminate|].
  destruct (fold_left (adjacencyStep (length (atoms molB))) (bonds molB) _)
    as [eB|adjB] eqn:HB; [discriminate|].
  intros _. split; [exact (adjacency_fold_valid _ _ _ HA)
                   |exact (adjacency_fold_valid _ _ _ HB)].
Qed.

End MappingShape.

Module SequenceLaws.

Import Text Parser ParserFacts.
#[local] Existing Instance Binary64.

(** A molecule built against a predecessor. *)
Lemma built_with_predecessor
      (source : Source) (rnd : nat -> F64.t) (name : string)
      (prev mol : Molecule) :
  getMoleculePoints source rnd name (Some prev) = inr mol ->
  exists m,
    atomMapping mol = Some m
    /\ length m = length (atoms mol)
    /\ (forall i, (-1 <= nth i m (-1) < Z.of_nat (length (atoms prev)))%Z)
    /\ injectiveOnDefined m
    /\ (forall i j, (i < length (atoms mol))%nat ->
          nth i m (-1)%Z = Z.of_nat j ->
          nth_error (elementIndexes mol) i = nth_error (elementIndexes prev) j)
    /\ drawable mol.
Proof.
  unfold getMoleculePoints.
  destruct (source name) as [e|sdf]; [discriminate|].
  destruct (parseSdf sdf) as [e|p]; [discriminate|].
  set (parsed := mkMolecule (pAtoms p) (pElementIndexes p) (pBonds p) None).
  destruct (computeAtomMapping parsed prev) as [e|m] eqn:Em; [discriminate|].
  destruct (@alignStep Binary64 _ _ rnd) as [e|ats] eqn:Ea; [discriminate|].
  intros H. injection H as <-. cbn [atomMapping atoms elementIndexes bonds].
  apply alignStep_length in Ea.
  destruct (mapping_greedy_rule _ _ Em) as [Hlen Hrule].
  cbn [atoms parsed] in Hlen.
  assert (Hrange : forall i,
             (-1 <= nth i m (-1) < Z.of_nat (length (atoms prev)))%Z).
  { intros i. destruct (Nat.lt_ge_cases i (length (pAtoms p))) as [Hi|Hi].
    - apply (Hrule i Hi).
    - rewrite nth_overflow by lia. lia. }
  exists m. split; [reflexivity|].
  split; [now rewrite normalize_length, Ea|].
  split; [exact Hrange|].
  split; [exact (mapping_injective_rule _ _ Em)|].
  split.
  - intros i j Hi Hj. rewrite normalize_length, Ea in Hi.
    destruct (Hrule i Hi) as [_ [_ Hchoice]].
    destruct (Hchoice j Hj) as [[_ [_ Htag]] _]. exact Htag.
  - split.
    + intros m' Hm'. cbn [atomMapping] in Hm'. injection Hm' as <-.
      apply Forall_forall. intros v Hv.
      destruct (In_nth _ _ (-1)%Z Hv) as [i [_ <-]]. apply Hrange.
    + destruct (mapping_valid_bonds _ _ Em) as [Hv _].
      unfold validBonds in *. cbn [atoms bonds parsed] in *.
      now rewrite normalize_length, Ea.
Qed.
(** X16.  What [getMoleculePoints] returns carries no map when it was
    built without predecessor.  Built against a predecessor it carries a
    map with one entry per atom; every entry is -1 or the index of an atom
    of the predecessor with the same element tag, no two atoms share a
    predecessor atom, and the bonds of the molecule join atoms it has. *)
Theorem molecule_carries_map_to_predecessor
        (source : Source) (rnd : nat -> F64.t) (name : string)
        (previousMol : option Molecule) (mol : Molecule) :
  getMoleculePoints source rnd name previousMol = inr mol ->
  match previousMol with
  | None => atomMapping mol = None
  | Some prev =>
      exists m,
        atomMapping mol = Some m
        /\ length m = length (atoms mol)
        /\ (forall i, (-1 <= nth i m (-1) < Z.of_nat (length (atoms prev)))%Z)
        /\ injectiveOnDefined m
        /\ (forall i j, (i < length (atoms mol))%nat ->
              nth i m (-1)%Z = Z.of_nat j ->
              nth_error (elementIndexes mol) i
              = nth_error (elementIndexes prev) j)
        /\ validBonds mol
  end.
Proof.
  destruct previousMol as [prev|].
  - intros H. destruct (built_with_predecessor _ _ _ _ H)
      as [m [Hm [Hl [Hr [Hi [Ht [_ Hv]]]]]]].
    exists m. repeat (split; [assumption|]). exact Hv.
  - unfold getMoleculePoints.
    destruct (source name) as [e|sdf]; [discriminate|].
    destruct (parseSdf sdf) as [e|p]; [discriminate|].
    intros H. now injection H as <-.
Qed.

Lemma built_without_predecessor
      (source : Source) (rnd : nat -> F64.t) (name : string) (mol : Molecule) :
  getMoleculePoints source rnd name None = inr mol -> atomMapping mol = None.
Proof.
  unfold getMoleculePoints.
  destruct (source name) as [e|sdf]; [discriminate|].
  destruct (parseSdf sdf) as [e|p]; [discriminate|].
  intros H. now injection H as <-.
Qed.

(** The loop of the loader, from any point of its run. *)
Lemma loadLoop_shape (source : Source) (rnd : nat -> nat -> F64.t)
      (names : list string) :
  forall (k : nat) (prev : option Molecule) (sets0 sets : list Molecule)
         (err : option Thrown),
    loadLoop source rnd names k prev sets0 = (sets, err) ->
    exists added,
      sets = sets0 ++ added
      /\ (err = None -> length added = length names)
      /\ (err <> None -> (length added < length names)%nat)
      /\ forall i mol, nth_error added i = Some mol ->
           ((i = 0)%nat -> prev = None -> atomMapping mol = None)
           /\ ((0 < i)%nat \/ prev <> None ->
               atomMapping mol <> None /\ drawable mol).
Proof.
  induction names as [|name names IH]; intros k prev sets0 sets err H.
  - cbn [loadLoop] in H. injection H as <- <-. exists [].
    split; [now rewrite app_nil_r|]. split; [reflexivity|].
    split; [congruence|]. intros i mol Hi. destruct i; discriminate.
  - cbn [loadLoop] in H.
    destruct (getMoleculePoints source (rnd k) name prev) as [e|mol0] eqn:Eg.
    + injection H as <- <-. exists [].
      split; [now rewrite app_nil_r|]. split; [discriminate|].
      split; [intros _; cbn [length]; lia|].
      intros i mol Hi. destruct i; discriminate.
    + apply IH in H. destruct H as [added [Hs [Hok [Hbad Hmol]]]].
      exists (mol0 :: added).
      split; [now rewrite Hs, <- app_assoc|].
      split; [intros He; cbn [length]; now rewrite Hok|].
      split; [intros He; cbn [length]; apply Hbad in He; lia|].
      intros i mol Hi. destruct i as [|i].
      * cbn [nth_error] in Hi. injection Hi as <-. split.
        -- intros _ Hp. subst prev.
           exact (built_without_predecessor _ _ _ Eg).
        -- intros [Hlt|Hp]; [lia|].
           destruct prev as [pm|]; [|congruence].
           destruct (built_with_predecessor _ _ _ _ Eg)
             as [m [Hm [_ [_ [_ [_ Hd]]]]]].
           split; [congruence|exact Hd].
      * cbn [nth_error] in Hi. split; [discriminate|]. intros _.
        apply (Hmol i mol Hi). right. discriminate.
Qed.

(** X17.  What the loader leaves in [POSITION_SETS] when it starts from
    the empty list: at most one molecule per name, all of them when no
    call was rejected and fewer otherwise; the first molecule carries no
    map, every later one carries a map and can be drawn (its map entries
    are -1 or not negative and its bonds join atoms it has). *)
Theorem loaded_sequence_shape
        (source : Source) (rnd : nat -> nat -> F64.t) (names : list string)
        (sets : list Molecule) (err : option Thrown) :
  loadMoleculesOnce source rnd [] names = (sets, err) ->
  (err = None -> length sets = length names)
  /\ (err <> None -> (length sets < length names)%nat)
  /\ forall k mol, nth_error sets k = Some mol ->
       ((k = 0)%nat -> atomMapping mol = None)
       /\ ((0 < k)%nat -> atomMapping mol <> None /\ drawable mol).
Proof.
  unfold loadMoleculesOnce. intros H.
  apply loadLoop_shape in H. destruct H as [added [Hs [Hok [Hbad Hmol]]]].
  cbn [app] in Hs. subst added.
  split; [exact Hok|]. split; [exact Hbad|].
  intros k mol Hk. destruct (Hmol k mol Hk) as [H0 H1].
  split; [intros E; now apply H0 | intros Hlt; apply H1; now left].
Qed.

(** X18.  After a load, a call of [transition] for any molecule of the
    sequence but the first returns without an exception, in the sprite
    viewer and in the mesh viewer, whatever the scene holds. *)
Theorem loaded_targets_never_throw
        (source : Source) (rnd : nat -> nat -> F64.t) (names : list string)
        (sets : list Molecule) (err : option Thrown) (idx : nat)
        (stS : SpriteViewer.Viewer) (stM : MeshViewer.Viewer) :
  loadMoleculesOnce source rnd [] names = (sets, err) ->
  (0 < idx < length sets)%nat ->
  SpriteViewer.POSITION_SETS stS = sets ->
  MeshViewer.POSITION_SETS stM = sets ->
  snd (SpriteViewer.transition idx stS) = None
  /\ snd (MeshViewer.transition idx stM) = None.
Proof.
  unfold loadMoleculesOnce. intros H Hidx HS HM.
  apply loadLoop_shape in H. destruct H as [added [Hs [_ [_ Hmol]]]].
  cbn [app] in Hs. subst added.
  destruct (nth_error sets idx) as [mol|] eqn:E;
    [|apply nth_error_None in E; lia].
  destruct (Hmol idx mol E) as [_ Hd].
  destruct Hd as [_ Hd]; [left; lia|].
  split.
  - destruct (@SpriteFacts.sprite_transition_reads_scene _ idx stS mol)
      as [st' [Ht _]]; [now rewrite HS | exact Hd |].
    now rewrite Ht.
  - destruct (@MeshFacts.mesh_transition_reads_scene _ idx stM mol)
      as [st' [Ht _]]; [now rewrite HM | exact Hd |].
    now rewrite Ht.
Qed.

End SequenceLaws.

(** * Further properties of the sprite viewer *)

Module SpriteLaws.

Import SpriteViewer SpriteFacts.

Section Laws.

Context {N : Number}.

Lemma forEachFrom_keeps {A B : Type} (g : A -> B)
      (f : nat -> A -> A * option Thrown) :
  (forall i x, g (fst (f i x)) = g x) ->
  forall l i, map g (fst (forEachFrom f i l)) = map g l.
Proof.
  intros Hf. induction l as [|x l IH]; intros i; [reflexivity|].
  cbn [forEachFrom]. pose proof (Hf i x) as Hx.
  destruct (f i x) as [y [e|]].
  - cbn [fst map] in *. now rewrite Hx.
  - specialize (IH (S i)). destruct (forEachFrom f (S i) l) as [r' e'].
    cbn [fst map] in *. now rewrite Hx, IH.
Qed.

Lemma forEachFrom_length {A : Type} (f : nat -> A -> A * option Thrown)
      (l : list A) (i : nat) :
  length (fst (forEachFrom f i l)) = length l.
Proof.
  rewrite <- (length_map (fun _ => tt)).
  rewrite (forEachFrom_keeps (fun _ => tt)); [apply length_map|reflexivity].
Qed.

Lemma retargetLine_keeps_ends (mol : Molecule) (i : nat) (l : BondLine) :
  lineStarts (fst (retargetLine mol i l)) = lineStarts l.
Proof.
  unfold retargetLine.
  destruct (nth_error (bonds mol) i) as [b|]; [|reflexivity].
  destruct (below (from b) (length (atoms mol))
            && below (to b) (length (atoms mol)))%bool; [|reflexivity].
  destruct (endpoint (atoms mol) (from b)); [|reflexivity].
  destruct (endpoint (atoms mol) (to b)); reflexivity.
Qed.

Lemma transition_keeps (idx : nat) (st : Viewer) :
  length (sharedSprites (fst (transition idx st))) = length (sharedSprites st)
  /\ map lineStarts (sharedBondLines (fst (transition idx st)))
     = map lineStarts (sharedBondLines st)
  /\ POSITION_SETS (fst (transition idx st)) = POSITION_SETS st.
Proof.
  unfold transition.
  destruct (nth_error (POSITION_SETS st) idx) as [mol|];
    [|repeat split; reflexivity].
  pose proof (forEachFrom_length (retarget mol) (sharedSprites st) 0) as HS.
  pose proof (forEachFrom_keeps lineStarts (retargetLine mol)
                (retargetLine_keeps_ends mol) (sharedBondLines st) 0) as HL.
  destruct (forEachFrom (retarget mol) 0 (sharedSprites st)) as [sp [e|]].
  - repeat split; assumption.
  - destruct (forEachFrom (retargetLine mol) 0 (sharedBondLines st))
      as [ls [e|]]; repeat split; assumption.
Qed.

Lemma animate_keeps (st : Viewer) :
  length (sharedSprites (animate st)) = length (sharedSprites st)
  /\ map lineStarts (sharedBondLines (animate st)) = map lineStarts (sharedBondLines st)
  /\ POSITION_SETS (animate st) = POSITION_SETS st.
Proof.
  unfold animate. destruct (animating st); [|repeat split; reflexivity].
  cbn [sharedSprites sharedBondLines POSITION_SETS].
  rewrite length_map, map_map. repeat split; reflexivity.
Qed.

Lemma spriteRun_keeps (evs : list Event) :
  forall st,
    length (sharedSprites (spriteRun evs st)) = length (sharedSprites st)
    /\ map lineStarts (sharedBondLines (spriteRun evs st))
       = map lineStarts (sharedBondLines st)
    /\ POSITION_SETS (spriteRun evs st) = POSITION_SETS st.
Proof.
  induction evs as [|ev evs IH]; intros st; [repeat split; reflexivity|].
  cbn [spriteRun fold_left]. fold (spriteRun evs (spriteStep st ev)).
  destruct (IH (spriteStep st ev)) as [H1 [H2 H3]].
  rewrite H1, H2, H3. destruct ev as [|idx]; cbn [spriteStep].
  - apply animate_keeps.
  - apply transition_keeps.
Qed.

Lemma initBondLines_ends (first : Molecule) (bs : list Bond) :
  Forall (fun l => In (startStart l) (atoms first)
                   /\ In (startEnd l) (atoms first)
                   /\ targetStart l = startStart l
                   /\ targetEnd l = startEnd l)
         (fst (initBondLines first bs)).
Proof.
  induction bs as [|b bs IH]; [constructor|].
  cbn [initBondLines]. unfold initBondLine.
  destruct (atLeast (from b) (length (atoms first))
            || atLeast (to b) (length (atoms first)))%bool.
  - destruct (initBondLines first bs) as [ls e]. exact IH.
  - destruct (endpoint (atoms first) (from b)) as [p|] eqn:Ep;
      [|constructor].
    destruct (endpoint (atoms first) (to b)) as [q|] eqn:Eq; [|constructor].
    destruct (initBondLines first bs) as [ls e]. cbn [fst] in *.
    constructor; [|exact IH]. cbn [startStart startEnd targetStart targetEnd].
    assert (Hin : forall v r, endpoint (atoms first) v = Some r ->
                              In r (atoms first)).
    { intros v r Hr. unfold endpoint, atomAt in Hr.
      destruct v as [z|]; [|discriminate].
      destruct (z <? 0)%Z; [discriminate|].
      eapply nth_error_In; eassumption. }
    repeat split; eauto.
Qed.

(** X19.  Once [init] has run on a non-empty sequence, the scene has its
    150 sprites for good, and no frame and no call of [transition] ever
    changes the two points a bond line starts its interpolation from: they
    stay the positions the two atoms have in the first molecule, so every
    transition draws the bonds as moving away from the first molecule. *)
Theorem sprite_scene_is_fixed (sets : list Molecule) (first : Molecule)
        (evs : list Event) :
  nth_error sets 0 = Some first ->
  length (sharedSprites (spriteRun evs (fst (init sets)))) = maxPoints
  /\ POSITION_SETS (spriteRun evs (fst (init sets))) = sets
  /\ map lineStarts (sharedBondLines (spriteRun evs (fst (init sets))))
     = map lineStarts (fst (initBondLines first (bonds first)))
  /\ Forall (fun l => In (startStart l) (atoms first)
                      /\ In (startEnd l) (atoms first))
            (sharedBondLines (spriteRun evs (fst (init sets)))).
Proof.
  intros Hfirst.
  destruct (spriteRun_keeps evs (fst (init sets))) as [H1 [H2 H3]].
  assert (Hinit : length (sharedSprites (fst (init sets))) = maxPoints
                  /\ map lineStarts (sharedBondLines (fst (init sets)))
                     = map lineStarts (fst (initBondLines first (bonds first)))
                  /\ POSITION_SETS (fst (init sets)) = sets).
  { unfold init, setup. rewrite Hfirst.
    destruct (initBondLines first (bonds first)) as [ls [e|]].
    - cbn [fst sharedSprites sharedBondLines POSITION_SETS].
      unfold initSprites. rewrite length_map, length_seq. repeat split.
    - destruct (transition_keeps 0
                  (animate (mkViewer (initSprites first) ls sets zero false)))
        as [T1 [T2 T3]].
      rewrite T1, T2, T3. cbn [animate animating fst].
      cbn [sharedSprites sharedBondLines POSITION_SETS].
      unfold initSprites. rewrite length_map, length_seq. repeat split. }
  destruct Hinit as [I1 [I2 I3]].
  rewrite H1, H2, H3. split; [exact I1|]. split; [exact I3|].
  split; [exact I2|].
  assert (Hstarts : Forall (fun pq : Vec3 * Vec3 =>
                            In (fst pq) (atoms first)
                            /\ In (snd pq) (atoms first))
                         (map lineStarts (sharedBondLines
                                      (spriteRun evs (fst (init sets)))))).
  { rewrite H2, I2. apply Forall_map.
    eapply Forall_impl; [|apply initBondLines_ends].
    intros l [Ha [Hb _]]. split; assumption. }
  apply Forall_map in Hstarts. exact Hstarts.
Qed.

Lemma retarget_target (mol : Molecule) (i : nat) (s : Sprite) :
  drawable mol ->
  ((i < length (atoms mol))%nat ->
   In (target (fst (retarget mol i s))) (atoms mol)
   /\ fadeEnd (fst (retarget mol i s)) = one)
  /\ ((length (atoms mol) <= i)%nat ->
      (forall m, atomMapping mol = Some m -> (length m <= i)%nat) ->
      target (fst (retarget mol i s)) = position s
      /\ fadeEnd (fst (retarget mol i s)) = zero).
Proof.
  intros [Hmap _]. unfold retarget.
  assert (Hdirect :
    ((i < length (atoms mol))%nat ->
     In (target (fst (match nth_error (atoms mol) i with
        | Some p => (mkSprite (position s) (opacity s) (position s) p
                              (opacity s) one, @None Thrown)
        | None => (mkSprite (position s) (opacity s) (position s)
                            (position s) (opacity s) zero, None)
        end))) (atoms mol)
     /\ fadeEnd (fst (match nth_error (atoms mol) i with
        | Some p => (mkSprite (position s) (opacity s) (position s) p
                              (opacity s) one, @None Thrown)
        | None => (mkSprite (position s) (opacity s) (position s)
                            (position s) (opacity s) zero, None)
        end)) = one)
    /\ ((length (atoms mol) <= i)%nat ->
        target (fst (match nth_error (atoms mol) i with
        | Some p => (mkSprite (position s) (opacity s) (position s) p
                              (opacity s) one, @None Thrown)
        | None => (mkSprite (position s) (opacity s) (position s)
                            (position s) (opacity s) zero, None)
        end)) = position s
        /\ fadeEnd (fst (match nth_error (atoms mol) i with
        | Some p => (mkSprite (position s) (opacity s) (position s) p
                              (opacity s) one, @None Thrown)
        | None => (mkSprite (position s) (opacity s) (position s)
                            (position s) (opacity s) zero, None)
        end)) = zero)).
  { destruct (nth_error (atoms mol) i) as [p|] eqn:Ep.
    - split.
      + intros _. split; [exact (nth_error_In _ _ Ep)|reflexivity].
      + intros Hge. apply nth_error_None in Hge. congruence.
    - split.
      + intros Hlt. apply nth_error_None in Ep. lia.
      + intros _. split; reflexivity. }
  destruct (atomMapping mol) as [m|] eqn:Em.
  - specialize (Hmap m eq_refl).
    destruct (nth_error m i) as [v|] eqn:Ev.
    + assert (Hv : (-1 <= v)%Z).
      { rewrite Forall_forall in Hmap. apply Hmap.
        eapply nth_error_In; eassumption. }
      destruct (negb (v =? -1)%Z && (v <? Z.of_nat (length (atoms mol)))%Z)%bool
        eqn:Ec.
      * apply andb_true_iff in Ec. destruct Ec as [Hne Hlt].
        apply negb_true_iff, Z.eqb_neq in Hne. apply Z.ltb_lt in Hlt.
        destruct (atomAt (atoms mol) v) as [p|] eqn:Ea;
          [|exfalso; apply (@atomAt_defined _ (atoms mol) v); [lia|assumption]].
        cbn [fst target fadeEnd]. split.
        -- intros _. split; [|reflexivity].
           unfold atomAt in Ea. destruct (v <? 0)%Z; [discriminate|].
           exact (nth_error_In _ _ Ea).
        -- intros _ Hm. specialize (Hm m eq_refl).
           apply nth_error_None in Hm. congruence.
      * destruct Hdirect as [H1 H2]. split; [exact H1|]. intros Hge _. auto.
    + destruct Hdirect as [H1 H2]. split; [exact H1|]. intros Hge _. auto.
  - destruct Hdirect as [H1 H2]. split; [exact H1|]. intros Hge _. auto.
Qed.

(** X20.  After a call of [transition] for a target that can be drawn,
    every sprite whose index is below the number of atoms of the target
    heads for an atom of the target and fades in to full opacity; a
    sprite beyond the atoms and beyond the map stays where it is and fades
    out. *)
Theorem sprite_targets_after_transition
        (idx : nat) (st : Viewer) (mol : Molecule) (i : nat) (s : Sprite) :
  nth_error (POSITION_SETS st) idx = Some mol -> drawable mol ->
  nth_error (sharedSprites st) i = Some s ->
  exists s',
    nth_error (sharedSprites (fst (transition idx st))) i = Some s'
    /\ ((i < length (atoms mol))%nat ->
        In (target s') (atoms mol) /\ fadeEnd s' = one)
    /\ ((length (atoms mol) <= i)%nat ->
        (forall m, atomMapping mol = Some m -> (length m <= i)%nat) ->
        target s' = position s /\ fadeEnd s' = zero).
Proof.
  intros Hmol Hd Hs. unfold transition. rewrite Hmol.
  destruct (@forEachFrom_ok Sprite (retarget mol) (sharedSprites st) 0)
    as [sprites [Hsp [_ Hnth]]].
  { intros k x. now apply retarget_reads_position. }
  destruct (@forEachFrom_ok BondLine (retargetLine mol) (sharedBondLines st) 0)
    as [ls [Hl _]].
  { intros k x. now apply retargetLine_ok. }
  rewrite Hsp, Hl. cbn [fst sharedSprites].
  exists (fst (retarget mol (0 + i) s)). split; [exact (Hnth i s Hs)|].
  cbn [Nat.add]. now apply retarget_target.
Qed.

Lemma forEachFrom_twice {A : Type} (f : nat -> A -> A * option Thrown) :
  (forall k x, f k (fst (f k x)) = f k x) ->
  forall l i, forEachFrom f i (fst (forEachFrom f i l)) = forEachFrom f i l.
Proof.
  intros Hf. induction l as [|x l IH]; intros i; [reflexivity|].
  cbn [forEachFrom]. pose proof (Hf i x) as Hx.
  destruct (f i x) as [y [e|]] eqn:E.
  - cbn [fst] in *. cbn [forEachFrom]. now rewrite Hx.
  - specialize (IH (S i)).
    destruct (forEachFrom f (S i) l) as [r' e'] eqn:E2.
    cbn [fst] in *. cbn [forEachFrom]. now rewrite Hx, IH.
Qed.

Lemma retarget_twice (mol : Molecule) (i : nat) (s : Sprite) :
  retarget mol i (fst (retarget mol i s)) = retarget mol i s.
Proof.
  unfold retarget.
  destruct (match atomMapping mol with
            | Some m =>
                match nth_error m i with
                | Some v =>
                    if (negb (v =? -1)
                        && (v <? Z.of_nat (length (atoms mol))))%Z%bool
                    then Some v else None
                | None => None
                end
            | None => None
            end) as [v|].
  - destruct (atomAt (atoms mol) v); reflexivity.
  - destruct (nth_error (atoms mol) i); reflexivity.
Qed.

Lemma retargetLine_twice (mol : Molecule) (i : nat) (l : BondLine) :
  retargetLine mol i (fst (retargetLine mol i l)) = retargetLine mol i l.
Proof.
  unfold retargetLine.
  destruct (nth_error (bonds mol) i) as [b|]; [|reflexivity].
  destruct (below (from b) (length (atoms mol))
            && below (to b) (length (atoms mol)))%bool; [|reflexivity].
  destruct (endpoint (atoms mol) (from b)); [|reflexivity].
  destruct (endpoint (atoms mol) (to b)); reflexivity.
Qed.

(** X21.  Calling [transition] a second time for the same target, with no
    frame in between, changes nothing: the scene, the progress and the
    exception, if there is one, are those of the first call. *)
Theorem sprite_transition_idempotent (idx : nat) (st : Viewer) :
  transition idx (fst (transition idx st)) = transition idx st.
Proof.
  unfold transition at 2 3.
  destruct (nth_error (POSITION_SETS st) idx) as [mol|] eqn:Hmol.
  - pose proof (forEachFrom_twice (retarget mol) (retarget_twice mol)
                  (sharedSprites st) 0) as HS.
    pose proof (forEachFrom_twice (retargetLine mol) (retargetLine_twice mol)
                  (sharedBondLines st) 0) as HL.
    destruct (forEachFrom (retarget mol) 0 (sharedSprites st))
      as [sp [e|]] eqn:Esp.
    + cbn [fst] in *. unfold transition. cbn [POSITION_SETS sharedSprites].
      now rewrite Hmol, HS.
    + destruct (forEachFrom (retargetLine mol) 0 (sharedBondLines st))
        as [ls [e|]] eqn:Els;
        cbn [fst] in *; unfold transition;
        cbn [POSITION_SETS sharedSprites sharedBondLines];
        now rewrite Hmol, HS, HL.
  - cbn [fst]. unfold transition. now rewrite Hmol.
Qed.

End Laws.

End SpriteLaws.

(** ** The course of a transition in real arithmetic *)

Module SpriteExact.

Import SpriteViewer EaseFacts.
#[local] Existing Instance Exact.
Local Open Scope R_scope.

(** The scene [n] frames into a transition, for [n] from 1 to 50. *)
Lemma frames_closed_form (st : Viewer) (n : nat) :
  animating st = true -> progress st = 0 ->
  (1 <= n <= 50)%nat ->
  Nat.iter n animate st
  = mkViewer
      (map (fun s =>
              mkSprite (lerpVectors (start s) (target s) (ease (INR n / 50)))
                       (lerp (fadeStart s) (fadeEnd s) (ease (INR n / 50)))
                       (start s) (target s) (fadeStart s) (fadeEnd s))
           (sharedSprites st))
      (map (fun l =>
              mkBondLine (startStart l) (startEnd l) (targetStart l)
                (targetEnd l)
                (lerpVectors (startStart l) (targetStart l)
                             (ease (INR n / 50)),
                 lerpVectors (startEnd l) (targetEnd l) (ease (INR n / 50))))
           (sharedBondLines st))
      (POSITION_SETS st) (INR n / 50) (n <? 50)%nat.
Proof.
  intros Ha Hp [H1 H50].
  assert (Hadv : forall k, (k < 50)%nat ->
                   @advance Exact (INR k / 50) = INR (S k) / 50).
  { intros k Hk. unfold advance, one. cbn [nmin nadd dec of_Z Exact].
    change (@num Exact) with R.
    assert (Hstep : 2 / 10 ^ 2 = 1 / 50) by (simpl; lra).
    rewrite Hstep, S_INR.
    assert (Hle : INR (S k) <= 50).
    { replace 50 with (INR 50) by (rewrite INR_IZR_INZ; reflexivity).
      apply le_INR. lia. }
    rewrite S_INR in Hle.
    rewrite Rmin_left by lra. lra. }
  assert (Hstop : forall k, (k < 50)%nat ->
            (if @nleb Exact one (INR (S k) / 50) then false else true)
            = (S k <? 50)%nat).
  { intros k Hk. unfold one. cbn [nleb of_Z Exact].
    assert (H50R : INR 50 = 50) by (rewrite INR_IZR_INZ; reflexivity).
    destruct (Rle_dec 1 (INR (S k) / 50)) as [Hle|Hgt];
      destruct (Nat.ltb_spec (S k) 50) as [Hlt|Hge]; try reflexivity.
    - exfalso. apply lt_INR in Hlt. rewrite H50R in Hlt. lra.
    - exfalso. apply le_INR in Hge. rewrite H50R in Hge. lra. }
  induction n as [|n IH]; [lia|].
  destruct n as [|n].
  - change (Nat.iter 1 animate st) with (animate st).
    unfold animate. rewrite Ha, Hp.
    assert (H0 : @advance Exact 0 = INR 1 / 50).
    { rewrite <- (Hadv 0%nat) by lia. f_equal. cbn [INR]. lra. }
    rewrite H0. rewrite (Hstop 0%nat) by lia. reflexivity.
  - change (Nat.iter (S (S n)) animate st)
      with (animate (Nat.iter (S n) animate st)).
    rewrite IH by lia. unfold animate at 1.
    cbn [animating progress sharedSprites sharedBondLines POSITION_SETS].
    destruct (Nat.ltb_spec (S n) 50) as [Hlt|Hge]; [|lia].
    rewrite (Hadv (S n)) by lia. rewrite (Hstop (S n)) by lia.
    rewrite !map_map. reflexivity.
Qed.

Lemma lerpVectors_one (u v : Vec3) : lerpVectors u v 1 = v.
Proof.
  destruct u as [[u0 u1] u2], v as [[v0 v1] v2].
  unfold lerpVectors, build, tri. cbn [nadd nsub nmul Exact].
  change (@num Exact) with R.
  f_equal; [f_equal|]; ring.
Qed.

Lemma ease_one : @ease Exact 1 = 1.
Proof. rewrite ease_high by lra. change (@num Exact) with R. ring. Qed.

(** X22.  In real arithmetic a transition of the sprite viewer, started
    with progress 0, plays for exactly fifty frames.  [n] frames in, every
    sprite is at the interpolation between the start saved by
    [transition] and its target at the eased factor of [n / 50]; the
    fiftieth frame puts every sprite on its target with the opacity it was
    fading to and every bond line on its target points, and switches the
    animation off; later frames change nothing. *)
Theorem sprite_transition_completes (st : Viewer) :
  animating st = true -> progress st = 0 ->
  (forall n, (n < 50)%nat -> animating (Nat.iter n animate st) = true)
  /\ (forall n i s, (1 <= n <= 50)%nat ->
        nth_error (sharedSprites st) i = Some s ->
        exists s',
          nth_error (sharedSprites (Nat.iter n animate st)) i = Some s'
          /\ position s'
             = lerpVectors (start s) (target s) (ease (INR n / 50)))
  /\ animating (Nat.iter 50 animate st) = false
  /\ Forall (fun s => position s = target s /\ opacity s = fadeEnd s)
            (sharedSprites (Nat.iter 50 animate st))
  /\ Forall (fun l => geometry l = (targetStart l, targetEnd l))
            (sharedBondLines (Nat.iter 50 animate st))
  /\ forall n, (50 <= n)%nat ->
       Nat.iter n animate st = Nat.iter 50 animate st.
Proof.
  intros Ha Hp.
  assert (Hone : INR 50 / 50 = 1) by (rewrite INR_IZR_INZ; simpl; lra).
  split; [|split; [|split; [|split; [|split]]]].
  - intros n Hn. destruct n as [|n]; [exact Ha|].
    rewrite (frames_closed_form st Ha Hp) by lia. cbn [animating].
    apply Nat.ltb_lt. exact Hn.
  - intros n i s Hn Hs.
    rewrite (frames_closed_form st Ha Hp Hn). cbn [sharedSprites].
    rewrite nth_error_map, Hs. cbn [option_map].
    eexists. split; reflexivity.
  - rewrite (frames_closed_form st Ha Hp) by lia. reflexivity.
  - rewrite (frames_closed_form st Ha Hp) by lia. cbn [sharedSprites].
    rewrite Hone, ease_one. apply Forall_map, Forall_forall.
    intros s _. cbn [position target opacity fadeEnd].
    split; [apply lerpVectors_one|].
    unfold lerp, one. cbn [nadd nsub nmul of_Z Exact].
    change (@num Exact) with R. ring.
  - rewrite (frames_closed_form st Ha Hp) by lia. cbn [sharedBondLines].
    rewrite Hone, ease_one. apply Forall_map, Forall_forall.
    intros l _. cbn [geometry targetStart targetEnd].
    now rewrite !lerpVectors_one.
  - intros n Hn. induction Hn as [|m Hm IH]; [reflexivity|].
    change (Nat.iter (S m) animate st) with (animate (Nat.iter m animate st)).
    rewrite IH. rewrite (frames_closed_form st Ha Hp) by lia.
    reflexivity.
Qed.

End SpriteExact.

(** * Further properties of the instanced-mesh viewer *)

Module MeshLaws.

Import MeshViewer MeshFacts.

Section Laws.

Context {N : Number}.

Lemma shownAtom_In (mol : Molecule) (elIdx : option nat) (i : nat) (p : Vec3) :
  shownAtom mol elIdx i = Some p -> In p (atoms mol).
Proof.
  unfold shownAtom.
  destruct (mappedIndex mol i) as [v|]; [|discriminate].
  destruct ((0 <=? v) && (v <? Z.of_nat (length (atoms mol))))%Z%bool;
    [|discriminate].
  destruct (nth_error (elementIndexes mol) (Z.to_nat v)); [|discriminate].
  destruct elIdx as [e'|]; [|discriminate].
  destruct (n =? e')%nat; [|discriminate].
  apply nth_error_In.
Qed.

(** The loop "Set target atoms": every slot it leaves in use has an atom
    of the target in [atomTarget], and the instance buffer holds that atom
    in single precision when it has the slot. *)
Lemma setTargets_buffer (mol : Molecule) (m : Slots) :
  (count (setTargets mol m) <= maxPoints)%nat
  /\ forall i, (i < count (setTargets mol m))%nat ->
       exists p,
         In p (atoms mol)
         /\ atomTarget (setTargets mol m) i = Some p
         /\ ((i < capacity m)%nat ->
             instancePosition (setTargets mol m) i = vmap fround p).
Proof.
  unfold setTargets.
  set (step := fun (acc : Slots * nat) (i : nat) => _).
  set (inv := fun (acc : Slots * nat) =>
                capacity (fst acc) = capacity m
                /\ forall i, (i < snd acc)%nat ->
                     exists p,
                       In p (atoms mol)
                       /\ atomTarget (fst acc) i = Some p
                       /\ ((i < capacity m)%nat ->
                           instancePosition (fst acc) i = vmap fround p)).
  assert (H : forall l acc,
             inv acc ->
             (snd (fold_left step l acc) <= snd acc + length l)%nat
             /\ inv (fold_left step l acc)).
  { induction l as [|k l IH]; intros acc Hacc.
    - cbn [fold_left length]. split; [lia|exact Hacc].
    - cbn [fold_left length].
      assert (Hstep : (snd (step acc k) <= S (snd acc))%nat
                      /\ inv (step acc k)).
      { unfold step. destruct acc as [m0 id]. destruct Hacc as [Hk Hacc].
        cbn [fst snd] in Hk, Hacc.
        destruct (shownAtom mol _ k) as [pos|] eqn:Es.
        - split; [cbn [snd]; lia|]. split; [exact Hk|].
          cbn [fst snd atomTarget instancePosition]. intros i Hi.
          unfold setAt, setMatrixAt. rewrite Hk.
          destruct (Nat.eqb_spec i id) as [->|Hne].
          + exists pos. split; [exact (shownAtom_In _ _ _ Es)|].
            split; [reflexivity|]. intros Hc.
            rewrite (proj2 (Nat.ltb_lt _ _) Hc). unfold setAt.
            now rewrite Nat.eqb_refl.
          + assert (Hlt : (i < id)%nat) by lia.
            destruct (Hacc i Hlt) as [p [Hin [Ht Hb]]].
            exists p. split; [exact Hin|]. split; [exact Ht|]. intros Hc.
            destruct (id <? capacity m)%nat; [|now apply Hb].
            unfold setAt. destruct (Nat.eqb_spec i id); [lia|now apply Hb].
        - split; [cbn [snd]; lia|]. split; assumption. }
      destruct Hstep as [Hle Hinv].
      destruct (IH (step acc k) Hinv) as [Hle' Hinv'].
      split; [lia|exact Hinv']. }
  specialize (H (seq 0 maxPoints) (m, O)).
  destruct H as [Hle [_ Hinv]];
    [split; [reflexivity|cbn [snd]; intros i Hi; lia]|].
  rewrite length_seq in Hle. cbn [snd Nat.add] in Hle.
  destruct (fold_left step (seq 0 maxPoints) (m, O)) as [m' id].
  cbn [fst snd count atomTarget instancePosition] in *.
  split; assumption.
Qed.

(** X23.  In the mesh viewer [transition] sets the targets at once: when
    it returns, every slot in use (at most 150 per mesh) has an atom of the
    target in [atomTarget], and the instance buffer holds that atom in
    single precision when the mesh was created with room for the slot.  A
    second call of [transition] before any frame therefore starts such a
    slot from the target in single precision, and a slot beyond the
    capacity of the buffer from the origin. *)
Theorem mesh_transition_writes_targets
        (idx idx' : nat) (st : Viewer) (mol mol' : Molecule)
        (e : nat) (m1 m2 : Slots) :
  nth_error (POSITION_SETS st) idx = Some mol ->
  nth_error (POSITION_SETS st) idx' = Some mol' ->
  nth_error (sharedAtomMeshes (fst (transition idx st))) e = Some m1 ->
  nth_error (sharedAtomMeshes
               (fst (transition idx' (fst (transition idx st))))) e
  = Some m2 ->
  (count m1 <= maxPoints)%nat
  /\ forall i, (i < count m1)%nat ->
       exists p,
         In p (atoms mol)
         /\ atomTarget m1 i = Some p
         /\ ((i < capacity m1)%nat -> instancePosition m1 i = vmap fround p)
         /\ atomStart m2 i
            = Some (if (i <? capacity m1)%nat then vmap fround p else origin).
Proof.
  intros Hmol Hmol' H1 H2.
  assert (Hfst : forall k s ml,
             nth_error (POSITION_SETS s) k = Some ml ->
             sharedAtomMeshes (fst (transition k s))
             = map (setTargets ml) (map saveStarts (sharedAtomMeshes s))
             /\ POSITION_SETS (fst (transition k s)) = POSITION_SETS s).
  { intros k s ml Hk. unfold transition. rewrite Hk.
    destruct (bondsDrawable ml); split; reflexivity. }
  destruct (Hfst idx st mol Hmol) as [Hm1 Hsets].
  destruct (Hfst idx' (fst (transition idx st)) mol') as [Hm2 _];
    [now rewrite Hsets|].
  rewrite Hm2, !nth_error_map, H1 in H2. cbn [option_map] in H2.
  injection H2 as <-.
  rewrite Hm1, !nth_error_map in H1.
  destruct (nth_error (sharedAtomMeshes st) e) as [m0|]; [|discriminate].
  cbn [option_map] in H1. injection H1 as <-.
  destruct (setTargets_buffer mol (saveStarts m0)) as [Hle Hbuf].
  split; [exact Hle|]. intros i Hi.
  destruct (Hbuf i Hi) as [p [Hin [Ht Hb]]].
  destruct (setTargets_keeps_start mol (saveStarts m0)) as [_ [Hk _]].
  exists p. split; [exact Hin|]. split; [exact Ht|]. split.
  - intros Hc. apply Hb. now rewrite <- Hk.
  - destruct (setTargets_keeps_start mol'
                (saveStarts (setTargets mol (saveStarts m0)))) as [_ [_ Hs]].
    rewrite Hs.
    destruct (saveStarts_spec (setTargets mol (saveStarts m0)))
      as [_ [_ [_ [_ [_ Hsave]]]]].
    rewrite (Hsave i Hi). unfold getPosition.
    destruct (Nat.ltb_spec i (capacity (setTargets mol (saveStarts m0))))
      as [Hc|Hc]; [|reflexivity].
    rewrite Hb; [reflexivity|now rewrite <- Hk].
Qed.

(** X24.  In the mesh viewer the frames of a transition compound: a frame
    interpolates a slot between its stored start and its target and stores
    the result, in double precision, as the new start, so the next frame
    interpolates from where this one left the atom, not from where the
    transition began.  The instance buffer gets the same position in
    single precision when it has the slot; a slot beyond its capacity
    reads back as the origin. *)
Theorem mesh_frames_compound (st : Viewer) (e : nat) (m : Slots) (i : nat)
        (s : Vec3) :
  animating st = true ->
  nth_error (sharedAtomMeshes st) e = Some m ->
  (i < count m)%nat -> atomStart m i = Some s ->
  exists m1,
    nth_error (sharedAtomMeshes (fst (animate st))) e = Some m1
    /\ count m1 = count m /\ capacity m1 = capacity m
    /\ atomStart m1 i
       = Some (lerpVectors s
                 (match atomTarget m i with Some g => g | None => s end)
                 (ease (advance (progress st))))
    /\ getPosition m1 i
       = (if (i <? capacity m)%nat
          then vmap fround
                 (lerpVectors s
                    (match atomTarget m i with Some g => g | None => s end)
                    (ease (advance (progress st))))
          else origin)
    /\ atomTarget m1 i = atomTarget m i.
Proof.
  intros Ha Hm Hi Hs.
  destruct (@mesh_animate_interpolates _ st e m Ha Hm)
    as [_ [m1 [Hm1 [_ [Hk [Hc [Ht Hpos]]]]]]].
  exists m1. split; [exact Hm1|]. split; [exact Hc|]. split; [exact Hk|].
  destruct (Hpos i Hi) as [Hstart Hbuf].
  unfold framePosition in Hstart, Hbuf. rewrite Hs in Hstart, Hbuf.
  split; [exact Hstart|]. split; [exact Hbuf|]. now rewrite Ht.
Qed.

End Laws.

End MeshLaws.

(** * Instances of the further properties *)

Lemma parsed_atoms_are_clean_witness :
  exists p,
    Parser.parseSdf Examples.sdfThreeAtoms = inr p
    /\ Forall (fun e => (e < length ELEMENTS)%nat) (Parser.pElementIndexes p).
Proof.
  destruct (Parser.parseSdf Examples.sdfThreeAtoms) as [e|p] eqn:E.
  - assert (H : match Parser.parseSdf Examples.sdfThreeAtoms with
                | inl _ => false
                | inr _ => true
                end = true) by (vm_compute; reflexivity).
    rewrite E in H. discriminate H.
  - exists p. split; [reflexivity|].
    apply (@ParserLaws.parsed_atoms_are_clean Examples.sdfThreeAtoms p E).
Defined.

Lemma molecule_carries_map_to_predecessor_witness :
  exists mol m,
    Parser.getMoleculePoints Examples.library (Examples.noDraws 0) "water"
      (Some (Examples.triangleMol Examples.triangleA)) = inr mol
    /\ atomMapping mol = Some m
    /\ length m = length (atoms mol).
Proof.
  destruct (Parser.getMoleculePoints Examples.library (Examples.noDraws 0)
              "water" (Some (Examples.triangleMol Examples.triangleA)))
    as [e|mol] eqn:E.
  - assert (H : match Parser.getMoleculePoints Examples.library
                        (Examples.noDraws 0) "water"
                        (Some (Examples.triangleMol Examples.triangleA)) with
                | inl _ => false
                | inr _ => true
                end = true) by (vm_compute; reflexivity).
    rewrite E in H. discriminate H.
  - destruct (@SequenceLaws.molecule_carries_map_to_predecessor
                Examples.library (Examples.noDraws 0) "water"
                (Some (Examples.triangleMol Examples.triangleA)) mol E)
      as [m [Hm [Hl _]]].
    exists mol, m. split; [reflexivity|]. split; [exact Hm|exact Hl].
Defined.

Lemma loaded_sequence_shape_witness :
  exists sets,
    Parser.loadMoleculesOnce Examples.library Examples.noDraws []
      ["water"; "water"]%string = (sets, None)
    /\ length sets = 2%nat.
Proof.
  destruct (Parser.loadMoleculesOnce Examples.library Examples.noDraws []
              ["water"; "water"]%string) as [sets r] eqn:E.
  assert (Hr : snd (Parser.loadMoleculesOnce Examples.library Examples.noDraws
                      [] ["water"; "water"]%string) = None)
    by (vm_compute; reflexivity).
  rewrite E in Hr. cbn [snd] in Hr. subst r.
  exists sets. split; [reflexivity|].
  apply (@SequenceLaws.loaded_sequence_shape Examples.library Examples.noDraws
           ["water"; "water"]%string sets None E).
  reflexivity.
Defined.

Lemma loaded_targets_never_throw_witness :
  exists sets,
    Parser.loadMoleculesOnce Examples.library Examples.noDraws []
      ["water"; "water"]%string = (sets, None)
    /\ snd (SpriteViewer.transition 1
              (SpriteViewer.mkViewer [] [] sets zero false)) = None.
Proof.
  destruct (Parser.loadMoleculesOnce Examples.library Examples.noDraws []
              ["water"; "water"]%string) as [sets r] eqn:E.
  assert (Hr : snd (Parser.loadMoleculesOnce Examples.library Examples.noDraws
                      [] ["water"; "water"]%string) = None)
    by (vm_compute; reflexivity).
  assert (Hn : length (fst (Parser.loadMoleculesOnce Examples.library
                              Examples.noDraws [] ["water"; "water"]%string))
               = 2%nat)
    by (vm_compute; reflexivity).
  rewrite E in Hr, Hn. cbn [fst snd] in Hr, Hn. subst r.
  exists sets. split; [reflexivity|].
  apply (@SequenceLaws.loaded_targets_never_throw
           Examples.library Examples.noDraws ["water"; "water"]%string
           sets None 1
           (SpriteViewer.mkViewer [] [] sets zero false)
           (MeshViewer.mkViewer [] sets 0 zero false) E).
  - rewrite Hn. lia.
  - reflexivity.
  - reflexivity.
Defined.

Lemma sprite_scene_is_fixed_witness :
  length (SpriteViewer.sharedSprites
            (spriteRun [Frame; Cycle 0]
               (fst (SpriteViewer.init
                       [Examples.triangleMol Examples.triangleA]))))
  = SpriteViewer.maxPoints.
Proof.
  apply (@SpriteLaws.sprite_scene_is_fixed Binary64
           [Examples.triangleMol Examples.triangleA]
           (Examples.triangleMol Examples.triangleA) [Frame; Cycle 0]).
  reflexivity.
Defined.

Lemma sprite_targets_after_transition_witness :
  exists s',
    nth_error (SpriteViewer.sharedSprites
                 (fst (SpriteViewer.transition 1 Examples.spriteInFlight))) 0
    = Some s'
    /\ SpriteViewer.fadeEnd s' = @one Binary64.
Proof.
  destruct (@SpriteLaws.sprite_targets_after_transition Binary64 1
              Examples.spriteInFlight
              (Examples.triangleMol Examples.triangleB) 0
              (SpriteViewer.mkSprite (Examples.pt 0 0 0) (F64.of_Z 1)
                 (Examples.pt 0 0 0) (Examples.pt 1 0 0)
                 (F64.of_Z 1) (F64.of_Z 1)))
    as [s' [Hn [Hin _]]].
  - reflexivity.
  - split.
    + intros m Hm. simpl in Hm. discriminate Hm.
    + repeat constructor; simpl; discriminate.
  - reflexivity.
  - exists s'. split; [exact Hn|]. apply Hin. simpl. lia.
Defined.

Lemma sprite_transition_completes_witness :
  SpriteViewer.animating (Nat.iter 50 SpriteViewer.animate
                            Examples.spriteAtStart) = false
  /\ exists s',
       nth_error (SpriteViewer.sharedSprites
                    (Nat.iter 50 SpriteViewer.animate Examples.spriteAtStart))
                 0 = Some s'
       /\ SpriteViewer.position s'
          = @lerpVectors Exact (0, 0, 0)%R (5, 5, 0)%R
                         (@ease Exact (INR 50 / 50)%R).
Proof.
  destruct (@SpriteExact.sprite_transition_completes Examples.spriteAtStart
              eq_refl eq_refl) as [_ [Hpos [Hoff _]]].
  split; [exact Hoff|].
  apply (Hpos 50%nat 0%nat
           (@SpriteViewer.mkSprite Exact (0, 0, 0)%R 1%R (0, 0, 0)%R
                                   (5, 5, 0)%R 1%R 1%R)); [lia|reflexivity].
Defined.

Lemma mesh_transition_writes_targets_witness :
  exists m1 p,
    nth_error (MeshViewer.sharedAtomMeshes
                 (fst (MeshViewer.transition 1 Examples.meshInFlight))) 0
    = Some m1
    /\ In p (atoms (Examples.triangleMol Examples.triangleB))
    /\ MeshViewer.atomTarget m1 0 = Some p
    /\ MeshViewer.instancePosition m1 0 = vmap fround p.
Proof.
  pose (m1 := MeshViewer.setTargets (Examples.triangleMol Examples.triangleB)
                (MeshViewer.saveStarts
                   (MeshViewer.mkSlots "C" 1 1 (fun _ => Examples.pt 0 0 0)
                      (fun i => if (i =? 0)%nat then Some (Examples.pt 0 0 0)
                                else None)
                      (fun i => if (i =? 0)%nat then Some (Examples.pt 1 0 0)
                                else None)))).
  pose (m2 := MeshViewer.setTargets (Examples.triangleMol Examples.triangleA)
                (MeshViewer.saveStarts m1)).
  assert (Hc : (0 <? MeshViewer.count m1)%nat
               && (0 <? MeshViewer.capacity m1)%nat = true).
  { vm_compute. reflexivity. }
  apply andb_prop in Hc. destruct Hc as [Hc Hk].
  apply Nat.ltb_lt in Hc. apply Nat.ltb_lt in Hk.
  destruct (@MeshLaws.mesh_transition_writes_targets Binary64 1 0
              Examples.meshInFlight
              (Examples.triangleMol Examples.triangleB)
              (Examples.triangleMol Examples.triangleA) 0 m1 m2
              eq_refl eq_refl eq_refl eq_refl) as [_ Hall].
  destruct (Hall 0%nat Hc) as [p [Hin [Ht [Hb _]]]].
  exists m1, p. split; [reflexivity|]. split; [exact Hin|].
  split; [exact Ht|]. exact (Hb Hk).
Defined.

Lemma mesh_frames_compound_witness :
  exists m1,
    nth_error (MeshViewer.sharedAtomMeshes
                 (fst (MeshViewer.animate Examples.meshInFlight))) 0
    = Some m1
    /\ MeshViewer.atomStart m1 0
       = Some (lerpVectors (Examples.pt 0 0 0) (Examples.pt 1 0 0)
                 (ease (advance (MeshViewer.progress Examples.meshInFlight))))
    /\ MeshViewer.getPosition m1 0
       = vmap fround
           (lerpVectors (Examples.pt 0 0 0) (Examples.pt 1 0 0)
              (ease (advance (MeshViewer.progress Examples.meshInFlight)))).
Proof.
  destruct (@MeshLaws.mesh_frames_compound Binary64 Examples.meshInFlight 0
              (MeshViewer.mkSlots "C" 1 1 (fun _ => Examples.pt 0 0 0)
                 (fun i => if (i =? 0)%nat then Some (Examples.pt 0 0 0)
                           else None)
                 (fun i => if (i =? 0)%nat then Some (Examples.pt 1 0 0)
                           else None))
              0 (Examples.pt 0 0 0))
    as [m1 [Hn [_ [_ [Hs [Hb _]]]]]].
  - reflexivity.
  - reflexivity.
  - simpl. lia.
  - reflexivity.
  - exists m1. split; [exact Hn|]. split; [exact Hs|exact Hb].
Defined.

(** * The power iteration on an eigenvector *)

Module EigenLaws.

#[local] Existing Instance Exact.
Local Open Scope R_scope.

Ltac reals3 :=
  unfold hypot, dot, multiplyMatrixVec, deflate, powerStep, vmap, build, at2,
    tri, origin, zero, one in *;
  cbn [nadd nsub nmul ndiv nneg nsqrt of_Z num Exact] in *;
  change (@num Exact) with R in *.

Lemma hypot_dot (v : Vec3) : hypot v = sqrt (dot v v).
Proof. reflexivity. Qed.

Lemma dot_nonneg (v : Vec3) : 0 <= dot v v.
Proof. destruct v as [[x y] z]. reals3. nra. Qed.

Lemma hypot_scale (c : R) (v : Vec3) :
  0 <= c ->
  hypot (c * tri v I0, c * tri v I1, c * tri v I2) = c * hypot v.
Proof.
  intros Hc. rewrite !hypot_dot.
  assert (E : dot (c * tri v I0, c * tri v I1, c * tri v I2)
                  (c * tri v I0, c * tri v I1, c * tri v I2)
              = (c * c) * dot v v).
  { destruct v as [[x y] z]. reals3. ring. }
  rewrite E, sqrt_mult; [|nra|apply dot_nonneg].
  now rewrite sqrt_square.
Qed.

Lemma multiplyMatrixVec_scale (A : Mat3) (c : R) (v : Vec3) :
  multiplyMatrixVec A (c * tri v I0, c * tri v I1, c * tri v I2)
  = (c * tri (multiplyMatrixVec A v) I0, c * tri (multiplyMatrixVec A v) I1,
     c * tri (multiplyMatrixVec A v) I2).
Proof.
  destruct A as [[[[a b] d] [[e f] g]] [[h i] j]], v as [[x y] z].
  reals3. f_equal; [f_equal|]; ring.
Qed.

(** X25.  In real arithmetic the power iteration of [eigenSymmetric],
    started on an eigenvector [v0] of [A] with a positive eigenvalue
    [lam], returns that eigenvalue and the eigenvector scaled to length 1,
    and the matrix it hands to the next round maps this eigenvector to
    zero. *)
Theorem eigenRound_on_eigenvector (A : Mat3) (v0 : Vec3) (lam : R) :
  multiplyMatrixVec A v0
  = (lam * tri v0 I0, lam * tri v0 I1, lam * tri v0 I2) ->
  0 < lam -> 0 < dot v0 v0 ->
  let u : Vec3 := (tri v0 I0 / hypot v0, tri v0 I1 / hypot v0,
                   tri v0 I2 / hypot v0) in
  eigenRound A v0 = (lam, u, deflate A lam u)
  /\ hypot u = 1
  /\ multiplyMatrixVec (deflate A lam u) u = origin.
Proof.
  intros Heig Hlam Hv0 u.
  assert (Hn : 0 < hypot v0) by (rewrite hypot_dot; now apply sqrt_lt_R0).
  set (n := hypot v0) in *.
  assert (Hu : u = (/ n * tri v0 I0, / n * tri v0 I1, / n * tri v0 I2)).
  { unfold u. destruct v0 as [[x y] z]. cbn [tri].
    unfold Rdiv. f_equal; [f_equal|]; apply Rmult_comm. }
  assert (Hinv : 0 < / n) by now apply Rinv_0_lt_compat.
  assert (Hunit : hypot u = 1).
  { rewrite Hu, hypot_scale by lra. fold n. change (@num Exact) with R.
    field. lra. }
  assert (HAu : multiplyMatrixVec A u
                = (lam * tri u I0, lam * tri u I1, lam * tri u I2)).
  { rewrite Hu at 1. rewrite multiplyMatrixVec_scale, Heig, Hu.
    cbn [tri]. change (@num Exact) with R. f_equal; [f_equal|]; ring. }
  assert (Hfirst : powerStep A v0 = u).
  { unfold powerStep. rewrite Heig.
    rewrite (hypot_scale v0) by lra. fold n.
    unfold u, vmap, build. cbn [tri ndiv Exact].
    change (@num Exact) with R.
    f_equal; [f_equal|]; field; lra. }
  assert (Hfix : powerStep A u = u).
  { unfold powerStep. rewrite HAu.
    rewrite (hypot_scale u) by lra. rewrite Hunit.
    unfold vmap, build. cbn [tri ndiv Exact].
    destruct u as [[x y] z]. cbn [tri]. change (@num Exact) with R.
    f_equal; [f_equal|]; field; lra. }
  assert (Hiter : forall k, Nat.iter (S k) (powerStep A) v0 = u).
  { induction k as [|k IH]; [exact Hfirst|].
    change (Nat.iter (S (S k)) (powerStep A) v0)
      with (powerStep A (Nat.iter (S k) (powerStep A) v0)).
    now rewrite IH. }
  assert (Hdot : dot u u = 1).
  { rewrite hypot_dot in Hunit.
    rewrite <- (sqrt_sqrt (dot u u)) by apply dot_nonneg.
    rewrite Hunit. change (@num Exact) with R. ring. }
  assert (Hray : dot u (multiplyMatrixVec A u) = lam).
  { rewrite HAu.
    assert (E : dot u (lam * tri u I0, lam * tri u I1, lam * tri u I2)
                = lam * dot u u).
    { destruct u as [[x y] z]. reals3. ring. }
    rewrite E, Hdot. change (@num Exact) with R. ring. }
  split; [|split; [exact Hunit|]].
  - unfold eigenRound. rewrite (Hiter 14%nat). cbv zeta. rewrite Hray.
    reflexivity.
  - clear Hfirst Hfix Hiter Hray Hunit Hu. clearbody u.
    destruct A as [[[[a b] d] [[e f] g]] [[h i] j]].
    destruct u as [[x y] z].
    reals3. injection HAu as H0 H1 H2.
    f_equal; [f_equal|].
    + transitivity ((a * x + b * y + d * z) - lam * x * (x * x + y * y + z * z));
        [ring|]. rewrite H0, Hdot. ring.
    + transitivity ((e * x + f * y + g * z) - lam * y * (x * x + y * y + z * z));
        [ring|]. rewrite H1, Hdot. ring.
    + transitivity ((h * x + i * y + j * z) - lam * z * (x * x + y * y + z * z));
        [ring|]. rewrite H2, Hdot. ring.
Qed.

End EigenLaws.

Lemma eigenRound_on_eigenvector_witness :
  @eigenRound Exact ((2, 0, 0), (0, 2, 0), (0, 0, 2))%R (1, 0, 0)%R
  = (2%R,
     (1 / hypot (1, 0, 0), 0 / hypot (1, 0, 0), 0 / hypot (1, 0, 0))%R,
     deflate ((2, 0, 0), (0, 2, 0), (0, 0, 2))%R 2%R
             (1 / hypot (1, 0, 0), 0 / hypot (1, 0, 0),
              0 / hypot (1, 0, 0))%R).
Proof.
  apply (@EigenLaws.eigenRound_on_eigenvector
           ((2, 0, 0), (0, 2, 0), (0, 0, 2))%R (1, 0, 0)%R 2%R).
  - unfold multiplyMatrixVec, build, at2, tri.
    cbn [nadd nmul Exact]. f_equal; [f_equal|]; ring.
  - lra.
  - unfold dot, tri. cbn [nadd nmul Exact]. lra.
Defined.

(** * The count line of a record *)

Module CountLaws.

Import Text Parser.
#[local] Existing Instance Binary64.

Lemma slice_length {A : Type} (l : list A) (a b : Z) :
  (0 <= a <= b)%Z ->
  (length (slice l (Some a) (Some b)) <= Z.to_nat (b - a))%nat.
Proof.
  intros Hab. unfold slice, relIndex.
  destruct (Z.ltb_spec a 0); [lia|]. destruct (Z.ltb_spec b 0); [lia|].
  rewrite length_firstn. lia.
Qed.

Lemma slice_empty {A : Type} (l : list A) (stop : JsInt) :
  (4 <= length l)%nat ->
  stop = None \/ (exists b, stop = Some b /\ 0 <= b <= 4)%Z ->
  slice l (Some 4%Z) stop = [].
Proof.
  intros Hl Hstop. unfold slice.
  assert (Hk : relIndex (length l) (Some 4%Z) = 4%nat).
  { unfold relIndex. cbn. lia. }
  assert (Hf : (relIndex (length l) stop <= 4)%nat).
  { destruct Hstop as [->|[b [-> Hb]]]; [cbn; lia|].
    unfold relIndex. destruct (Z.ltb_spec b 0); lia. }
  rewrite Hk. replace (relIndex (length l) stop - 4)%nat with 0%nat by lia.
  reflexivity.
Qed.

(** X26.  The parser and the count line.  A record of fewer than four
    lines is refused as "SDF too short".  When the count line does not
    begin with an integer, or begins with an integer from -4 to 0, no atom
    line is read and the record is refused as "Parsed zero atoms".  For a
    positive atom count the parser never returns more atoms than the count
    line declares, and for a bond count that is not negative never more
    bonds. *)
Theorem parser_keeps_to_declared_counts (sdf : string) :
  let countLine := words (trim (nth 3 (lines sdf) EmptyString)) in
  let atomCount := parseIntOpt (nth_error countLine 0) in
  let bondCount := parseIntOpt (nth_error countLine 1) in
  ((length (lines sdf) < 4)%nat ->
   parseSdf sdf = inl (ErrorMsg "SDF too short"))
  /\ ((4 <= length (lines sdf))%nat ->
      atomCount = None \/ (exists c, atomCount = Some c /\ -4 <= c <= 0)%Z ->
      parseSdf sdf = inl (ErrorMsg "Parsed zero atoms"))
  /\ forall p c,
       parseSdf sdf = inr p -> atomCount = Some c -> (0 < c)%Z ->
       (length (pAtoms p) <= Z.to_nat c)%nat
       /\ forall b, bondCount = Some b -> (0 <= b)%Z ->
                    (length (pBonds p) <= Z.to_nat b)%nat.
Proof.
  intros countLine atomCount bondCount.
  split; [|split].
  - intros Hlt. unfold parseSdf.
    destruct (Nat.ltb_spec (length (lines sdf)) 4); [reflexivity|lia].
  - intros Hge Hc. unfold parseSdf.
    destruct (Nat.ltb_spec (length (lines sdf)) 4); [lia|].
    fold countLine. fold atomCount.
    rewrite (@slice_empty _ (lines sdf) (addInt (Some 4%Z) atomCount) Hge).
    + reflexivity.
    + destruct Hc as [->|[c [-> Hc]]]; [now left|].
      right. exists (4 + c)%Z. split; [reflexivity|lia].
  - intros p c Hp Hc Hpos. unfold parseSdf in Hp.
    destruct (length (lines sdf) <? 4)%nat; [discriminate|].
    fold countLine in Hp. fold atomCount bondCount in Hp.
    rewrite Hc in Hp. cbn [addInt] in Hp.
    assert (Hbl : forall b, bondCount = Some b -> (0 <= b)%Z ->
              (length (slice (lines sdf) (Some (4 + c)%Z)
                             (addInt (Some (4 + c)%Z) bondCount))
               <= Z.to_nat b)%nat).
    { intros b Hb Hb0. rewrite Hb. unfold addInt.
      eapply Nat.le_trans; [apply slice_length; lia|].
      replace (4 + c + b - (4 + c))%Z with b by lia. apply le_n. }
    remember (filter coordsOk _) as raws eqn:Eraws.
    destruct raws as [|a0 rs]; [discriminate|].
    apply (f_equal (fun x => match x with inr q => Some q | inl _ => None end))
      in Hp.
    injection Hp as <-. cbn [pAtoms pBonds]. split.
    + change (length (map (fun a : AtomRaw => (ax a, ay a, az a)) (a0 :: rs))
              <= Z.to_nat c)%nat.
      rewrite length_map, Eraws.
      eapply Nat.le_trans; [apply List.filter_length_le|].
      rewrite length_map.
      eapply Nat.le_trans; [apply slice_length; lia|].
      replace (4 + c - 4)%Z with c by lia. apply le_n.
    + intros b Hb Hb0. rewrite length_map. exact (Hbl b Hb Hb0).
Qed.

End CountLaws.

(** * The set-up of the sprite viewer *)

Module SpriteInitLaws.

Import SpriteViewer SpriteFacts SpriteLaws.

Section Laws.

Context {N : Number}.

Lemma initBondLines_valid (first : Molecule) (bs : list Bond) :
  Forall (fun b => validIndex (length (atoms first)) (from b) <> None
                   /\ validIndex (length (atoms first)) (to b) <> None) bs ->
  exists ls, initBondLines first bs = (ls, None) /\ length ls = length bs.
Proof.
  induction bs as [|b bs IH]; intros Hv; [now exists []|].
  inversion Hv as [|b' bs' [Hf Ht] Hrest]; subst.
  destruct (IH Hrest) as [ls [Hls Hlen]].
  cbn [initBondLines]. unfold initBondLine.
  destruct (validIndex (length (atoms first)) (from b)) as [f|] eqn:Ef;
    [|congruence].
  destruct (validIndex (length (atoms first)) (to b)) as [t|] eqn:Et;
    [|congruence].
  apply validIndex_Some in Ef, Et. destruct Ef as [Ef Hlf], Et as [Et Hlt].
  rewrite Ef, Et. unfold atLeast, endpoint.
  destruct (Z.leb_spec (Z.of_nat (length (atoms first))) (Z.of_nat f)); [lia|].
  destruct (Z.leb_spec (Z.of_nat (length (atoms first))) (Z.of_nat t)); [lia|].
  cbn [orb].
  destruct (atomAt (atoms first) (Z.of_nat f)) as [p|] eqn:Ep;
    [|exfalso; apply (@atomAt_defined _ (atoms first) (Z.of_nat f));
      [lia|assumption]].
  destruct (atomAt (atoms first) (Z.of_nat t)) as [q|] eqn:Eq;
    [|exfalso; apply (@atomAt_defined _ (atoms first) (Z.of_nat t));
      [lia|assumption]].
  rewrite Hls. eexists. split; [reflexivity|]. cbn [length]. now rewrite Hlen.
Qed.

Lemma nth_error_default {A : Type} (l : list A) (i : nat) (d : A) :
  match nth_error l i with Some p => p | None => d end = nth i l d.
Proof.
  revert i. induction l as [|x l IH]; intros [|i]; cbn; auto.
Qed.

(** X27.  [init] on an empty sequence ends with a TypeError before any
    sprite exists.  On a sequence whose first molecule can be drawn it
    returns with the first transition started: progress 0, animation on,
    one bond line per bond of the first molecule, and 150 sprites, each
    invisible (opacity 0) at the position of the atom with its index in
    the first molecule, or at the origin when there is no such atom, and
    starting from there. *)
Theorem sprite_init_outcome (sets : list Molecule) :
  (sets = [] ->
   snd (init sets) = Some TypeError /\ sharedSprites (fst (init sets)) = [])
  /\ forall first,
       nth_error sets 0 = Some first -> drawable first ->
       exists st,
         init sets = (st, None)
         /\ animating st = true /\ progress st = zero
         /\ length (sharedBondLines st) = length (bonds first)
         /\ forall i, (i < maxPoints)%nat ->
              exists s,
                nth_error (sharedSprites st) i = Some s
                /\ position s = nth i (atoms first) origin
                /\ opacity s = zero
                /\ start s = position s
                /\ fadeStart s = zero.
Proof.
  split; [intros ->; split; reflexivity|].
  intros first Hfirst Hd.
  destruct (initBondLines_valid first (proj2 Hd)) as [ls [Hls Hlen]].
  unfold init, setup. rewrite Hfirst, Hls.
  set (st0 := mkViewer (initSprites first) ls sets zero false).
  change (animate st0) with st0.
  unfold transition. subst st0.
  cbn [POSITION_SETS sharedSprites sharedBondLines progress animating].
  rewrite Hfirst.
  destruct (@forEachFrom_ok Sprite (retarget first) (initSprites first) 0)
    as [sprites [Hs [_ Hnth]]].
  { intros k x. now apply retarget_reads_position. }
  destruct (@forEachFrom_ok BondLine (retargetLine first) ls 0)
    as [ls' [Hl [Hlen' _]]].
  { intros k x. now apply retargetLine_ok. }
  rewrite Hs, Hl. eexists. split; [reflexivity|].
  cbn [animating progress sharedBondLines sharedSprites].
  split; [reflexivity|]. split; [reflexivity|].
  split; [now rewrite Hlen', Hlen|].
  intros i Hi.
  assert (Hi0 : nth_error (initSprites first) i
                = Some (mkSprite (nth i (atoms first) origin) zero
                                 (nth i (atoms first) origin)
                                 (nth i (atoms first) origin) zero one)).
  { unfold initSprites. rewrite nth_error_map.
    rewrite (nth_error_nth' _ 0%nat) by (rewrite length_seq; exact Hi).
    rewrite seq_nth by exact Hi. cbn [option_map Nat.add].
    now rewrite nth_error_default. }
  eexists. split; [exact (Hnth i _ Hi0)|].
  destruct (@retarget_reads_position _ first (0 + i)
              (mkSprite (nth i (atoms first) origin) zero
                        (nth i (atoms first) origin)
                        (nth i (atoms first) origin) zero one) Hd)
    as [_ [H1 [H2 [H3 H4]]]].
  cbn [position opacity] in H1, H2, H3, H4.
  rewrite H1, H2, H3, H4. repeat split; reflexivity.
Qed.

End Laws.

End SpriteInitLaws.

Lemma sprite_init_outcome_witness :
  exists st,
    SpriteViewer.init [Examples.triangleMol Examples.triangleA] = (st, None)
    /\ SpriteViewer.animating st = true.
Proof.
  destruct (@SpriteInitLaws.sprite_init_outcome Binary64
              [Examples.triangleMol Examples.triangleA]) as [_ H].
  destruct (H (Examples.triangleMol Examples.triangleA) eq_refl)
    as [st [Hst [Ha _]]].
  - split.
    + intros m Hm. simpl in Hm. discriminate Hm.
    + repeat constructor; simpl; discriminate.
  - exists st. split; [exact Hst|exact Ha].
Defined.

(** ** The end of a transition of the mesh viewer in real arithmetic *)

Module MeshExact.

Import MeshViewer MeshFacts EaseFacts.
#[local] Existing Instance Exact.
Local Open Scope R_scope.

Lemma advance_tick (k : nat) :
  (k < 50)%nat -> @advance Exact (INR k / 50) = INR (S k) / 50.
Proof.
  intros Hk. unfold advance, one. cbn [nmin nadd dec of_Z Exact].
  change (@num Exact) with R.
  assert (Hstep : 2 / 10 ^ 2 = 1 / 50) by (simpl; lra).
  rewrite Hstep, S_INR.
  assert (Hle : INR (S k) <= 50).
  { replace 50 with (INR 50) by (rewrite INR_IZR_INZ; reflexivity).
    apply le_INR. lia. }
  rewrite S_INR in Hle.
  rewrite Rmin_left by lra. lra.
Qed.

Lemma not_yet_one (k : nat) :
  (k < 50)%nat -> @nleb Exact one (INR k / 50) = false.
Proof.
  intros Hk. unfold one. cbn [nleb of_Z Exact].
  destruct (Rle_dec 1 (INR k / 50)) as [Hle|_]; [|reflexivity].
  exfalso. apply lt_INR in Hk.
  assert (H50R : INR 50 = 50) by (rewrite INR_IZR_INZ; reflexivity).
  rewrite H50R in Hk. lra.
Qed.

(** One frame of a playing transition, whether or not the bond loop
    throws. *)
Lemma frame_step (st : Viewer) (k : nat) :
  animating st = true -> progress st = INR k / 50 -> (k < 50)%nat ->
  progress (fst (animate st)) = INR (S k) / 50
  /\ ((S k < 50)%nat -> animating (fst (animate st)) = true)
  /\ sharedAtomMeshes (fst (animate st))
     = map (interpolate (ease (INR (S k) / 50))) (sharedAtomMeshes st).
Proof.
  intros Ha Hp Hk. unfold animate. rewrite Ha, Hp, (advance_tick Hk).
  cbv zeta.
  destruct (length (POSITION_SETS st)).
  { cbn [fst progress animating sharedAtomMeshes]. repeat split. }
  destruct (nth_error (POSITION_SETS st) _);
    [|cbn [fst progress animating sharedAtomMeshes]; repeat split].
  destruct (nth_error (POSITION_SETS st) (currentSet st));
    [|cbn [fst progress animating sharedAtomMeshes]; repeat split].
  destruct (framesDrawable _ _);
    cbn [fst progress animating sharedAtomMeshes]; repeat split.
  intros Hlt. now rewrite (not_yet_one Hlt).
Qed.

Lemma frames_before_end (st : Viewer) (n : nat) :
  animating st = true -> progress st = 0 -> (n < 50)%nat ->
  animating (Nat.iter n (fun s => fst (animate s)) st) = true
  /\ progress (Nat.iter n (fun s => fst (animate s)) st) = INR n / 50
  /\ forall e m,
       nth_error (sharedAtomMeshes st) e = Some m ->
       exists mn,
         nth_error (sharedAtomMeshes
                      (Nat.iter n (fun s => fst (animate s)) st)) e = Some mn
         /\ count mn = count m /\ capacity mn = capacity m
         /\ atomTarget mn = atomTarget m.
Proof.
  intros Ha Hp. induction n as [|n IH]; intros Hn.
  - cbn [Nat.iter nat_rect]. split; [exact Ha|].
    split; [rewrite Hp; cbn [INR]; lra|].
    intros e m Hm. exists m. repeat split. exact Hm.
  - destruct IH as [IHa [IHp IHm]]; [lia|].
    change (Nat.iter (S n) (fun s => fst (animate s)) st)
      with (fst (animate (Nat.iter n (fun s => fst (animate s)) st))).
    destruct (@frame_step (Nat.iter n (fun s => fst (animate s)) st) n
                IHa IHp) as [Fp [Fa Fm]]; [lia|].
    split; [apply Fa; lia|]. split; [exact Fp|].
    intros e m Hm. destruct (IHm e m Hm) as [mn [Hmn [Hc [Hk Ht]]]].
    exists (interpolate (@ease Exact (INR (S n) / 50)) mn).
    rewrite Fm, nth_error_map, Hmn. split; [reflexivity|].
    destruct (interpolate_spec (@ease Exact (INR (S n) / 50)) mn)
      as [_ [Hk' [Hc' [Ht' _]]]].
    split; [now rewrite Hc'|]. split; [now rewrite Hk'|now rewrite Ht'].
Qed.

(** X28.  In real arithmetic, where neither the double-precision
    interpolation nor the single-precision buffer rounds, a transition of
    the mesh viewer started with progress 0 is still playing after each of
    the first forty-nine frames, with progress [n / 50], and the fiftieth
    frame brings progress to 1 and leaves in the instance buffer, for every
    slot in use that has a target, exactly the target when the buffer has
    room for the slot; a slot beyond the capacity of the buffer still reads
    back as the origin.  This holds also when the bond loop of a frame
    throws. *)
Theorem mesh_transition_completes (st : Viewer) :
  animating st = true -> progress st = 0 ->
  (forall n, (n < 50)%nat ->
     animating (Nat.iter n (fun s => fst (animate s)) st) = true
     /\ progress (Nat.iter n (fun s => fst (animate s)) st) = INR n / 50)
  /\ progress (Nat.iter 50 (fun s => fst (animate s)) st) = 1
  /\ forall e m,
       nth_error (sharedAtomMeshes st) e = Some m ->
       exists m50,
         nth_error (sharedAtomMeshes
                      (Nat.iter 50 (fun s => fst (animate s)) st)) e
         = Some m50
         /\ count m50 = count m /\ capacity m50 = capacity m
         /\ forall i g, (i < count m)%nat -> atomTarget m i = Some g ->
                        getPosition m50 i
                        = if (i <? capacity m)%nat then g else origin.
Proof.
  intros Ha Hp.
  assert (Hone : INR 50 / 50 = 1) by (rewrite INR_IZR_INZ; simpl; lra).
  split; [|split].
  - intros n Hn. destruct (frames_before_end st Ha Hp Hn) as [H1 [H2 _]].
    split; assumption.
  - destruct (@frames_before_end st 49 Ha Hp) as [H1 [H2 _]]; [lia|].
    rewrite (Nat.iter_succ 49). cbv beta.
    destruct (@frame_step _ 49 H1 H2) as [Fp _]; [lia|].
    now rewrite Fp.
  - intros e m Hm.
    destruct (@frames_before_end st 49 Ha Hp) as [H1 [H2 H3]]; [lia|].
    destruct (H3 e m Hm) as [m49 [Hm49 [Hc [Hk Ht]]]].
    rewrite (Nat.iter_succ 49). cbv beta.
    destruct (@frame_step _ 49 H1 H2) as [_ [_ Fm]]; [lia|].
    exists (interpolate (@ease Exact (INR 50 / 50)) m49).
    rewrite Fm, nth_error_map, Hm49. split; [reflexivity|].
    destruct (interpolate_spec (@ease Exact (INR 50 / 50)) m49)
      as [_ [Hk' [Hc' [_ Hpos]]]].
    split; [now rewrite Hc'|]. split; [now rewrite Hk'|].
    intros i g Hi Hg.
    assert (Hi' : (i < count m49)%nat) by (rewrite Hc; exact Hi).
    destruct (Hpos i Hi') as [_ Hb]. rewrite Hb, Hk.
    destruct (i <? capacity m)%nat; [|reflexivity].
    unfold framePosition. rewrite Ht, Hg, Hone.
    assert (He : @ease Exact 1 = 1)
      by (rewrite ease_high by lra; change (@num Exact) with R; ring).
    rewrite He.
    destruct (match atomStart m49 i with Some s => s | None => origin end)
      as [[u0 u1] u2].
    destruct g as [[g0 g1] g2].
    unfold lerpVectors, vmap, build, tri. cbn [nadd nsub nmul fround Exact].
    change (@num Exact) with R. f_equal; [f_equal|]; ring.
Qed.

End MeshExact.

Lemma mesh_transition_completes_witness :
  exists m50,
    nth_error
      (MeshViewer.sharedAtomMeshes
         (Nat.iter 50 (fun s => fst (MeshViewer.animate s))
            Examples.meshAtStart)) 0 = Some m50
    /\ @MeshViewer.getPosition Exact m50 1 = (5, 6, 0)%R
    /\ @MeshViewer.getPosition Exact m50 2 = (0, 0, 0)%R.
Proof.
  destruct (@MeshExact.mesh_transition_completes Examples.meshAtStart
              eq_refl eq_refl) as [_ [_ H]].
  destruct (H 0%nat _ eq_refl) as [m50 [Hn [_ [_ Hpos]]]].
  exists m50. split; [exact Hn|]. split.
  - apply (Hpos 1%nat (5, 6, 0)%R); [simpl; lia|reflexivity].
  - apply (Hpos 2%nat (4, 5, 0)%R); [simpl; lia|reflexivity].
Defined.

(** * The alignment and the position of the point sets *)

Module AlignmentPosition.

Import AlignmentLaws EigenLaws.
#[local] Existing Instance Exact.
Local Open Scope R_scope.

Lemma truthy_nonzero (x : R) : truthy x = true <-> x <> 0.
Proof.
  cbn [truthy Exact]. destruct (Req_dec_T x 0); split; intros; try easy.
Qed.

(** A round of the power iteration started on half a unit eigenvector [e]
    of [A] with a positive eigenvalue: the first step divides by half the
    eigenvalue, the other fourteen by the eigenvalue, and the round
    returns [e]. *)
Lemma axis_round (A : Mat3) (e : Vec3) (lam : R) :
  0 < lam -> dot e e = 1 ->
  multiplyMatrixVec A e = (lam * tri e I0, lam * tri e I1, lam * tri e I2) ->
  let v0 : Vec3 := (/ 2 * tri e I0, / 2 * tri e I1, / 2 * tri e I2) in
  eigenRound A v0 = (lam, e, deflate A lam e)
  /\ Forall (fun x => truthy x = true) (roundNorms A v0).
Proof.
  intros Hlam He HA v0.
  assert (Hunit : hypot e = 1) by (rewrite hypot_dot, He; apply sqrt_1).
  assert (HAe : hypot (multiplyMatrixVec A e) = lam).
  { rewrite HA, hypot_scale, Hunit by lra. change (@num Exact) with R. ring. }
  assert (HA0 : multiplyMatrixVec A v0
                = (lam / 2 * tri e I0, lam / 2 * tri e I1, lam / 2 * tri e I2)).
  { unfold v0. rewrite multiplyMatrixVec_scale, HA. cbn [tri].
    change (@num Exact) with R. f_equal; [f_equal|]; field. }
  assert (HAv0 : hypot (multiplyMatrixVec A v0) = lam / 2).
  { rewrite HA0, hypot_scale, Hunit by lra. change (@num Exact) with R. ring. }
  assert (Hfirst : powerStep A v0 = e).
  { unfold powerStep. rewrite HAv0, HA0.
    destruct e as [[x y] z]. unfold vmap, build. cbn [tri ndiv Exact].
    change (@num Exact) with R. f_equal; [f_equal|]; field; lra. }
  assert (Hfix : powerStep A e = e).
  { unfold powerStep. rewrite HAe, HA.
    destruct e as [[x y] z]. unfold vmap, build. cbn [tri ndiv Exact].
    change (@num Exact) with R. f_equal; [f_equal|]; field; lra. }
  assert (Hiter : forall k, Nat.iter (S k) (powerStep A) v0 = e).
  { induction k as [|k IH]; [exact Hfirst|].
    change (Nat.iter (S (S k)) (powerStep A) v0)
      with (powerStep A (Nat.iter (S k) (powerStep A) v0)).
    now rewrite IH. }
  split.
  - unfold eigenRound. rewrite (Hiter 14%nat), HA.
    assert (Hl : dot e (lam * tri e I0, lam * tri e I1, lam * tri e I2) = lam).
    { transitivity (lam * dot e e); [|rewrite He; change (@num Exact) with R; ring].
      destruct e as [[x y] z]. reals3. ring. }
    now rewrite Hl.
  - unfold roundNorms. apply Forall_forall. intros x Hx.
    apply in_map_iff in Hx. destruct Hx as [i [<- Hi]].
    apply truthy_nonzero. destruct i as [|i].
    + cbn [Nat.iter nat_rect]. rewrite HAv0. lra.
    + rewrite Hiter, HAe. lra.
Qed.


Lemma octahedron_gram :
  let H := covariance
             (map (fun p => vsub p (centroid Examples.octahedron))
                  Examples.octahedron)
             (map (fun p => vsub p (centroid Examples.octahedron))
                  Examples.octahedron) in
  multiplyMatrices (transpose H) H = ((4, 0, 0), (0, 64, 0), (0, 0, 324)).
Proof.
  cbv zeta.
  assert (Hc : centroid Examples.octahedron = (0, 0, 0)).
  { unfold centroid, Examples.octahedron. cbn [fold_left length].
    real_arith. apply triple_eq; simpl; field. }
  rewrite Hc.
  assert (Hm : map (fun p : @Vec3 Exact => vsub p (0, 0, 0)) Examples.octahedron
               = Examples.octahedron).
  { unfold Examples.octahedron. cbn [map]. real_arith.
    repeat (f_equal; try lra). }
  rewrite Hm.
  assert (HH : covariance Examples.octahedron Examples.octahedron
               = ((2, 0, 0), (0, 8, 0), (0, 0, 18))).
  { unfold covariance, Examples.octahedron.
    match goal with
    | |- fold_left ?f _ _ = _ => set (step := f)
    end.
    assert (Hstep : forall h00 h01 h02 h10 h11 h12 h20 h21 h22
                           a0 a1 a2 b0 b1 b2 : R,
               step ((h00, h01, h02), (h10, h11, h12), (h20, h21, h22))
                    ((a0, a1, a2), (b0, b1, b2))
               = ((h00 + a0 * b0, h01 + a0 * b1, h02 + a0 * b2),
                  (h10 + a1 * b0, h11 + a1 * b1, h12 + a1 * b2),
                  (h20 + a2 * b0, h21 + a2 * b1, h22 + a2 * b2)))
      by reflexivity.
    cbn [combine fold_left]. unfold origin, zero. cbn [of_Z Exact].
    rewrite !Hstep. clear Hstep step.
    apply triple_eq; apply triple_eq; rring. }
  rewrite HH. unfold multiplyMatrices, transpose, build, at2, tri.
  cbn [nadd nmul Exact]. change (@num Exact) with R.
  apply triple_eq; apply triple_eq;
    unfold indices, zero; cbn [fold_left of_Z Exact]; rring.
Qed.


Ltac entries :=
  cbv [multiplyMatrixVec deflate dot build at2 tri];
  cbn [nadd nsub nmul Exact]; change (@num Exact) with R;
  first [rring | apply triple_eq; first [rring | apply triple_eq; rring]].

(** On the six points, with the draws on the axes, the three rounds of the
    power iteration run on the three axes and divide by 2, 4, 32, 64, 162
    and 324 only. *)
Lemma octahedron_defined :
  alignmentDefined Examples.octahedron Examples.octahedron Examples.axisDraws.
Proof.
  unfold alignmentDefined. cbv zeta. rewrite octahedron_gram.
  set (M := ((4, 0, 0), (0, 64, 0), (0, 0, 324)) : @Mat3 Exact).
  set (e0 := (1, 0, 0) : @Vec3 Exact).
  set (e1 := (0, 1, 0) : @Vec3 Exact).
  set (e2 := (0, 0, 1) : @Vec3 Exact).
  assert (Hd0 : draw3 Examples.axisDraws 0
                = (/ 2 * tri e0 I0, / 2 * tri e0 I1, / 2 * tri e0 I2))
    by (cbv [draw3 Examples.axisDraws Nat.mul Nat.add tri e0];
        apply triple_eq; change (@num Exact) with R; field).
  assert (Hd1 : draw3 Examples.axisDraws 1
                = (/ 2 * tri e1 I0, / 2 * tri e1 I1, / 2 * tri e1 I2))
    by (cbv [draw3 Examples.axisDraws Nat.mul Nat.add tri e1];
        apply triple_eq; change (@num Exact) with R; field).
  assert (Hd2 : draw3 Examples.axisDraws 2
                = (/ 2 * tri e2 I0, / 2 * tri e2 I1, / 2 * tri e2 I2))
    by (cbv [draw3 Examples.axisDraws Nat.mul Nat.add tri e2];
        apply triple_eq; change (@num Exact) with R; field).
  rewrite Hd0, Hd1, Hd2.
  assert (H0 : eigenRound M (/ 2 * tri e0 I0, / 2 * tri e0 I1, / 2 * tri e0 I2)
               = (4, e0, deflate M 4 e0)
               /\ Forall (fun x : R => truthy x = true)
                         (roundNorms M (/ 2 * tri e0 I0, / 2 * tri e0 I1,
                                        / 2 * tri e0 I2)))
    by (apply axis_round; [lra | unfold e0; entries | unfold M, e0; entries]).
  destruct H0 as [R0 N0]. rewrite R0. cbn [snd].
  assert (HA1 : deflate M 4 e0 = ((0, 0, 0), (0, 64, 0), (0, 0, 324)))
    by (unfold M, e0; entries).
  rewrite HA1.
  set (A1 := ((0, 0, 0), (0, 64, 0), (0, 0, 324)) : @Mat3 Exact).
  assert (H1 : eigenRound A1 (/ 2 * tri e1 I0, / 2 * tri e1 I1, / 2 * tri e1 I2)
               = (64, e1, deflate A1 64 e1)
               /\ Forall (fun x : R => truthy x = true)
                         (roundNorms A1 (/ 2 * tri e1 I0, / 2 * tri e1 I1,
                                         / 2 * tri e1 I2)))
    by (apply axis_round; [lra | unfold e1; entries | unfold A1, e1; entries]).
  destruct H1 as [R1 N1]. rewrite R1. cbn [snd].
  assert (HA2 : deflate A1 64 e1 = ((0, 0, 0), (0, 0, 0), (0, 0, 324)))
    by (unfold A1, e1; entries).
  rewrite HA2.
  set (A2 := ((0, 0, 0), (0, 0, 0), (0, 0, 324)) : @Mat3 Exact).
  assert (H2 : eigenRound A2 (/ 2 * tri e2 I0, / 2 * tri e2 I1, / 2 * tri e2 I2)
               = (324, e2, deflate A2 324 e2)
               /\ Forall (fun x : R => truthy x = true)
                         (roundNorms A2 (/ 2 * tri e2 I0, / 2 * tri e2 I1,
                                         / 2 * tri e2 I2)))
    by (apply axis_round; [lra | unfold e2; entries | unfold A2, e2; entries]).
  destruct H2 as [_ N2].
  apply Forall_app. split; [exact N0|].
  apply Forall_app. split; [exact N1|exact N2].
Qed.

(** X8.  In real arithmetic, for three or more matched pairs and a call
    in which the power iteration never divides by zero, the result of the
    alignment does not depend on where the two point sets sit: when
    [pointsA] is moved by [dA] and [pointsB] by [dB] the power iteration
    divides by the same norms, the rotation is the same, and a moved point
    of A is carried to the place it was carried to before, moved by
    [dB]. *)
Theorem alignment_ignores_position
        (pointsA pointsB : list Vec3) (rnd : nat -> R) (dA dB : Vec3) :
  (3 <= length pointsA)%nat -> (length pointsA <= length pointsB)%nat ->
  alignmentDefined pointsA pointsB rnd ->
  exists T T',
    computeAlignment pointsA pointsB rnd = inr T
    /\ computeAlignment (map (fun p => vadd p dA) pointsA)
                        (map (fun p => vadd p dB) pointsB) rnd = inr T'
    /\ alignmentDefined (map (fun p => vadd p dA) pointsA)
                        (map (fun p => vadd p dB) pointsB) rnd
    /\ rot T' = rot T
    /\ forall p, applyTransform T' (vadd p dA) = vadd (applyTransform T p) dB.
Proof.
  intros H3 Hlen Hdef.
  assert (Hne : pointsA <> []) by (destruct pointsA; [simpl in H3; lia|discriminate]).
  assert (HneB : pointsB <> []).
  { destruct pointsA; [congruence|]. destruct pointsB; [simpl in Hlen; lia|].
    discriminate. }
  pose proof (centred_translate dA Hne) as HA.
  pose proof (centred_translate dB HneB) as HB.
  pose proof (centroid_translate dA Hne) as HcA.
  pose proof (centroid_translate dB HneB) as HcB.
  assert (Hdef' : alignmentDefined (map (fun p => vadd p dA) pointsA)
                                   (map (fun p => vadd p dB) pointsB) rnd).
  { unfold alignmentDefined in *. rewrite HA, HB. exact Hdef. }
  set (A' := map (fun p => vadd p dA) pointsA) in *.
  set (B' := map (fun p => vadd p dB) pointsB) in *.
  assert (HlA : length A' = length pointsA) by apply length_map.
  assert (HlB : length B' = length pointsB) by apply length_map.
  assert (HneA' : A' <> []).
  { intros E. rewrite E in HlA. destruct pointsA; [congruence|discriminate]. }
  destruct pointsA as [|a pointsA]; [congruence|].
  destruct A' as [|a' A']; [congruence|].
  unfold computeAlignment. rewrite HlA, HlB.
  destruct (Nat.ltb_spec (length pointsB) (length (a :: pointsA))) as [Hlt|_];
    [lia|].
  rewrite HA, HB, HcA, HcB.
  destruct (svd3x3 _ _) as [[U Sg] Vt].
  eexists. eexists. split; [reflexivity|]. split; [reflexivity|].
  split; [exact Hdef'|].
  cbn [rot]. split; [reflexivity|].
  intros p. unfold applyTransform. cbn [rot trans].
  set (Rm := if nltb _ _ then _ else _). clearbody Rm.
  set (cA := centroid (a :: pointsA)). clearbody cA.
  set (cB := centroid pointsB). clearbody cB.
  destruct Rm as [[[[r00 r01] r02] [[r10 r11] r12]] [[r20 r21] r22]].
  destruct p as [[p0 p1] p2], cA as [[a0 a1] a2], cB as [[b0 b1] b2].
  destruct dA as [[d0 d1] d2], dB as [[e0 e1] e2].
  unfold multiplyMatrixVec. real_arith. apply triple_eq; rring.
Qed.

End AlignmentPosition.

Lemma alignment_ignores_position_witness :
  exists T T' : @Transform Exact,
    computeAlignment Examples.octahedron Examples.octahedron
      Examples.axisDraws = inr T
    /\ computeAlignment
         (map (fun p => vadd p (1, 0, 0)%R) Examples.octahedron)
         (map (fun p => vadd p (0, 1, 0)%R) Examples.octahedron)
         Examples.axisDraws = inr T'
    /\ rot T' = rot T.
Proof.
  destruct (@AlignmentPosition.alignment_ignores_position
              Examples.octahedron Examples.octahedron Examples.axisDraws
              (1, 0, 0)%R (0, 1, 0)%R)
    as [T [T' [H1 [H2 [_ [H3 _]]]]]].
  - simpl. lia.
  - simpl. lia.
  - exact AlignmentPosition.octahedron_defined.
  - exists T, T'. split; [exact H1|]. split; [exact H2|exact H3].
Defined.
